(** * bamboo-state: an observable, path-addressed state container

    Shallow embedding of [src/index.js] (class [State], first variant of the
    file) and of [deep-merge.js] ([isObject], [deepMerge]).

    JavaScript objects are mutable and compared by reference, and [deepMerge]
    writes into its target in place and stores sub-objects of its source by
    reference.  The store is therefore modelled explicitly: a heap of object
    cells, values that are primitives or references into the heap. *)

From Stdlib Require Import Ascii String ZArith Lia QArith Qcanon.
From stdpp Require Import base tactics option list strings pretty numbers.

Local Open Scope string_scope.
Local Open Scope list_scope.
Local Open Scope Z_scope.

(** ** Paths: [name.split('.')] and [parts.join('.')] *)

(** [s.split('.')]: never empty, [''.split('.')] is [['']]. *)
Fixpoint split_dot (s : string) : list string :=
  match s with
  | EmptyString => [""]
  | String c s' =>
      if Ascii.eqb c "."%char then "" :: split_dot s'
      else match split_dot s' with
           | [] => [String c ""]
           | x :: xs => String c x :: xs
           end
  end.

(** [parts.join('.')]. *)
Fixpoint join_dot (parts : list string) : string :=
  match parts with
  | [] => ""
  | [x] => x
  | x :: xs => x +:+ "." +:+ join_dot xs
  end.

(** JavaScript truthiness of a string used as a name: [!name] is true exactly
    for the empty string. *)
Definition str_truthy (s : string) : bool := negb (String.eqb s "").

(** ** [_hasSubArray] *)

(** [master.indexOf(v, from)]: first index [>= from] holding [v], else [-1]. *)
Definition indexOf (master : list string) (v : string) (from : nat) : Z :=
  match list_find (λ x, x = v) (drop from master) with
  | Some (k, _) => Z.of_nat (from + k)
  | None => -1
  end.

(** [sub.every((i => v => i = master.indexOf(v, i) + 1)(0))]: the closure
    variable [i] is threaded through; [every] stops at the first falsy
    result, which is [0]. *)
Fixpoint every_from (master sub : list string) (i : Z) : bool :=
  match sub with
  | [] => true
  | v :: rest =>
      let i' := indexOf master v (Z.to_nat i) + 1 in
      if i' =? 0 then false else every_from master rest i'
  end.

(** [_hasSubArray(master, sub)]. *)
Definition _hasSubArray (master sub : list string) : bool :=
  every_from master sub 0.

(** ** Values and the object store *)

(** Numbers.  Finite numbers are kept as exact rationals: rounding to a
    double, and the sign of zero, are not modelled.  [NaN] and the infinities
    are, because the code tests [isNaN] and because [NaN === NaN] is false. *)
Inductive num : Type :=
  | NaN
  | Inf (negative : bool)
  | Fin (q : Qc).

Abbreviation loc := nat (only parsing).

(** A JavaScript value: a primitive, a reference to an object of the store,
    or a function (identified by a number; see [Env] for calls). *)
Inductive value : Type :=
  | VUndef
  | VNull
  | VBool (b : bool)
  | VNum (n : num)
  | VStr (s : string)
  | VRef (l : loc)
  | VFun (f : nat).

(** What [isObject] can tell apart: arrays, [EventTarget] instances, and
    every other object. *)
Inductive okind : Type := KObject | KArray | KEventTarget.

(** An object: its kind and its own enumerable properties in [Object.keys]
    order; an array holds its elements under ["0"], ["1"], ... and is dense.
    Inherited (prototype) properties and the properties of functions are not
    modelled: path segments are assumed not to name them. *)
Record cell : Type := Cell { kind : okind; props : list (string * value) }.

(** The store: the object at address [l] is the [l]-th cell. *)
Abbreviation heap := (list cell) (only parsing).

Global Instance num_eq_dec : EqDecision num.
Proof. solve_decision. Defined.
Global Instance value_eq_dec : EqDecision value.
Proof. solve_decision. Defined.
Global Instance okind_eq_dec : EqDecision okind.
Proof. solve_decision. Defined.

(** Integers as numbers and as values. *)
Definition num_of_Z (z : Z) : num := Fin (Q2Qc (inject_Z z)).
Definition VInt (z : Z) : value := VNum (num_of_Z z).

(** [isNaN(n)] on a number. *)
Definition isNaN (n : num) : bool :=
  match n with NaN => true | _ => false end.

(** Truthiness ([item ? .. : ..], [!x], [a && b]). *)
Definition truthy (v : value) : bool :=
  match v with
  | VUndef | VNull => false
  | VBool b => b
  | VNum NaN => false
  | VNum (Inf _) => true
  | VNum (Fin q) => negb (bool_decide (q = Q2Qc 0))
  | VStr s => str_truthy s
  | VRef _ | VFun _ => true
  end.

(** [a === b]: by content on primitives (never true on [NaN]), by identity
    on objects and functions. *)
Definition strict_eq (a b : value) : bool :=
  match a, b with
  | VNum NaN, _ | _, VNum NaN => false
  | _, _ => bool_decide (a = b)
  end.

(** Association lists as property tables. *)
Fixpoint assoc {A} (k : string) (ps : list (string * A)) : option A :=
  match ps with
  | [] => None
  | (k', v) :: ps' => if String.eqb k k' then Some v else assoc k ps'
  end.

(** [o[k] = v] on a property table: overwrite in place, or append.
    (JavaScript lists integer-like keys first; where a new key lands only
    shows in the order of [Object.keys] of the object written to.) *)
Fixpoint assoc_set {A} (k : string) (v : A) (ps : list (string * A))
  : list (string * A) :=
  match ps with
  | [] => [(k, v)]
  | (k', v') :: ps' =>
      if String.eqb k k' then (k, v) :: ps' else (k', v') :: assoc_set k v ps'
  end.

(** Own properties of a string primitive: its characters by index. *)
Fixpoint str_chars (s : string) (i : nat) : list (string * value) :=
  match s with
  | EmptyString => []
  | String c s' => (pretty i, VStr (String c "")) :: str_chars s' (S i)
  end.

(** [Object.entries(v)] (a snapshot), for a value that is not [null] or
    [undefined]. *)
Definition own_entries (h : heap) (v : value) : list (string * value) :=
  match v with
  | VRef l => match h !! l with Some c => props c | None => [] end
  | VStr s => str_chars s 0
  | _ => []
  end.

(** [Object.keys(v)]. *)
Definition own_keys (h : heap) (v : value) : list string :=
  (own_entries h v).*1.

(** [item[index]] for a truthy [item]. *)
Definition get_prop (h : heap) (item : value) (index : string) : value :=
  match item with
  | VStr s =>
      if String.eqb index "length" then VInt (Z.of_nat (String.length s))
      else default VUndef (assoc index (str_chars s 0))
  | VRef l =>
      match h !! l with
      | Some (Cell KArray elems) =>
          if String.eqb index "length" then VInt (Z.of_nat (length elems))
          else default VUndef (assoc index elems)
      | Some c => default VUndef (assoc index (props c))
      | None => VUndef
      end
  | _ => VUndef
  end.

(** [target[key] = v] on an object of the store. *)
Definition set_prop (h : heap) (target : value) (key : string) (v : value)
  : heap :=
  match target with
  | VRef l =>
      match h !! l with
      | Some c => <[l := Cell (kind c) (assoc_set key v (props c))]> h
      | None => h
      end
  | _ => h
  end.

(** [{ [key]: v }]: a fresh plain object. *)
Definition alloc_singleton (h : heap) (key : string) (v : value)
  : heap * value :=
  ((h ++ [Cell KObject [(key, v)]])%list, VRef (length h)).

(** [isObject] of deep-merge.js: truthy, [typeof item === 'object'], not an
    array, not [null], not an [EventTarget].  index.js imports the same
    predicate under the name [isPlainObject]. *)
Definition isObject (h : heap) (item : value) : bool :=
  match item with
  | VRef l =>
      match h !! l with
      | Some c => bool_decide (kind c = KObject)
      | None => false
      end
  | _ => false
  end.

(** The name under which index.js imports it. *)
Definition isPlainObject := isObject.

(** ** Outcomes *)

Inductive exn : Type :=
  | TypeError
  | Raised (f : nat).

(** A call returns, throws, or does not return: [Diverge] is what an
    exhausted recursion budget stands for (unbounded recursion on a cyclic
    object). *)
Inductive res (A : Type) : Type :=
  | Ok (a : A)
  | Throw (e : exn)
  | Diverge.
Arguments Ok {A} a.
Arguments Throw {A} e.
Arguments Diverge {A}.

Global Instance res_bind : MBind res := λ A B k m,
  match m with
  | Ok a => k a
  | Throw e => Throw e
  | Diverge => Diverge
  end.

(** [xs.forEach(f)] threading the store. *)
Fixpoint forEach {A S} (f : S → A → res S) (xs : list A) (s : S) : res S :=
  match xs with
  | [] => Ok s
  | x :: xs' => s' ← f s x; forEach f xs' s'
  end.

(** ** deep-merge.js *)

(** The callback of the [forEach] of [deepMerge]; [rec] is the recursive
    call. *)
Definition merge_key (rec : heap → value → value → res heap)
    (target source : value) (h : heap) (key : string) : res heap :=
  if isObject h (get_prop h source key) then
    let tk := get_prop h target key in
    let h1 :=
      if negb (truthy tk) || negb (isObject h tk)
      then set_prop h target key (get_prop h source key)
      else h in
    rec h1 (get_prop h1 target key) (get_prop h1 source key)
  else
    (* Object.assign(target, { [key]: source[key] }) *)
    Ok (set_prop h target key (get_prop h source key)).

(** [deepMerge(target, source)]; it returns [target], so only the store is
    returned here. *)
Fixpoint deepMerge (fuel : nat) (h : heap) (target source : value)
  : res heap :=
  match fuel with
  | O => Diverge
  | S fuel' =>
      if isObject h target && isObject h source then
        forEach (merge_key (deepMerge fuel') target source)
                (own_keys h source) h
      else Ok h
  end.

(** ** Path codec of index.js *)

(** The [reduce] of [_get] over the segments of the name. *)
Definition resolve (h : heap) (segs : list string) (data : value) : value :=
  foldl (λ item index, if truthy item then get_prop h item index else VUndef)
        data segs.

(** [_get(name, data)]; an absent [name] is the empty string (both are
    falsy). *)
Definition _get (h : heap) (name : string) (data : value) : value :=
  if str_truthy name then resolve h (split_dot name) data else data.

(** [segs.reduceRight((previous, current) => ({ [current]: previous }), value)]:
    the innermost object is allocated first. *)
Fixpoint encodePatch (h : heap) (segs : list string) (v : value)
  : heap * value :=
  match segs with
  | [] => (h, v)
  | s :: rest =>
      let '(h1, inner) := encodePatch h rest v in
      alloc_singleton h1 s inner
  end.

(** ** The environment: built-ins and user code

    What index.js calls but does not define.  User functions (custom
    transforms, function-valued writes, subscriber callbacks) may change
    objects of the store and may raise; they do not re-enter the [State]
    instance. *)
Record Env : Type := {
  (** [f(args)] for the function value [VFun f]; [None] when it raises. *)
  call : nat → heap → list value → option (heap * value);
  (** [ToString(v)] for a [v] that is not a string; [None] when it throws. *)
  ToString : heap → value → option string;
  (** [Number(s)] on a string. *)
  StringToNumber : string → num;
  (** [Number(o)] on an object or function; [None] when it throws. *)
  ObjectToNumber : heap → value → option num;
  (** [parseFloat(s)] on a string. *)
  parseFloat_string : string → num;
  (** [JSON.parse(s)]; [None] when it throws. *)
  JSON_parse : heap → string → option (heap * value);
  (** [camelcaseKeys(v)] of camelcase-keys-recursive; [None] when it throws. *)
  camelcaseKeys : heap → value → option (heap * value);
}.

(** ** [parseInt] on a string (ECMAScript [parseInt] with no radix, ASCII). *)

(** White space skipped by [parseInt]: space, tab, LF, VT, FF, CR. *)
Definition is_ws (c : ascii) : bool :=
  let n := nat_of_ascii c in
  bool_decide (n = 32 ∨ n = 9 ∨ n = 10 ∨ n = 11 ∨ n = 12 ∨ n = 13)%nat.

Fixpoint skip_ws (s : string) : string :=
  match s with
  | String c s' => if is_ws c then skip_ws s' else s
  | EmptyString => s
  end.

(** The value of a digit: [0-9], [a-z] and [A-Z] from ten on. *)
Definition digit_val (c : ascii) : option Z :=
  let n := Z.of_nat (nat_of_ascii c) in
  if (48 <=? n) && (n <=? 57) then Some (n - 48)
  else if (97 <=? n) && (n <=? 122) then Some (n - 87)
  else if (65 <=? n) && (n <=? 90) then Some (n - 55)
  else None.

(** The longest prefix of radix-[radix] digits, as a number; [None] when it
    is empty. *)
Fixpoint digits_prefix (radix : Z) (s : string) (acc : option Z) : option Z :=
  match s with
  | String c s' =>
      match digit_val c with
      | Some d =>
          if d <? radix
          then digits_prefix radix s' (Some (default 0 acc * radix + d))
          else acc
      | None => acc
      end
  | EmptyString => acc
  end.

(** Skip white space, take the sign, take [0x] or [0X] as radix 16, read the
    digits; [NaN] when there is none. *)
Definition parseInt_string (s : string) : num :=
  let s1 := skip_ws s in
  let '(neg, s2) :=
    match s1 with
    | String "-"%char r => (true, r)
    | String "+"%char r => (false, r)
    | _ => (false, s1)
    end in
  let '(radix, s3) :=
    match s2 with
    | String "0"%char (String "x"%char r) => (16, r)
    | String "0"%char (String "X"%char r) => (16, r)
    | _ => (10, s2)
    end in
  match digits_prefix radix s3 None with
  | None => NaN
  | Some z => num_of_Z (if neg : bool then - z else z)
  end.

(** A call of the environment that throws [e] when it fails. *)
Definition lift {A} (e : exn) (o : option A) : res A :=
  match o with Some a => Ok a | None => Throw e end.

Section Builtins.
Context (E : Env).

(** [parseInt(v)], [parseFloat(v)]: on [ToString(v)]. *)
Definition parseInt (h : heap) (v : value) : res num :=
  match v with
  | VStr s => Ok (parseInt_string s)
  | _ => s ← lift TypeError (ToString E h v); Ok (parseInt_string s)
  end.

Definition parseFloat (h : heap) (v : value) : res num :=
  match v with
  | VStr s => Ok (parseFloat_string E s)
  | _ => s ← lift TypeError (ToString E h v); Ok (parseFloat_string E s)
  end.

(** [Number(v)]. *)
Definition Number (h : heap) (v : value) : res num :=
  match v with
  | VUndef => Ok NaN
  | VNull => Ok (num_of_Z 0)
  | VBool b => Ok (num_of_Z (if b then 1 else 0))
  | VNum n => Ok n
  | VStr s => Ok (StringToNumber E s)
  | VRef _ | VFun _ => lift TypeError (ObjectToNumber E h v)
  end.
End Builtins.

(** ** Option records *)

(** A record as registered: every field may be absent. *)
Record rule : Type := Rule {
  defaultValue : option value;
  type : option string;
  function : option nat;
  allowedValues : option (list value);
  sameReferenceCheck : option bool;
}.

(** The record [{}]. *)
Definition no_rule : rule := Rule None None None None None.

(** [this._defaultOptions] (its fields [triggerSubscriptionCallback] and
    [isFunction] are never read back and are left out). *)
Definition _defaultOptions : rule :=
  Rule (Some VUndef) None None None (Some true).

(** [{ ...a, ...b }]: a field of [b], when present, replaces that of [a]. *)
Definition spread (a b : rule) : rule :=
  Rule (from_option Some (defaultValue a) (defaultValue b))
       (from_option Some (type a) (type b))
       (from_option Some (function a) (function b))
       (from_option Some (allowedValues a) (allowedValues b))
       (from_option Some (sameReferenceCheck a) (sameReferenceCheck b)).

(** [rule.defaultValue] as a value: an absent field reads [undefined]. *)
Definition rule_default (r : rule) : value := default VUndef (defaultValue r).

(** [_findOptionsByName(name, optionsList)]. *)
Definition _findOptionsByName (name : string)
    (optionsList : list (string * rule)) : rule :=
  let nameParts := split_dot name in
  let options :=
    foldl (λ options index,
             let partialName := join_dot (take index nameParts) in
             match assoc partialName optionsList with
             | Some r => Some r
             | None => options
             end)
          None (seq 1 (length nameParts)) in
  match options with
  | Some r => spread _defaultOptions r
  | None => _defaultOptions
  end.

(** The filter of [_getOptions]. *)
Definition option_candidate (name optionName : string) : bool :=
  negb (str_truthy name) || negb (str_truthy optionName)
  || _hasSubArray (split_dot name) (split_dot optionName).

(** The names that pass the filter. *)
Definition candidate_names (registry : list (string * rule)) (name : string)
  : list string :=
  filter (λ optionName, option_candidate name optionName = true) (registry.*1).

(** [_getOptions(name)] over the registry [this._options]. *)
Definition _getOptions (registry : list (string * rule)) (name : string)
  : rule :=
  let options := candidate_names registry name in
  let optionsList :=
    foldl (λ list current,
             match assoc current registry with
             | Some r => assoc_set current r list
             | None => list
             end)
          [] options in
  _findOptionsByName name optionsList.

(** [_getDefaultValue(name)]. *)
Definition _getDefaultValue (registry : list (string * rule)) (name : string)
  : value :=
  rule_default (_getOptions registry name).

(** ** Value transformer *)

(** [_toBoolean]. *)
Definition _toBoolean (v : value) : bool :=
  negb (strict_eq v VUndef) && negb (strict_eq v VNull)
  && negb (strict_eq v (VBool false)) && negb (strict_eq v (VStr "false")).

(** [if (isNaN(value)) { value = 0; }]. *)
Definition nan_to_zero (n : num) : value :=
  if isNaN n then VInt 0 else VNum n.

Section Transform.
Context (E : Env).

(** The [switch (rule.type)] of [_transformValue].  ([rule] is the object
    that [_findOptionsByName] builds, so the test [!rule] never holds.) *)
Definition coerce (h : heap) (v oldValue : value) (r : rule)
  : res (heap * value) :=
  match type r with
  | Some "custom" =>
      match function r with
      | Some f => lift (Raised f) (call E f h [v; oldValue; rule_default r])
      | None => Throw TypeError
      end
  | Some "number" => n ← Number E h v; Ok (h, nan_to_zero n)
  | Some "integer" => n ← parseInt E h v; Ok (h, nan_to_zero n)
  | Some "float" => n ← parseFloat E h v; Ok (h, nan_to_zero n)
  | Some "boolean" => Ok (h, VBool (_toBoolean v))
  | Some "json" =>
      match v with
      | VStr s =>
          (* try { value = JSON.parse(value); } catch(error) {} *)
          let '(h1, v1) := default (h, v) (JSON_parse E h s) in
          (* try { value = camelcaseKeys(value); } catch(error) {} *)
          Ok (default (h1, v1) (camelcaseKeys E h1 v1))
      | _ => Ok (h, v)
      end
  | _ => Ok (h, v)
  end.

(** The allow-list filter that ends [_transformValue]. *)
Definition allow_filter (v : value) (r : rule) : value :=
  match allowedValues r with
  | Some allowed =>
      if bool_decide
           (length (filter (λ allowedValue, strict_eq v allowedValue = true)
                           allowed) = 0%nat)
      then (if negb (strict_eq (rule_default r) VUndef)
            then rule_default r else VNull)
      else v
  | None => v
  end.

Definition _transformValue (h : heap) (v oldValue : value) (r : rule)
  : res (heap * value) :=
  '(h1, v1) ← coerce h v oldValue r;
  Ok (h1, allow_filter v1 r).
End Transform.

(** ** The [State] instance *)

Record subscription : Type := Subscription {
  sub_id : nat;
  sub_name : string;
  sub_callback : nat;
}.

(** The fields of an instance.  [_subscriptions] has holes where [delete]
    removed an entry; [_nextId] stands for the supply of fresh [Symbol()]s. *)
Record State : Type := MkState {
  _data : value;
  _options : list (string * rule);
  _subscriptions : list (option subscription);
  _nextId : nat;
}.

(** One callback invocation: [callback(value, name, options)]. *)
Record event : Type := Event {
  ev_callback : nat;
  ev_value : value;
  ev_name : string;
  ev_options : value;
}.

(** The [options] argument of [set]: the fields that [set] reads
    ([triggerSubscriptionCallback] is [None] when [undefined], else its
    truthiness), and the object itself as handed on to the callbacks: the
    caller's object, or the [{}] of the default parameter. *)
Record set_options : Type := SetOptions {
  opt_defaultValue : value;
  opt_isFunction : bool;
  opt_triggerSubscriptionCallback : option bool;
  opt_self : value;
}.

(** Options without any of the fields that [set] reads.  The identity of
    the object handed to the callbacks is left open ([VUndef]). *)
Definition no_options : set_options := SetOptions VUndef false None VUndef.

(** The callback of the [reduce] of [_objectToDotNotation]; [rec] is the
    recursive call.  [result] (here [acc], the [list] of the source) is local
    to the call chain and is returned rather than updated in place. *)
Definition flatten_entry
    (rec : value → string → list (string * value) → res (list (string * value)))
    (h : heap) (prefix : string) (acc : list (string * value))
    (entry : string * value) : res (list (string * value)) :=
  let '(key, v) := entry in
  let flattenedKey := prefix +:+ key in
  if isPlainObject h v
  then rec v (flattenedKey +:+ ".") acc
  else Ok (assoc_set flattenedKey v acc).

(** [_objectToDotNotation(data, prefix, result)]. *)
Fixpoint _objectToDotNotation (fuel : nat) (h : heap) (data : value)
    (prefix : string) (result : list (string * value))
  : res (list (string * value)) :=
  match fuel with
  | O => Diverge
  | S fuel' =>
      forEach (flatten_entry (_objectToDotNotation fuel' h) h prefix)
              (own_entries h data) result
  end.

Section Facade.
Context (E : Env).

Definition State_get (h : heap) (s : State) (name : string) : value :=
  _get h name (_data s).

(** [setOptions(name, options)]. *)
Definition State_setOptions (fuel : nat) (h : heap) (s : State)
    (name : string) (options : rule) : res (heap * State) :=
  let s1 := MkState (_data s) (assoc_set name options (_options s))
                    (_subscriptions s) (_nextId s) in
  if negb (strict_eq (rule_default options) VUndef)
     && strict_eq (State_get h s1 name) VUndef
  then
    let '(h1, modifiedData) :=
      encodePatch h (split_dot name) (rule_default options) in
    h2 ← deepMerge fuel h1 (_data s1) modifiedData;
    Ok (h2, s1)
  else Ok (h, s1).

Definition State_getDefaultValue (s : State) (name : string) : value :=
  _getDefaultValue (_options s) name.

(** [subscribe(name, callback)] for a single name and for an array of
    names; the handle returned is the id to pass to [_unsubscribe]. *)
Definition State_subscribe (s : State) (name : string) (callback : nat)
  : State * nat :=
  let id := _nextId s in
  (MkState (_data s) (_options s)
           (_subscriptions s ++ [Some (Subscription id name callback)])
           (S id), id).

Definition State_subscribe_list (s : State) (names : list string)
    (callback : nat) : State * nat :=
  let id := _nextId s in
  (MkState (_data s) (_options s)
           (_subscriptions s
              ++ map (λ name, Some (Subscription id name callback)) names)
           (S id), id).

Definition delete_where (p : subscription → bool)
    (subs : list (option subscription)) : list (option subscription) :=
  map (λ o, match o with
            | Some sub => if p sub then None else Some sub
            | None => None
            end) subs.

Definition _unsubscribe (s : State) (id : nat) : State :=
  MkState (_data s) (_options s)
          (delete_where (λ sub, bool_decide (sub_id sub = id))
                        (_subscriptions s))
          (_nextId s).

Definition State_unsubscribeAll (s : State) (name : string) : State :=
  MkState (_data s) (_options s)
          (delete_where (λ sub, String.eqb (sub_name sub) name)
                        (_subscriptions s))
          (_nextId s).

(** The condition under which a subscription is called. *)
Definition fires (name : string) (modifiedKeys : list string)
    (sub : subscription) : bool :=
  negb (str_truthy name) || negb (str_truthy (sub_name sub))
  || _hasSubArray (split_dot name) (split_dot (sub_name sub))
  || bool_decide (sub_name sub ∈ modifiedKeys).

(** The body of the [forEach] of [_triggerSubscriptionCallbacks]. *)
Definition notify (s : State) (name : string) (modifiedKeys : list string)
    (options : value) (acc : heap * list event)
    (entry : option subscription) : res (heap * list event) :=
  match entry with
  | None => Ok acc
  | Some sub =>
      if fires name modifiedKeys sub then
        let v := _get acc.1 (sub_name sub) (_data s) in
        '(h1, _) ← lift (Raised (sub_callback sub))
                        (call E (sub_callback sub) acc.1
                              [v; VStr (sub_name sub); options]);
        Ok (h1, (acc.2 ++ [Event (sub_callback sub) v (sub_name sub) options])%list)
      else Ok acc
  end.

(** [modifiedKeys]: the dot-notation keys of the patch, when
    [typeof modifiedData === 'object' && modifiedData.constructor ===
    Object]. *)
Definition modifiedKeys (fuel : nat) (h : heap) (modifiedData : value)
  : res (list string) :=
  if isObject h modifiedData
  then r ← _objectToDotNotation fuel h modifiedData "" []; Ok (r.*1)
  else Ok [].

(** [_triggerSubscriptionCallbacks(name, modifiedData, options)]; an absent
    [name] is the empty string.  [modifiedData] is a patch built by [set],
    or [false] or [undefined]. *)
Definition _triggerSubscriptionCallbacks (fuel : nat) (h : heap)
    (s : State) (name : string) (modifiedData : value) (options : value)
  : res (heap * list event) :=
  keys ← modifiedKeys fuel h modifiedData;
  forEach (notify s name keys options) (_subscriptions s) (h, []).

Definition State_triggerSubscriptionCallbacks (fuel : nat) (h : heap)
    (s : State) (name : string) (options : value)
  : res (heap * list event) :=
  _triggerSubscriptionCallbacks fuel h s name (VBool false) options.

(** [set(name, value, options)] for a string [name], first half: the
    [defaultValue] option, the function-valued write and the transformer.
    It yields the value to be written. *)
Definition prepare (fuel : nat) (h : heap) (s : State) (name : string)
    (v : value) (options : set_options) : res (heap * State * value) :=
  '(h, s) ←
    (if negb (strict_eq (opt_defaultValue options) VUndef)
     then State_setOptions fuel h s name
            (Rule (Some (opt_defaultValue options)) None None None None)
     else Ok (h, s));
  let stateOptions := _getOptions (_options s) name in
  let oldValue := _get h name (_data s) in
  '(h, v) ←
    (match v with
     | VFun f =>
         if opt_isFunction options
         then lift (Raised f)
                   (call E f h [oldValue; _getDefaultValue (_options s) name])
         else Ok (h, v)
     | _ => Ok (h, v)
     end);
  '(h, v) ← _transformValue E h v oldValue stateOptions;
  Ok (h, s, v).

(** The test [sameReferenceCheck && _get(name, data) === _get(name,
    modifiedData)] that skips the write. *)
Definition suppressed (h : heap) (s : State) (name : string)
    (modifiedData : value) : bool :=
  let stateOptions := _getOptions (_options s) name in
  default false (sameReferenceCheck stateOptions)
  && strict_eq (_get h name (_data s)) (_get h name modifiedData).

(** Second half of [set]: the patch, the suppression test, the merge and
    the dispatch.  [deepMerge] returns its target, so [_data] stays. *)
Definition commit (fuel : nat) (h : heap) (s : State) (name : string)
    (v : value) (options : set_options)
  : res (heap * State * list event * (string * value)) :=
  let '(h, modifiedData) := encodePatch h (split_dot name) v in
  if suppressed h s name modifiedData
  then Ok (h, s, [], (name, v))
  else
    h ← deepMerge fuel h (_data s) modifiedData;
    '(h, log) ←
      (if default true (opt_triggerSubscriptionCallback options)
       then _triggerSubscriptionCallbacks fuel h s name modifiedData
              (opt_self options)
       else Ok (h, []));
    Ok (h, s, log, (name, v)).

Definition set_path (fuel : nat) (h : heap) (s : State) (name : string)
    (v : value) (options : set_options)
  : res (heap * State * list event * (string * value)) :=
  '(h, s, v) ← prepare fuel h s name v options;
  commit fuel h s name v options.

(** [{ ...options, triggerSubscriptionCallback: false }]. *)
Definition quiet (options : set_options) : set_options :=
  SetOptions (opt_defaultValue options) (opt_isFunction options)
             (Some false) (opt_self options).

(** The callback of the [map] of [_setMultiple]: one inner [set]; its result
    is appended to the array being built. *)
Definition write_entry (fuel : nat) (lst : value) (options : set_options)
    (acc : heap * State * list (string * value)) (name : string)
  : res (heap * State * list (string * value)) :=
  let '(h, s, result) := acc in
  '(h, s, _, r) ←
    set_path fuel h s name (get_prop h lst name) (quiet options);
  Ok (h, s, result ++ [r]).

(** [Object.keys(list).map(name => this.set(name, list[name], ...))]. *)
Definition inner_writes (fuel : nat) (h : heap) (s : State) (lst : value)
    (options : set_options) : res (heap * State * list (string * value)) :=
  forEach (write_entry fuel lst options) (own_keys h lst) (h, s, []).

(** [_setMultiple(list, options)], with [lst] for [list]: the inner writes,
    then one dispatch without a name. *)
Definition _setMultiple (fuel : nat) (h : heap) (s : State) (lst : value)
    (options : set_options)
  : res (heap * State * list event * list (string * value)) :=
  match lst with
  | VNull => Throw TypeError
  | _ =>
      '(h, s, result) ← inner_writes fuel h s lst options;
      '(h, log) ← _triggerSubscriptionCallbacks fuel h s "" VUndef VUndef;
      Ok (h, s, log, result)
  end.

(** [set]: the object form when [typeof name === 'object'], the path form
    for a string; any other [name] has no [split].  In the object form the
    second argument of the source is the options object; here it is
    [options], and [v] is not looked at. *)
Definition State_set (fuel : nat) (h : heap) (s : State) (name : value)
    (v : value) (options : set_options)
  : res (heap * State * list event * list (string * value)) :=
  match name with
  | VRef _ | VNull => _setMultiple fuel h s name options
  | VStr n =>
      '(h, s, log, r) ← set_path fuel h s n v options; Ok (h, s, log, [r])
  | _ => Throw TypeError
  end.

(** [new State(defaults)]: [_data] is a fresh [{}], then [_setDefaults];
    [Object.entries(null)] throws ([undefined] is replaced by the default
    [{}], which has no entries either). *)
Definition State_new (fuel : nat) (h : heap) (defaults : value)
  : res (heap * State) :=
  let s := MkState (VRef (length h)) [] [] 0 in
  let h := (h ++ [Cell KObject []])%list in
  match defaults with
  | VNull => Throw TypeError
  | _ =>
      modifiedData ← _objectToDotNotation fuel h defaults "" [];
      forEach (λ '(h, s) '(key, v),
                 State_setOptions fuel h s key
                   (Rule (Some v) None None None None))
              modifiedData (h, s)
  end.
End Facade.

(** ** Definitions used to state the properties *)

(** A segment: a string without a dot. *)
Definition no_dot (s : string) : Prop := split_dot s = [s].

(** The dotted prefixes of a path, shortest first: ["a"], ["a.b"], ... *)
Definition dotted_prefixes (name : string) : list string :=
  map (λ index, join_dot (take index (split_dot name)))
      (seq 1 (length (split_dot name))).

(** The record registered at the longest dotted prefix of [name] that is
    registered, if there is one. *)
Definition longest_registered_prefix (registry : list (string * rule))
    (name : string) : option rule :=
  list.last (omap (λ p, assoc p registry) (dotted_prefixes name)).

(** A value is valid in a store when it does not point outside it. *)
Definition valid (h : heap) (v : value) : Prop :=
  match v with VRef l => (l < length h)%nat | _ => True end.

Global Instance valid_dec h v : Decision (valid h v).
Proof. destruct v; simpl; apply _. Defined.

(** A store is well formed when no property points outside it: there are no
    dangling references. *)
Definition wf_heap (h : heap) : Prop :=
  Forall (λ c, Forall (λ p, valid h p.2) (props c)) h.

(** The objects below address [n] only point below [n]. *)
Definition closed_below (n : nat) (h : heap) : Prop :=
  ∀ l c k l', (l < n)%nat → h !! l = Some c →
    assoc k (props c) = Some (VRef l') → (l' < n)%nat.

(** [c] is the patch that [encodePatch] builds for [segs] and [w]: a chain of
    one-property objects, all at addresses from [n] on. *)
Fixpoint is_chain (h : heap) (n : nat) (c : loc) (segs : list string)
    (w : value) : Prop :=
  match segs with
  | [] => False
  | k :: rest =>
      (n ≤ c)%nat ∧
      match rest with
      | [] => h !! c = Some (Cell KObject [(k, w)])
      | _ => ∃ c', h !! c = Some (Cell KObject [(k, VRef c')])
                   ∧ is_chain h n c' rest w
      end
  end.

(** Where a merge of a patch for [segs] into the object [t] assigns: it
    descends while the next segment holds a plain object, and stops at the
    last segment.  The result is the object assigned to and the segments
    left, the first of which is the key assigned. *)
Fixpoint descend (h : heap) (t : loc) (segs : list string)
  : loc * list string :=
  match segs with
  | k :: (_ :: _) as rest =>
      match get_prop h (VRef t) k with
      | VRef t' => if isObject h (VRef t') then descend h t' rest else (t, segs)
      | _ => (t, segs)
      end
  | _ => (t, segs)
  end.

(** The objects that [descend] goes through, the last being the one assigned
    to. *)
Fixpoint spine (h : heap) (t : loc) (segs : list string) : list loc :=
  t ::
  match segs with
  | k :: (_ :: _) as rest =>
      match get_prop h (VRef t) k with
      | VRef t' => if isObject h (VRef t') then spine h t' rest else []
      | _ => []
      end
  | _ => []
  end.

(** The property slots that [resolve] reads: object and key. *)
Fixpoint reads (h : heap) (item : value) (segs : list string)
  : list (loc * string) :=
  match segs with
  | [] => []
  | k :: rest =>
      let next := if truthy item then get_prop h item k else VUndef in
      match item with
      | VRef l => (l, k) :: reads h next rest
      | _ => reads h next rest
      end
  end.

(** The live subscriptions, in registration order. *)
Definition live (s : State) : list subscription := omap id (_subscriptions s).

(** Every callback of a live subscription returns and leaves the store as it
    is. *)
Definition observers (E : Env) (s : State) : Prop :=
  ∀ sub h args, sub ∈ live s →
    ∃ r, call E (sub_callback sub) h args = Some (h, r).

(** Every callback of a live subscription returns. *)
Definition responsive (E : Env) (s : State) : Prop :=
  ∀ sub h args, sub ∈ live s → is_Some (call E (sub_callback sub) h args).

(** The call a subscription receives in the store [h]. *)
Definition notification (h : heap) (s : State) (options : value)
    (sub : subscription) : event :=
  Event (sub_callback sub) (_get h (sub_name sub) (_data s)) (sub_name sub)
        options.

(** Who was called, and under which name. *)
Definition called (log : list event) : list (nat * string) :=
  map (λ e, (ev_callback e, ev_name e)) log.

Definition subscribers (subs : list subscription) : list (nat * string) :=
  map (λ sub, (sub_callback sub, sub_name sub)) subs.

(** The object [l0] is not met when descending from [l], whatever the
    path. *)
Definition avoids (h : heap) (l0 l : loc) : Prop :=
  ∀ segs, l0 ∉ spine h l segs.

(** What a batch needs of the store, and what each inner write leaves in
    place for the next: a well-formed store, a plain object [t] as the root
    of the tree, and the map [l0], with properties [ps0], out of the
    tree. *)
Definition batch_inv (h : heap) (t l0 : loc) (ps0 : list (string * value))
  : Prop :=
  wf_heap h ∧ isObject h (VRef t) = true ∧ avoids h l0 t
  ∧ h !! l0 = Some (Cell KObject ps0).

(** ** The second variant of the class (same file)

    Its options resolution does not lay the record over built-in defaults:
    [_findOptionsByName] returns the record found, or [null]. *)

(** [_findOptionsByName(name, optionsList)] of the second variant. *)
Definition _findOptionsByName2 (name : string)
    (optionsList : list (string * rule)) : option rule :=
  let nameParts := split_dot name in
  foldl (λ options index,
           let partialName := join_dot (take index nameParts) in
           match assoc partialName optionsList with
           | Some r => Some r
           | None => options
           end)
        None (seq 1 (length nameParts)).

(** [_getOptions(name)] of the second variant. *)
Definition _getOptions2 (registry : list (string * rule)) (name : string)
  : option rule :=
  let options := candidate_names registry name in
  let optionsList :=
    foldl (λ list current,
             match assoc current registry with
             | Some r => assoc_set current r list
             | None => list
             end)
          [] options in
  _findOptionsByName2 name optionsList.

(** [_getDefaultValue(name)] of the second variant:
    [if (!options) { return; } return options.defaultValue;]. *)
Definition _getDefaultValue2 (registry : list (string * rule))
    (name : string) : value :=
  match _getOptions2 registry name with
  | None => VUndef
  | Some r => rule_default r
  end.

(** ** More definitions used to state properties *)

(** The ids handed out so far are below the next one: [Symbol()] is
    fresh. *)
Definition ids_fresh (s : State) : Prop :=
  ∀ sub, sub ∈ live s → (sub_id sub < _nextId s)%nat.

(** The object graph below [v] has depth at most [n]: a value that is not a
    plain object has depth [0]. *)
Fixpoint depth_le (n : nat) (h : heap) (v : value) : Prop :=
  match n with
  | O => isObject h v = false
  | S n' =>
      isObject h v = true →
      ∀ k, k ∈ own_keys h v → depth_le n' h (get_prop h v k)
  end.

(** Two stores with the same addresses and the same kind of object at each
    address. *)
Definition same_shape (h h' : heap) : Prop :=
  length h' = length h ∧ ∀ l, kind <$> (h' !! l) = kind <$> (h !! l).

(** [Object.assign(target, source)] for the keys [keys] of [source], read
    in the store [h0]. *)
Definition assign_keys (h0 : heap) (t s : loc) (keys : list string)
    (h : heap) : heap :=
  foldl (λ hc k, set_prop hc (VRef t) k (get_prop h0 (VRef s) k)) h keys.

(** In the plain objects met from [v] down to depth [n], every key occurs
    once, as in a JavaScript object, and has no dot. *)
Fixpoint segment_keys (n : nat) (h : heap) (v : value) : Prop :=
  match n with
  | O => True
  | S n' =>
      isObject h v = true →
      NoDup (own_keys h v)
      ∧ ∀ k, k ∈ own_keys h v →
             no_dot k ∧ segment_keys n' h (get_prop h v k)
  end.

(** The record [{ defaultValue: v }]. *)
Definition default_rule (v : value) : rule := Rule (Some v) None None None None.

(** [segs] leads from [data], through plain objects and along keys they
    have, to the value [v], which is not a plain object: [v] is a leaf of
    [data]. *)
Fixpoint leaf_at (h : heap) (data : value) (segs : list string) (v : value)
  : Prop :=
  match segs with
  | [] => False
  | k :: rest =>
      isObject h data = true ∧ k ∈ own_keys h data ∧
      match rest with
      | [] => get_prop h data k = v ∧ isObject h v = false
      | _ => leaf_at h (get_prop h data k) rest v
      end
  end.

(** A value that does not point at or above address [n]. *)
Definition below (n : nat) (v : value) : Prop :=
  match v with VRef l => (l < n)%nat | _ => True end.

(** The objects of a patch with the paths that lead to them: [c] holds the
    chain for [segs] and is reached by [p]. *)
Fixpoint chain_nodes (h : heap) (c : loc) (p : list string)
    (segs : list string) : list (loc * list string) :=
  match segs with
  | [] => []
  | k :: rest =>
      (c, p) ::
      match rest with
      | [] => []
      | _ =>
          match get_prop h (VRef c) k with
          | VRef c' => chain_nodes h c' (p ++ [k]) rest
          | _ => []
          end
      end
  end.

(** The tree of an instance as [_setDefaults] builds it.  [nodes] lists its
    plain objects, each with the path that leads to it from the root [t];
    [leaves] lists the paths that hold a value which is not a plain object,
    with that value.  The objects of the tree lie from address [n] on, the
    leaves point below [n], and that part of the store is closed. *)
Record tree_inv (n : nat) (h : heap) (t : loc)
    (nodes : list (loc * list string))
    (leaves : list (list string * value)) : Prop := {
  ti_wf : wf_heap h;
  ti_closed : closed_below n h;
  ti_root : (t, []) ∈ nodes;
  ti_nodup : NoDup nodes.*1;
  ti_node : ∀ l p, (l, p) ∈ nodes →
    (n ≤ l)%nat ∧ resolve h p (VRef t) = VRef l ∧
    ∃ ps, h !! l = Some (Cell KObject ps) ∧
      ∀ k x, assoc k ps = Some x →
        if isObject h x
        then ∃ l', x = VRef l' ∧ (l', p ++ [k]) ∈ nodes
        else below n x ∧ (p ++ [k], x) ∈ leaves;
  ti_inner : ∀ l p, (l, p) ∈ nodes → p ≠ [] →
    ∃ q v, (q, v) ∈ leaves ∧ p `prefix_of` q ∧ p ≠ q;
  ti_leaf : ∀ q v, (q, v) ∈ leaves →
    resolve h q (VRef t) = v ∧ v ≠ VUndef ∧ isObject h v = false
    ∧ below n v;
}.

(** The plain object that [segs] leads to from the object [t], when every
    step of the path holds a plain object. *)
Fixpoint object_at (h : heap) (t : loc) (segs : list string) : option loc :=
  match segs with
  | [] => Some t
  | k :: rest =>
      match get_prop h (VRef t) k with
      | VRef t' => if isObject h (VRef t') then object_at h t' rest else None
      | _ => None
      end
  end.

(** ** A concrete environment and concrete states, for the examples *)

(** Function [0] returns [undefined]; function [1] adds one to a number;
    every other function raises.  [JSON.parse] accepts nothing,
    [camelcaseKeys] rejects everything, [ToString] always throws, and the
    string conversions of [Number] and [parseFloat] are stood for by that of
    [parseInt]: the examples do not call them. *)
Definition sample_env : Env := {|
  call := λ f h args,
    match f, args with
    | O, _ => Some (h, VUndef)
    | 1%nat, VNum (Fin q) :: _ => Some (h, VNum (Fin (q + Q2Qc 1)))
    | _, _ => None
    end;
  ToString := λ h v, None;
  StringToNumber := parseInt_string;
  ObjectToNumber := λ h v, Some NaN;
  parseFloat_string := parseInt_string;
  JSON_parse := λ h s, None;
  camelcaseKeys := λ h v, None;
|}.

(** [new State()]: an empty tree in an empty store. *)
Definition empty_heap : heap := [Cell KObject []].
Definition empty_state : State := MkState (VRef 0%nat) [] [] 0.

(** An instance with one subscription, on [name], calling [callback]. *)
Definition watching (name : string) (callback : nat) : State :=
  (State_subscribe empty_state name callback).1.

(** A registry with a record at ["a"] and another at ["a.b"]. *)
Definition ab_registry : list (string * rule) :=
  [("a", Rule (Some (VInt 2)) None None None None);
   ("a.b", Rule (Some (VInt 1)) None None None None)].

(** The tree [{ a: { b: 1 } }] and, apart from it, an object [{ c: 2 }] at
    address [2]. *)
Definition merge_heap : heap :=
  [Cell KObject [("a", VRef 1%nat)];
   Cell KObject [("b", VInt 1)];
   Cell KObject [("c", VInt 2)]].

(** The tree [{ a: [7] }]. *)
Definition array_heap : heap :=
  [Cell KObject [("a", VRef 1%nat)]; Cell KArray [("0", VInt 7)]].

(** The tree [{ a: o, b: o }] for one and the same object [o = {}]. *)
Definition shared_heap : heap :=
  [Cell KObject [("a", VRef 1%nat); ("b", VRef 1%nat)]; Cell KObject []].

(** The tree [{ a: { b: 0 }, c: 5 }]. *)
Definition two_branch_heap : heap :=
  [Cell KObject [("a", VRef 1%nat); ("c", VInt 5)];
   Cell KObject [("b", VInt 0)]].

(** An empty tree and, apart from it, the map [{ a: 1, b: 2 }] at address
    [1]. *)
Definition batch_heap : heap :=
  [Cell KObject []; Cell KObject [("a", VInt 1); ("b", VInt 2)]].

(** An instance whose path ["a"] has type ['json'], and one whose path ["a"]
    has type ['custom'] with function [2], which raises in [sample_env]. *)
Definition json_state : State :=
  MkState (VRef 0%nat) [("a", Rule None (Some "json") None None None)] [] 0.

Definition custom_state : State :=
  MkState (VRef 0%nat)
          [("a", Rule None (Some "custom") (Some 2%nat) None None)] [] 0.

(** The objects [{ a: 1, b: 2 }] and [{ b: 3, c: [] }], and the array. *)
Definition assign_heap : heap :=
  [Cell KObject [("a", VInt 1); ("b", VInt 2)];
   Cell KObject [("b", VInt 3); ("c", VRef 2%nat)];
   Cell KArray []].
(** ** Facts about paths *)

Lemma split_dot_nonempty s : split_dot s ≠ [].
Proof.
  destruct s as [|c s]; simpl; [done|].
  destruct (Ascii.eqb c "."%char); [done|].
  destruct (split_dot s); done.
Qed.

Lemma indexOf_spec master v from :
  match list_find (λ x, x = v) (drop from master) with
  | Some (k, _) => indexOf master v from = Z.of_nat (from + k)
  | None => indexOf master v from = -1
  end.
Proof. unfold indexOf. destruct (list_find _ _) as [[k x]|]; done. Qed.

(** Greedy matching is complete: a list starting with [v] is a subsequence of
    [l] exactly when its tail is a subsequence of what follows the first
    occurrence of [v]. *)
Lemma sublist_cons_find (v : string) rest l :
  sublist (v :: rest) l ↔
  ∃ k, list_find (λ x, x = v) l = Some (k, v) ∧ sublist rest (drop (S k) l).
Proof.
  split.
  - revert rest. induction l as [|a l IH]; intros rest H.
    + by apply sublist_nil_r in H.
    + destruct (decide (a = v)) as [->|Hne].
      * exists 0%nat. split.
        { simpl. rewrite decide_True by done. done. }
        simpl. rewrite drop_0.
        apply sublist_cons_r in H as [H|(l' & Heq & H)].
        -- etrans; [|exact H]. by apply sublist_cons.
        -- by simplify_eq.
      * apply sublist_cons_r in H as [H|(l' & Heq & H)]; [|congruence].
        destruct (IH _ H) as (k & Hf & Hs).
        exists (S k). split; [|done].
        simpl. rewrite decide_False by done. rewrite Hf. done.
  - intros (k & Hf & Hs).
    apply list_find_Some in Hf as (Hk & _ & _).
    rewrite <- (take_drop_middle l k v Hk).
    apply sublist_inserts_l. by apply sublist_skip.
Qed.

Lemma every_from_sublist master sub (i : nat) :
  every_from master sub (Z.of_nat i) = true ↔ sublist sub (drop i master).
Proof.
  revert i. induction sub as [|v rest IH]; intros i; simpl.
  - split; [intros _; apply sublist_nil_l | done].
  - rewrite Nat2Z.id.
    pose proof (indexOf_spec master v i) as Hs.
    destruct (list_find (λ x, x = v) (drop i master)) as [[k x]|] eqn:Hf.
    + assert (x = v) as -> by (by apply list_find_Some in Hf as (_ & ? & _)).
      rewrite Hs.
      replace (Z.of_nat (i + k) + 1) with (Z.of_nat (S (i + k))) by lia.
      destruct (Z.eqb_spec (Z.of_nat (S (i + k))) 0) as [?|_]; [lia|].
      rewrite IH, sublist_cons_find. split.
      * intros H. exists k. split; [done|].
        rewrite drop_drop. by replace (i + S k)%nat with (S (i + k)) by lia.
      * intros (k' & Hf' & H). rewrite Hf in Hf'. simplify_eq.
        rewrite drop_drop in H.
        by replace (i + S k')%nat with (S (i + k')) in H by lia.
    + rewrite Hs. simpl. split; [done|].
      intros H. apply sublist_cons_find in H as (k & Hf' & _). congruence.
Qed.

(** [_hasSubArray master sub] holds exactly when [sub] is an ordered
    subsequence of [master]; it need be neither initial nor contiguous. *)
Lemma hasSubArray_sublist master sub :
  _hasSubArray master sub = true ↔ sublist sub master.
Proof. unfold _hasSubArray. by rewrite (every_from_sublist master sub 0). Qed.


(** ** Options registry *)

Lemma no_dot_cons c x :
  no_dot (String c x) → Ascii.eqb c "."%char = false ∧ no_dot x.
Proof.
  unfold no_dot. simpl. destruct (Ascii.eqb c "."%char); [done|].
  destruct (split_dot x) as [|x1 xs] eqn:Hx; [by destruct (split_dot_nonempty x)|].
  intros H. by simplify_eq.
Qed.

Lemma split_dot_append x rest :
  no_dot x → split_dot (x +:+ "." +:+ rest) = x :: split_dot rest.
Proof.
  induction x as [|c x IH]; intros Hx; [done|].
  apply no_dot_cons in Hx as [Hc Hx].
  simpl. rewrite Hc. change (split_dot (x +:+ "." +:+ rest)) with
    (split_dot (x +:+ "." +:+ rest)).
  by rewrite (IH Hx).
Qed.

Lemma split_dot_no_dot s : Forall no_dot (split_dot s).
Proof.
  induction s as [|c s IH]; simpl.
  - by repeat constructor.
  - destruct (Ascii.eqb c "."%char) eqn:Hc.
    + constructor; [done|exact IH].
    + destruct (split_dot s) as [|x xs] eqn:Hs;
        [by destruct (split_dot_nonempty s)|].
      inversion IH as [|? ? Hx Hxs]; subst. constructor; [|done].
      unfold no_dot in *. simpl. by rewrite Hc, Hx.
Qed.

Lemma split_join parts :
  parts ≠ [] → Forall no_dot parts → split_dot (join_dot parts) = parts.
Proof.
  induction parts as [|x xs IH]; [done|]. intros _ H.
  inversion H as [|? ? Hx Hxs]; subst.
  destruct xs as [|y ys]; [exact Hx|].
  change (join_dot (x :: y :: ys)) with (x +:+ "." +:+ join_dot (y :: ys)).
  rewrite split_dot_append by done. f_equal. by apply IH.
Qed.

Lemma assoc_assoc_set {A} k k' (v : A) ps :
  assoc k (assoc_set k' v ps) = if String.eqb k k' then Some v else assoc k ps.
Proof.
  induction ps as [|[k0 v0] ps IH]; simpl.
  - done.
  - destruct (String.eqb_spec k' k0) as [->|Hne]; simpl.
    + by destruct (String.eqb k k0).
    + destruct (String.eqb_spec k k0) as [->|?].
      * destruct (String.eqb_spec k0 k'); [congruence|done].
      * exact IH.
Qed.

Lemma assoc_None_keys {A} k (ps : list (string * A)) :
  assoc k ps = None ↔ k ∉ ps.*1.
Proof.
  induction ps as [|[k0 v0] ps IH]; simpl.
  - split; [intros _; apply not_elem_of_nil|done].
  - rewrite not_elem_of_cons. destruct (String.eqb_spec k k0) as [->|?].
    + split; [done|]. by intros [? _].
    + rewrite IH. naive_solver.
Qed.

(** The table handed to [_findOptionsByName]: the registry restricted to a
    list of its keys. *)
Lemma assoc_restrict (registry : list (string * rule)) ks acc k :
  assoc k (foldl (λ list current,
                    match assoc current registry with
                    | Some r => assoc_set current r list
                    | None => list
                    end) acc ks)
  = if bool_decide (k ∈ ks)
    then match assoc k registry with Some r => Some r | None => assoc k acc end
    else assoc k acc.
Proof.
  revert acc. induction ks as [|c ks IH]; intros acc.
  - case_bool_decide as H; [by apply elem_of_nil in H|done].
  - cbn [foldl]. rewrite IH. destruct (decide (k = c)) as [->|Hne].
    + rewrite (bool_decide_eq_true_2 (c ∈ c :: ks)) by left.
      destruct (assoc c registry) as [r|] eqn:Hr.
      * rewrite assoc_assoc_set, String.eqb_refl. by case_bool_decide.
      * by case_bool_decide.
    + assert (assoc k (match assoc c registry with
                       | Some r => assoc_set c r acc | None => acc end)
              = assoc k acc) as ->.
      { destruct (assoc c registry); [|done].
        rewrite assoc_assoc_set.
        by destruct (String.eqb_spec k c). }
      assert (bool_decide (k ∈ c :: ks) = bool_decide (k ∈ ks)) as ->; [|done].
      apply bool_decide_ext. rewrite elem_of_cons. naive_solver.
Qed.

Lemma candidate_names_spec registry name p :
  p ∈ candidate_names registry name ↔
  p ∈ registry.*1 ∧
  (name = "" ∨ p = "" ∨ sublist (split_dot p) (split_dot name)).
Proof.
  unfold candidate_names, option_candidate, str_truthy.
  rewrite list_elem_of_filter, !orb_true_iff, !negb_true_iff.
  rewrite hasSubArray_sublist.
  destruct (String.eqb_spec name ""), (String.eqb_spec p ""); naive_solver.
Qed.

Lemma dotted_prefix_candidate name index :
  (1 ≤ index)%nat →
  option_candidate name (join_dot (take index (split_dot name))) = true.
Proof.
  intros Hi. unfold option_candidate.
  apply orb_true_iff. right. apply hasSubArray_sublist.
  rewrite split_join.
  - apply sublist_take.
  - pose proof (split_dot_nonempty name).
    destruct (split_dot name); [done|]. by destruct index; [lia|].
  - apply Forall_take, split_dot_no_dot.
Qed.

(** On the dotted prefixes of [name], the candidate table agrees with the
    registry. *)
Lemma assoc_candidates registry name index :
  (1 ≤ index)%nat →
  let p := join_dot (take index (split_dot name)) in
  assoc p
    (foldl (λ list current,
              match assoc current registry with
              | Some r => assoc_set current r list
              | None => list
              end) [] (candidate_names registry name))
  = assoc p registry.
Proof.
  intros Hi p. rewrite assoc_restrict. simpl.
  case_bool_decide as Hin; [by destruct (assoc p registry)|].
  symmetry. apply assoc_None_keys. intros Hk. apply Hin.
  unfold candidate_names. apply list_elem_of_filter. split; [|done].
  by apply dotted_prefix_candidate.
Qed.

Lemma foldl_last_omap {A B} (f : A → option B) (xs : list A) (acc : option B) :
  foldl (λ o x, match f x with Some r => Some r | None => o end) acc xs
  = match list.last (omap f xs) with Some r => Some r | None => acc end.
Proof.
  revert acc. induction xs as [|x xs IH]; intros acc; simpl; [done|].
  rewrite IH. destruct (f x) as [r|] eqn:Hf; simpl; [|done].
  change (list_omap A B f xs) with (omap f xs).
  destruct (omap f xs) as [|y ys] eqn:Hm; [done|].
  rewrite (last_cons r (y :: ys)). by destruct (list.last (y :: ys)).
Qed.

Lemma omap_map_ext {A B C} (F : A → option C) (G : B → option C)
    (H : A → B) (l : list A) :
  Forall (λ i, F i = G (H i)) l → omap F l = omap G (map H l).
Proof.
  induction 1 as [|x l Hx Hl IH]; [done|].
  cbn in *. rewrite Hx. by rewrite IH.
Qed.

Lemma getOptions_longest registry name :
  _getOptions registry name =
  match longest_registered_prefix registry name with
  | Some r => spread _defaultOptions r
  | None => _defaultOptions
  end.
Proof.
  unfold _getOptions, _findOptionsByName, longest_registered_prefix,
    dotted_prefixes.
  set (tbl := foldl _ [] (candidate_names registry name)).
  assert (foldl (λ options index,
             match assoc (join_dot (take index (split_dot name))) tbl with
             | Some r => Some r
             | None => options
             end) None (seq 1 (length (split_dot name)))
          = list.last (omap (λ p, assoc p registry)
                   (map (λ index, join_dot (take index (split_dot name)))
                        (seq 1 (length (split_dot name)))))) as ->; [|done].
  rewrite (foldl_last_omap
             (λ index, assoc (join_dot (take index (split_dot name))) tbl)).
  assert (omap (λ index, assoc (join_dot (take index (split_dot name))) tbl)
               (seq 1 (length (split_dot name)))
          = omap (λ p, assoc p registry)
              (map (λ index, join_dot (take index (split_dot name)))
                   (seq 1 (length (split_dot name))))) as ->.
  { apply omap_map_ext, list.Forall_forall. intros i Hi%elem_of_seq.
    unfold tbl. by rewrite (assoc_candidates registry name i) by lia. }
  by destruct (list.last _).
Qed.

Lemma last_omap_Some {A B} (f : A → option B) (xs : list A) (r : B) :
  list.last (omap f xs) = Some r ↔
  ∃ i x, xs !! i = Some x ∧ f x = Some r ∧
         ∀ j y, (i < j)%nat → xs !! j = Some y → f y = None.
Proof.
  induction xs as [|a xs IH] using rev_ind.
  - split; [done|]. by intros (i & x & ? & _).
  - rewrite omap_app. destruct (f a) as [b|] eqn:Hfa.
    + assert (omap f [a] = [b]) as -> by (cbn; by rewrite Hfa).
      rewrite last_snoc. split.
      * intros ?; simplify_eq. exists (length xs), a. split_and!.
        -- by rewrite list_lookup_middle.
        -- done.
        -- intros j y Hj Hy. apply lookup_lt_Some in Hy.
           rewrite length_app in Hy. simpl in Hy. lia.
      * intros (i & x & Hi & Hx & Hlt).
        destruct (decide (i = length xs)) as [->|Hne].
        -- rewrite list_lookup_middle in Hi by done. congruence.
        -- pose proof (lookup_lt_Some _ _ _ Hi) as Hlen.
           rewrite length_app in Hlen. simpl in Hlen.
           rewrite (Hlt (length xs) a) in Hfa; [done|lia|].
           by rewrite list_lookup_middle.
    + assert (omap f [a] = []) as -> by (cbn; by rewrite Hfa).
      rewrite app_nil_r, IH. split.
      * intros (i & x & Hi & Hx & Hlt). exists i, x. split_and!; [|done|].
        -- rewrite lookup_app_l; [done|]. by eapply lookup_lt_Some.
        -- intros j y Hj Hy.
           destruct (decide (j < length xs)%nat).
           ++ rewrite lookup_app_l in Hy by done. by eapply Hlt.
           ++ pose proof (lookup_lt_Some _ _ _ Hy) as Hlen.
              rewrite length_app in Hlen. simpl in Hlen.
              assert (j = length xs) as -> by lia.
              rewrite list_lookup_middle in Hy by done. congruence.
      * intros (i & x & Hi & Hx & Hlt).
        destruct (decide (i = length xs)) as [->|Hne].
        -- rewrite list_lookup_middle in Hi by done. congruence.
        -- pose proof (lookup_lt_Some _ _ _ Hi) as Hlen.
           rewrite length_app in Hlen. simpl in Hlen.
           rewrite lookup_app_l in Hi by lia.
           exists i, x. split_and!; [done..|].
           intros j y Hj Hy. apply (Hlt j); [done|].
           rewrite lookup_app_l; [done|]. by eapply lookup_lt_Some.
Qed.

(** What [longest_registered_prefix] picks: the record registered at the
    dotted prefix of [index] segments, where no longer dotted prefix is
    registered. *)
Lemma longest_registered_prefix_spec registry name r :
  longest_registered_prefix registry name = Some r ↔
  ∃ index, (1 ≤ index ≤ length (split_dot name))%nat ∧
    assoc (join_dot (take index (split_dot name))) registry = Some r ∧
    ∀ longer, (index < longer ≤ length (split_dot name))%nat →
      assoc (join_dot (take longer (split_dot name))) registry = None.
Proof.
  unfold longest_registered_prefix, dotted_prefixes.
  rewrite last_omap_Some. set (n := length (split_dot name)).
  set (pre := λ index, join_dot (take index (split_dot name))).
  split.
  - intros (i & x & Hi & Hx & Hlt).
    apply list_lookup_fmap_Some in Hi as (k & -> & Hk).
    apply lookup_seq in Hk as [-> Hk]. exists (1 + i)%nat.
    split; [lia|]. split; [done|]. intros longer Hl.
    apply (Hlt (longer - 1)%nat (pre longer)); [lia|].
    apply list_lookup_fmap_Some. exists longer. split; [done|].
    apply lookup_seq. lia.
  - intros (index & Hi & Hx & Hlt). exists (index - 1)%nat, (pre index).
    split; [|split; [done|]].
    + apply list_lookup_fmap_Some. exists index. split; [done|].
      apply lookup_seq. lia.
    + intros j y Hj Hy. apply list_lookup_fmap_Some in Hy as (k & -> & Hk).
      apply lookup_seq in Hk as [-> Hk]. apply Hlt. lia.
Qed.

(** C3, as stated, fails: a record registered at ["b"] is a candidate for the
    query ["a.b"], although ["b"] is not empty and its segments are not a
    prefix of those of the query. *)
Lemma C3_not_only_prefixes :
  "b" ∈ candidate_names [("b", no_rule)] "a.b"
  ∧ "b" ≠ ""
  ∧ ¬ (split_dot "b" `prefix_of` split_dot "a.b").
Proof.
  split_and!.
  - vm_compute. left.
  - done.
  - intros [k Hk]. vm_compute in Hk. discriminate.
Qed.

(** C3, amended: the candidate filter of [_getOptions] selects a registered
    path [p] for the query [name] exactly when the query is empty, or [p] is
    empty, or the segments of [p] are an ordered subsequence of the segments
    of the query (not necessarily initial, not necessarily contiguous). *)
Theorem C3_candidates_are_subsequences registry name p :
  p ∈ candidate_names registry name ↔
  p ∈ registry.*1 ∧
  (name = "" ∨ p = "" ∨ sublist (split_dot p) (split_dot name)).
Proof. apply candidate_names_spec. Qed.

(** C4: the effective record of a path is the whole record registered at its
    longest registered dotted prefix, laid over the built-in defaults, and
    the built-in defaults alone when no dotted prefix is registered; fields
    of records at shorter prefixes never show through.  (A dotted prefix is
    made of the first [index] segments of the path, for [1 ≤ index].)  With
    records at ["a"] and ["a.b"], [getDefaultValue('a.b')] is the default of
    the ["a.b"] record. *)
Theorem C4_longest_prefix_wins registry name :
  _getOptions registry name =
    match longest_registered_prefix registry name with
    | Some r => spread _defaultOptions r
    | None => _defaultOptions
    end
  ∧ (∀ r, longest_registered_prefix registry name = Some r ↔
       ∃ index, (1 ≤ index ≤ length (split_dot name))%nat ∧
         assoc (join_dot (take index (split_dot name))) registry = Some r ∧
         ∀ longer, (index < longer ≤ length (split_dot name))%nat →
           assoc (join_dot (take longer (split_dot name))) registry = None)
  ∧ (∀ ra rab,
       assoc "a" registry = Some ra → assoc "a.b" registry = Some rab →
       State_getDefaultValue (MkState VUndef registry [] 0) "a.b"
       = rule_default rab).
Proof.
  split_and!.
  - apply getOptions_longest.
  - apply longest_registered_prefix_spec.
  - intros ra rab Ha Hab.
    unfold State_getDefaultValue, _getDefaultValue. simpl.
    rewrite getOptions_longest.
    assert (longest_registered_prefix registry "a.b" = Some rab) as ->.
    { apply longest_registered_prefix_spec. exists 2%nat.
      split; [simpl; lia|]. split; [exact Hab|]. simpl. lia. }
    unfold rule_default. simpl. by destruct (defaultValue rab).
Qed.

(** The example of the tests: defaults [2] at ["a"] and [1] at ["a.b"]. *)
Lemma C4_witness :
  State_getDefaultValue (MkState VUndef ab_registry [] 0) "a.b" = VInt 1.
Proof.
  exact (proj2 (proj2 (C4_longest_prefix_wins ab_registry "a.b"))
           (Rule (Some (VInt 2)) None None None None)
           (Rule (Some (VInt 1)) None None None None) eq_refl eq_refl).
Defined.

(** ** Value transformer *)

Lemma strict_eq_spec a b :
  strict_eq a b = true ↔ a = b ∧ a ≠ VNum NaN.
Proof.
  unfold strict_eq.
  destruct a as [| | |[]| | |], b as [| | |[]| | |];
    try case_bool_decide; naive_solver.
Qed.

Lemma strict_eq_false a b :
  strict_eq a b = false ↔ a ≠ b ∨ a = VNum NaN.
Proof.
  rewrite <-not_true_iff_false, strict_eq_spec.
  destruct (decide (a = b)), (decide (a = VNum NaN)); naive_solver.
Qed.

Lemma filter_length_zero {A} (P : A → Prop) `{∀ x, Decision (P x)} (l : list A) :
  length (filter P l) = 0%nat ↔ ∀ a, a ∈ l → ¬ P a.
Proof.
  rewrite length_zero_iff_nil. split.
  - intros Hnil a Ha HP.
    assert (a ∈ filter P l) as Hin by (by apply list_elem_of_filter).
    rewrite Hnil in Hin. by apply elem_of_nil in Hin.
  - intros Hall. destruct (filter P l) as [|a l'] eqn:Hf; [done|].
    assert (a ∈ filter P l) as [HP Hin]%list_elem_of_filter
      by (rewrite Hf; left).
    by destruct (Hall a Hin).
Qed.

Lemma allow_filter_rejected v r allowed :
  allowedValues r = Some allowed →
  (∀ a, a ∈ allowed → strict_eq v a = false) →
  allow_filter v r =
    if negb (strict_eq (rule_default r) VUndef) then rule_default r else VNull.
Proof.
  intros Ha Hall. unfold allow_filter. rewrite Ha.
  rewrite bool_decide_eq_true_2; [done|].
  apply filter_length_zero. intros a Hin. rewrite (Hall a Hin). done.
Qed.

Lemma allow_filter_member v r allowed a :
  allowedValues r = Some allowed → a ∈ allowed → strict_eq v a = true →
  allow_filter v r = v.
Proof.
  intros Ha Hin Heq. unfold allow_filter. rewrite Ha.
  rewrite bool_decide_eq_false_2; [done|].
  rewrite filter_length_zero. intros Hall. by apply (Hall a Hin).
Qed.

Lemma allow_filter_absent v r : allowedValues r = None → allow_filter v r = v.
Proof. intros Ha. unfold allow_filter. by rewrite Ha. Qed.

Lemma toBoolean_false v :
  _toBoolean v = false ↔
  v = VUndef ∨ v = VNull ∨ v = VBool false ∨ v = VStr "false".
Proof.
  unfold _toBoolean.
  rewrite !andb_false_iff, !negb_false_iff, !strict_eq_spec. naive_solver.
Qed.

(** C6, as stated, fails: with an empty [allowedValues] array the value is
    not stored unchanged, it is replaced by [null]. *)
Lemma C6_empty_allow_list_rejects :
  _transformValue sample_env [] (VStr "x") VUndef
    (Rule None None None (Some []) None) = Ok ([], VNull)
  ∧ VNull ≠ VStr "x".
Proof. split; [reflexivity|done]. Qed.

(** C6, amended: for every record and input, of every type: when
    [allowedValues] is present (empty or not) and the coerced value is
    strictly equal ([===]) to none of its members, the result is the record's
    [defaultValue] when that is not [undefined], and [null] otherwise; when
    [allowedValues] is absent, or the coerced value is strictly equal to a
    member, the coerced value is the result. *)
Theorem C6_allow_list E h v oldValue r h1 v1 :
  coerce E h v oldValue r = Ok (h1, v1) →
  (∀ allowed,
     allowedValues r = Some allowed →
     (∀ a, a ∈ allowed → strict_eq v1 a = false) →
     _transformValue E h v oldValue r =
       Ok (h1, if negb (strict_eq (rule_default r) VUndef)
               then rule_default r else VNull))
  ∧ (allowedValues r = None
     ∨ (∃ allowed a, allowedValues r = Some allowed ∧ a ∈ allowed
                     ∧ strict_eq v1 a = true) →
     _transformValue E h v oldValue r = Ok (h1, v1)).
Proof.
  intros Hc. unfold _transformValue. rewrite Hc. simpl. split.
  - intros allowed Ha Hall. by rewrite (allow_filter_rejected _ _ _ Ha Hall).
  - intros [Ha|(allowed & a & Ha & Hin & Heq)].
    + by rewrite allow_filter_absent.
    + by rewrite (allow_filter_member _ _ _ _ Ha Hin Heq).
Qed.

(** The allow-list example of the tests: ["dolor"] is rejected, ["ipsum"]
    is kept. *)
Lemma C6_witness :
  _transformValue sample_env [] (VStr "dolor") VUndef
    (Rule None None None (Some [VStr "lorem"; VStr "ipsum"]) None)
    = Ok ([], VNull)
  ∧ _transformValue sample_env [] (VStr "ipsum") VUndef
      (Rule None None None (Some [VStr "lorem"; VStr "ipsum"]) None)
    = Ok ([], VStr "ipsum").
Proof.
  split.
  - apply (proj1 (C6_allow_list sample_env [] (VStr "dolor") VUndef
                    (Rule None None None (Some [VStr "lorem"; VStr "ipsum"]) None)
                    [] (VStr "dolor") eq_refl)
             [VStr "lorem"; VStr "ipsum"] eq_refl).
    intros a Ha. apply strict_eq_false. left.
    apply elem_of_cons in Ha as [->|Ha]; [done|].
    apply elem_of_cons in Ha as [->|Ha]; [done|].
    by apply elem_of_nil in Ha.
  - apply (proj2 (C6_allow_list sample_env [] (VStr "ipsum") VUndef
                    (Rule None None None (Some [VStr "lorem"; VStr "ipsum"]) None)
                    [] (VStr "ipsum") eq_refl)).
    right. exists [VStr "lorem"; VStr "ipsum"], (VStr "ipsum").
    split_and!; [done| |done]. right. left.
Defined.

(** C7: under type ['integer'] the input ["1.2"] becomes [1] and the
    non-numeric input ["test"] becomes [0]; under type ['boolean'] the result
    is [false] exactly for [undefined], [null], [false] and the string
    ["false"], and [true] for every other input, the string ["0"]
    included. *)
Theorem C7_coercion_table E h oldValue r :
  allowedValues r = None →
  (type r = Some "integer" →
     _transformValue E h (VStr "1.2") oldValue r = Ok (h, VInt 1)
     ∧ _transformValue E h (VStr "test") oldValue r = Ok (h, VInt 0))
  ∧ (type r = Some "boolean" →
     (∀ v, ∃ b, _transformValue E h v oldValue r = Ok (h, VBool b)
                ∧ (b = false ↔
                   v = VUndef ∨ v = VNull ∨ v = VBool false ∨ v = VStr "false"))
     ∧ _transformValue E h (VStr "0") oldValue r = Ok (h, VBool true)).
Proof.
  intros Ha. split.
  - intros Ht. unfold _transformValue, coerce. rewrite Ht.
    split; cbn [parseInt mbind res_bind]; by rewrite allow_filter_absent.
  - intros Ht. unfold _transformValue, coerce. rewrite Ht.
    cbn [mbind res_bind]. split.
    + intros v. exists (_toBoolean v).
      rewrite allow_filter_absent by done. split; [done|].
      apply toBoolean_false.
    + by rewrite allow_filter_absent.
Qed.

(** The coercions of ["1.2"] to an integer and of ["0"] to a boolean. *)
Lemma C7_witness :
  _transformValue sample_env [] (VStr "1.2") VUndef
    (Rule None (Some "integer") None None None) = Ok ([], VInt 1)
  ∧ _transformValue sample_env [] (VStr "0") VUndef
      (Rule None (Some "boolean") None None None) = Ok ([], VBool true).
Proof.
  split.
  - exact (proj1 (proj1 (C7_coercion_table sample_env [] VUndef
                    (Rule None (Some "integer") None None None) eq_refl)
                    eq_refl)).
  - exact (proj2 (proj2 (C7_coercion_table sample_env [] VUndef
                    (Rule None (Some "boolean") None None None) eq_refl)
                    eq_refl)).
Defined.

(** ** The store *)

Lemma isObject_ref h v : isObject h v = true → ∃ l, v = VRef l ∧ (l < length h)%nat.
Proof.
  destruct v as [| | | | |l|]; try done. simpl.
  destruct (h !! l) eqn:Hl; [|done]. intros _. exists l. split; [done|].
  by eapply lookup_lt_Some.
Qed.

Lemma isObject_cell h l :
  isObject h (VRef l) = true ↔ ∃ ps, h !! l = Some (Cell KObject ps).
Proof.
  simpl. destruct (h !! l) as [[kd ps]|]; simpl.
  - case_bool_decide; naive_solver.
  - naive_solver.
Qed.

Lemma set_prop_length h t k v : length (set_prop h t k v) = length h.
Proof.
  destruct t as [| | | | |l|]; try done. unfold set_prop.
  destruct (h !! l); [|done]. by rewrite length_insert.
Qed.

Lemma isObject_set_prop h t k v x :
  isObject (set_prop h t k v) x = isObject h x.
Proof.
  destruct x as [| | | | |l'|]; try done.
  destruct t as [| | | | |l|]; try done. unfold set_prop, isObject.
  destruct (h !! l) as [c|] eqn:Hl; [|done].
  destruct (decide (l' = l)) as [->|Hne].
  - rewrite list_lookup_insert_eq by (by eapply lookup_lt_Some).
    by rewrite Hl.
  - by rewrite list_lookup_insert_ne.
Qed.

Lemma get_prop_set_prop_eq h l ps k v :
  h !! l = Some (Cell KObject ps) →
  get_prop (set_prop h (VRef l) k v) (VRef l) k = v.
Proof.
  intros Hl. unfold set_prop, get_prop. rewrite Hl.
  rewrite list_lookup_insert_eq by (by eapply lookup_lt_Some).
  cbn [kind props]. by rewrite assoc_assoc_set, String.eqb_refl.
Qed.

Lemma get_prop_set_prop_ne h l ps k v item k' :
  h !! l = Some (Cell KObject ps) →
  item ≠ VRef l ∨ k' ≠ k →
  get_prop (set_prop h (VRef l) k v) item k' = get_prop h item k'.
Proof.
  intros Hl Hne. destruct item as [| | | | |l'|]; try done.
  unfold set_prop, get_prop. rewrite Hl.
  destruct (decide (l' = l)) as [->|Hl'].
  - destruct Hne as [?|Hk]; [done|].
    rewrite list_lookup_insert_eq by (by eapply lookup_lt_Some).
    rewrite Hl. cbn [kind props]. rewrite assoc_assoc_set.
    by destruct (String.eqb_spec k' k).
  - by rewrite list_lookup_insert_ne.
Qed.

Lemma set_prop_same h l k v :
  h !! l = Some (Cell KObject [(k, v)]) → set_prop h (VRef l) k v = h.
Proof.
  intros Hl. unfold set_prop. rewrite Hl. cbn [kind props assoc_set].
  rewrite String.eqb_refl. by apply list_insert_id.
Qed.

Lemma lookup_set_prop_ne h t k v l :
  t ≠ VRef l → set_prop h t k v !! l = h !! l.
Proof.
  intros Hne. destruct t as [| | | | |l'|]; try done. unfold set_prop.
  destruct (h !! l') eqn:Hl'; [|done].
  apply list_lookup_insert_ne. congruence.
Qed.

(** *** Patches *)

Lemma is_chain_last h n c k w :
  is_chain h n c [k] w ↔
  (n ≤ c)%nat ∧ h !! c = Some (Cell KObject [(k, w)]).
Proof. done. Qed.

Lemma is_chain_cons h n c k k2 rest w :
  is_chain h n c (k :: k2 :: rest) w ↔
  (n ≤ c)%nat ∧ ∃ c', h !! c = Some (Cell KObject [(k, VRef c')])
                      ∧ is_chain h n c' (k2 :: rest) w.
Proof. done. Qed.

Lemma is_chain_ge h n c segs w : is_chain h n c segs w → (n ≤ c)%nat.
Proof. destruct segs; simpl; [done|]. by intros [? _]. Qed.

Lemma is_chain_isObject h n c segs w :
  is_chain h n c segs w → isObject h (VRef c) = true.
Proof.
  destruct segs as [|k rest]; simpl; [done|]. intros [_ H].
  apply isObject_cell. destruct rest; [by eexists|].
  destruct H as (c' & Hc & _). by eexists.
Qed.

Lemma is_chain_ext h n c segs w h' :
  (∀ l, (n ≤ l)%nat → l < length h → h' !! l = h !! l)%nat →
  is_chain h n c segs w → is_chain h' n c segs w.
Proof.
  intros Hh. revert c. induction segs as [|k rest IH]; intros c; [done|].
  simpl. intros [Hn H]. split; [done|].
  destruct rest as [|k2 rest].
  - rewrite Hh; [done..|]. by eapply lookup_lt_Some.
  - destruct H as (c' & Hc & Hch). exists c'. split.
    + rewrite Hh; [done..|]. by eapply lookup_lt_Some.
    + by apply IH.
Qed.

Lemma is_chain_set_prop h n c segs w t k v :
  (t < n)%nat →
  is_chain h n c segs w → is_chain (set_prop h (VRef t) k v) n c segs w.
Proof.
  intros Ht. apply is_chain_ext. intros l Hl _.
  apply lookup_set_prop_ne. intros [= ->]. lia.
Qed.

Lemma is_chain_app h n c segs w ext :
  is_chain h n c segs w → is_chain (h ++ ext) n c segs w.
Proof.
  apply is_chain_ext. intros l _ Hl. by apply lookup_app_l.
Qed.

Lemma encodePatch_spec h segs w :
  segs ≠ [] →
  ∃ ext c, encodePatch h segs w = (h ++ ext, VRef c)
           ∧ is_chain (h ++ ext) (length h) c segs w.
Proof.
  induction segs as [|k rest IH]; [done|]. intros _.
  destruct rest as [|k2 rest].
  - exists [Cell KObject [(k, w)]], (length h). split; [done|].
    simpl. split; [done|]. by rewrite list_lookup_middle.
  - destruct IH as (ext & c & Henc & Hch); [done|].
    exists (ext ++ [Cell KObject [(k, VRef c)]]), (length (h ++ ext)).
    split.
    + change (encodePatch h (k :: k2 :: rest) w) with
        (let '(h1, inner) := encodePatch h (k2 :: rest) w in
         alloc_singleton h1 k inner).
      rewrite Henc. unfold alloc_singleton. by rewrite <-app_assoc.
    + apply is_chain_cons. split; [rewrite length_app; lia|].
      exists c. rewrite app_assoc. split.
      * by rewrite list_lookup_middle.
      * by apply is_chain_app.
Qed.

Lemma resolve_cons h k rest item :
  resolve h (k :: rest) item =
  resolve h rest (if truthy item then get_prop h item k else VUndef).
Proof. done. Qed.

Lemma get_prop_cell h c ps k :
  h !! c = Some (Cell KObject ps) →
  get_prop h (VRef c) k = default VUndef (assoc k ps).
Proof. intros Hc. unfold get_prop. by rewrite Hc. Qed.

Lemma own_keys_cell h c kd ps :
  h !! c = Some (Cell kd ps) → own_keys h (VRef c) = ps.*1.
Proof. intros Hc. unfold own_keys, own_entries. by rewrite Hc. Qed.

(** The head of a patch: its only key, and what it holds. *)
Lemma chain_head h n c k rest w :
  is_chain h n c (k :: rest) w →
  own_keys h (VRef c) = [k] ∧
  match rest with
  | [] => get_prop h (VRef c) k = w
  | _ => ∃ c', get_prop h (VRef c) k = VRef c' ∧ is_chain h n c' rest w
  end.
Proof.
  destruct rest as [|k2 rest].
  - intros [_ Hc]%is_chain_last.
    rewrite (own_keys_cell _ _ _ _ Hc), (get_prop_cell _ _ _ _ Hc).
    cbn. by rewrite String.eqb_refl.
  - intros [_ (c' & Hc & Hch)]%is_chain_cons.
    rewrite (own_keys_cell _ _ _ _ Hc). split; [done|]. exists c'.
    rewrite (get_prop_cell _ _ _ _ Hc). cbn. by rewrite String.eqb_refl.
Qed.

(** Reading along a patch gives the value it was built for. *)
Lemma resolve_chain h n c segs w :
  is_chain h n c segs w → resolve h segs (VRef c) = w.
Proof.
  revert c. induction segs as [|k rest IH]; intros c Hch; [done|].
  rewrite resolve_cons. cbn [truthy].
  destruct (chain_head _ _ _ _ _ _ Hch) as [_ Hhead].
  destruct rest as [|k2 rest].
  - by rewrite Hhead.
  - destruct Hhead as (c' & -> & Hch'). by apply IH.
Qed.

(** *** Merging a patch *)

Lemma forEach_one {A S} (f : S → A → res S) x s :
  forEach f [x] s = f s x.
Proof. simpl. by destruct (f s x). Qed.

(** Merging a patch into itself changes nothing. *)
Lemma self_merge_chain h n c segs w fuel :
  is_chain h n c segs w → isObject h w = false →
  (length segs ≤ fuel)%nat →
  deepMerge fuel h (VRef c) (VRef c) = Ok h.
Proof.
  intros Hch Hw. revert c fuel Hch.
  induction segs as [|k rest IH]; intros c fuel Hch Hf; [done|].
  destruct fuel as [|fuel]; [simpl in Hf; lia|].
  cbn [deepMerge]. rewrite (is_chain_isObject _ _ _ _ _ Hch). cbn [andb].
  destruct (chain_head _ _ _ _ _ _ Hch) as [-> Hhead].
  rewrite forEach_one. unfold merge_key.
  destruct rest as [|k2 rest].
  - rewrite Hhead, Hw. f_equal. apply set_prop_same.
    by apply is_chain_last in Hch as [_ ?].
  - destruct Hhead as (c' & Hg & Hch'). rewrite !Hg.
    rewrite (is_chain_isObject _ _ _ _ _ Hch'). cbn [truthy negb orb].
    rewrite !Hg. apply IH; [done|simpl in *; lia].
Qed.

Lemma descend_last h t k : descend h t [k] = (t, [k]).
Proof. done. Qed.

Lemma descend_step h t k k2 rest t' :
  get_prop h (VRef t) k = VRef t' → isObject h (VRef t') = true →
  descend h t (k :: k2 :: rest) = descend h t' (k2 :: rest).
Proof. intros Hg Ho. cbn [descend]. by rewrite Hg, Ho. Qed.

Lemma descend_stop h t k k2 rest :
  isObject h (get_prop h (VRef t) k) = false →
  descend h t (k :: k2 :: rest) = (t, k :: k2 :: rest).
Proof.
  intros Ho. cbn [descend].
  destruct (get_prop h (VRef t) k); try done. by rewrite Ho.
Qed.

Lemma spine_step h t k k2 rest t' :
  get_prop h (VRef t) k = VRef t' → isObject h (VRef t') = true →
  spine h t (k :: k2 :: rest) = t :: spine h t' (k2 :: rest).
Proof. intros Hg Ho. cbn [spine]. by rewrite Hg, Ho. Qed.

Lemma closed_below_step n h t k t' :
  closed_below n h → (t < n)%nat → isObject h (VRef t) = true →
  get_prop h (VRef t) k = VRef t' → (t' < n)%nat.
Proof.
  intros Hcl Ht [ps Hc]%isObject_cell Hg.
  rewrite (get_prop_cell _ _ _ _ Hc) in Hg.
  destruct (assoc k ps) as [v|] eqn:Ha; [|done]. simpl in Hg. subst v.
  by eapply (Hcl t _ k t' Ht Hc).
Qed.

(** Merging a patch for [segs] and a value that is not a plain object into
    the object [t] is a single assignment, at the place [descend] finds. *)
Lemma merge_chain h n segs w :
  isObject h w = false → closed_below n h →
  ∀ t c fuel,
    is_chain h n c segs w → (t < n)%nat → isObject h (VRef t) = true →
    (length segs ≤ fuel)%nat →
    ∃ t' k rest c',
      descend h t segs = (t', k :: rest)
      ∧ is_chain h n c' (k :: rest) w
      ∧ (t' < n)%nat ∧ isObject h (VRef t') = true
      ∧ deepMerge fuel h (VRef t) (VRef c)
        = Ok (set_prop h (VRef t') k (get_prop h (VRef c') k)).
Proof.
  intros Hw Hcl. induction segs as [|k rest IH];
    intros t c fuel Hch Ht Hobj Hf; [done|].
  destruct fuel as [|fuel]; [simpl in Hf; lia|].
  cbn [deepMerge]. rewrite Hobj, (is_chain_isObject _ _ _ _ _ Hch).
  cbn [andb].
  destruct (chain_head _ _ _ _ _ _ Hch) as [-> Hhead].
  rewrite forEach_one. unfold merge_key.
  destruct rest as [|k2 rest].
  - rewrite Hhead, Hw. exists t, k, [], c. by rewrite Hhead.
  - destruct Hhead as (c' & Hg & Hch'). rewrite !Hg.
    rewrite (is_chain_isObject _ _ _ _ _ Hch').
    destruct (isObject h (get_prop h (VRef t) k)) eqn:Htk.
    + destruct (isObject_ref _ _ Htk) as (t' & Ht' & _).
      rewrite Ht' in *. cbn [truthy negb orb]. rewrite Hg, Ht'.
      destruct (IH t' c' fuel) as (t'' & k' & rest' & c'' & Hd & ? & ? & ? & ?);
        [done|by eapply closed_below_step|done|simpl in *; lia|].
      exists t'', k', rest', c''.
      by rewrite (descend_step _ _ _ _ _ _ Ht' Htk).
    + rewrite orb_true_r.
      destruct (proj1 (isObject_cell _ _) Hobj) as [ps Hc].
      rewrite (get_prop_set_prop_eq _ _ _ _ _ Hc).
      rewrite (get_prop_set_prop_ne _ _ _ _ _ (VRef c) k Hc), Hg.
      2:{ left. intros [= ->]. apply is_chain_ge in Hch. lia. }
      rewrite (self_merge_chain _ n c' (k2 :: rest) w).
      * exists t, k, (k2 :: rest), c.
        by rewrite (descend_stop _ _ _ _ _ Htk), Hg.
      * by apply is_chain_set_prop.
      * by rewrite isObject_set_prop.
      * simpl in *. lia.
Qed.

Lemma descend_in_spine h t segs :
  (descend h t segs).1 ∈ spine h t segs.
Proof.
  revert t. induction segs as [|k rest IH]; intros t; [left|].
  destruct rest as [|k2 rest]; [left|].
  cbn [descend spine].
  destruct (get_prop h (VRef t) k) as [| | | | |t1|]; try left.
  destruct (isObject h (VRef t1)); [|left]. right. apply IH.
Qed.

(** After the assignment, reading the written path gives the value
    written, provided no object of the branch is met twice on the way. *)
Lemma resolve_written h n segs w :
  ∀ t t' k rest c',
    (t' < n)%nat → isObject h (VRef t') = true →
    NoDup (spine h t segs) →
    descend h t segs = (t', k :: rest) →
    is_chain h n c' (k :: rest) w →
    resolve (set_prop h (VRef t') k (get_prop h (VRef c') k)) segs (VRef t) = w.
Proof.
  induction segs as [|k0 rest0 IH]; intros t t' k rest c' Ht' Hobj' Hnd Hd Hch.
  { discriminate Hd. }
  destruct (proj1 (isObject_cell _ _) Hobj') as [ps' Hc'].
  assert (∀ t0 k1 rest1,
    (t0, k0 :: k1 :: rest1) = (t', k :: rest) →
    resolve (set_prop h (VRef t') k (get_prop h (VRef c') k))
      (k0 :: k1 :: rest1) (VRef t0) = w) as Hstop.
  { intros t0 k1 rest1 [= -> -> <-].
    rewrite resolve_cons. cbn [truthy].
    rewrite (get_prop_set_prop_eq _ _ _ _ _ Hc').
    destruct (chain_head _ _ _ _ _ _ Hch) as [_ (c2 & -> & Hch2)].
    apply (resolve_chain _ n). by apply is_chain_set_prop. }
  destruct rest0 as [|k2 rest0].
  - rewrite descend_last in Hd. simplify_eq.
    rewrite resolve_cons. cbn [truthy resolve foldl].
    rewrite (get_prop_set_prop_eq _ _ _ _ _ Hc').
    by destruct (chain_head _ _ _ _ _ _ Hch) as [_ ->].
  - destruct (isObject h (get_prop h (VRef t) k0)) eqn:Htk.
    + destruct (isObject_ref _ _ Htk) as (t1 & Ht1 & _). rewrite Ht1 in Htk.
      rewrite (descend_step _ _ _ _ _ _ Ht1 Htk) in Hd.
      rewrite (spine_step _ _ _ _ _ _ Ht1 Htk) in Hnd.
      apply list.NoDup_cons in Hnd as [Hnin Hnd].
      assert (t' ≠ t) as Hne.
      { intros ->. apply Hnin.
        pose proof (descend_in_spine h t1 (k2 :: rest0)) as Hin.
        by rewrite Hd in Hin. }
      rewrite resolve_cons. cbn [truthy].
      rewrite (get_prop_set_prop_ne _ _ _ _ _ (VRef t) k0 Hc'), Ht1
        by (left; congruence).
      by eapply IH.
    + rewrite (descend_stop _ _ _ _ _ Htk) in Hd. by apply Hstop.
Qed.

(** An assignment is not seen by a read that does not go through the slot
    assigned. *)
Lemma resolve_frame h t' ps k v segs item :
  h !! t' = Some (Cell KObject ps) →
  (t', k) ∉ reads h item segs →
  resolve (set_prop h (VRef t') k v) segs item = resolve h segs item.
Proof.
  intros Hc. revert item. induction segs as [|k0 rest IH]; intros item Hr;
    [done|].
  rewrite !resolve_cons. cbn [reads] in Hr.
  assert (get_prop (set_prop h (VRef t') k v) item k0 = get_prop h item k0)
    as ->.
  { apply (get_prop_set_prop_ne _ _ _ _ _ _ _ Hc).
    destruct item as [| | | | |l|]; try (by left).
    apply not_elem_of_cons in Hr as [Hne _].
    destruct (decide (l = t')) as [->|?]; [right|left]; congruence. }
  apply IH. destruct item; try done. by apply not_elem_of_cons in Hr as [_ ?].
Qed.

(** *** Allocation leaves the old objects alone *)

Lemma get_prop_app h ext item k :
  valid h item → get_prop (h ++ ext) item k = get_prop h item k.
Proof.
  destruct item as [| | | | |l|]; try done. simpl. intros Hl.
  by rewrite lookup_app_l.
Qed.

Lemma isObject_app h ext item :
  valid h item → isObject (h ++ ext) item = isObject h item.
Proof.
  destruct item as [| | | | |l|]; try done. simpl. intros Hl.
  by rewrite lookup_app_l.
Qed.

Lemma assoc_Some_elem {A} k (v : A) ps : assoc k ps = Some v → (k, v) ∈ ps.
Proof.
  induction ps as [|[k0 v0] ps IH]; simpl; [done|].
  destruct (String.eqb_spec k k0) as [->|?].
  - intros [= ->]. left.
  - intros H. right. by apply IH.
Qed.

Lemma valid_get_prop h item k :
  wf_heap h → valid h item → valid h (get_prop h item k).
Proof.
  intros Hwf Hv. destruct item as [| | | | s |l|]; try done.
  - simpl. destruct (String.eqb k "length"); [done|].
    destruct (assoc k (str_chars s 0)) as [v|] eqn:Ha; [|done]. simpl.
    apply assoc_Some_elem in Ha. revert Ha. generalize 0%nat.
    induction s as [|a s IH]; intros i Hin; simpl in Hin.
    + by apply elem_of_nil in Hin.
    + apply elem_of_cons in Hin as [[= _ ->]|Hin]; [done|]. by eapply IH.
  - unfold get_prop. destruct (h !! l) as [[kd ps]|] eqn:Hl; [|done].
    assert (∀ v, assoc k ps = Some v → valid h v) as Hps.
    { intros v Ha%assoc_Some_elem.
      pose proof (proj1 (list.Forall_forall _ _) Hwf _
                    (list_elem_of_lookup_2 _ _ _ Hl)) as Hc.
      by apply (proj1 (list.Forall_forall _ _) Hc (k, v)). }
    destruct kd; cbn [props]; try (destruct (String.eqb k "length"); [done|]);
      (destruct (assoc k ps) as [v|] eqn:Ha; [by apply Hps|done]).
Qed.

Lemma resolve_app h ext segs item :
  wf_heap h → valid h item →
  resolve (h ++ ext) segs item = resolve h segs item.
Proof.
  intros Hwf. revert item. induction segs as [|k rest IH]; intros item Hv;
    [done|].
  rewrite !resolve_cons, get_prop_app by done.
  apply IH. destruct (truthy item); [by apply valid_get_prop|done].
Qed.

Lemma closed_below_app h ext : wf_heap h → closed_below (length h) (h ++ ext).
Proof.
  intros Hwf l c k l' Hl Hc Ha. rewrite lookup_app_l in Hc by done.
  apply assoc_Some_elem in Ha.
  pose proof (proj1 (list.Forall_forall _ _) Hwf _
                (list_elem_of_lookup_2 _ _ _ Hc)) as Hcell.
  by apply (proj1 (list.Forall_forall _ _) Hcell (k, VRef l')).
Qed.

Lemma descend_app h ext t segs :
  wf_heap h → (t < length h)%nat →
  descend (h ++ ext) t segs = descend h t segs.
Proof.
  intros Hwf. revert t. induction segs as [|k rest IH]; intros t Ht; [done|].
  destruct rest as [|k2 rest]; [done|].
  cbn [descend]. rewrite get_prop_app by done.
  pose proof (valid_get_prop h (VRef t) k Hwf Ht) as Hv.
  destruct (get_prop h (VRef t) k) as [| | | | |t1|]; try done.
  rewrite isObject_app by done.
  destruct (isObject h (VRef t1)); [|done]. by apply IH.
Qed.

Lemma spine_app h ext t segs :
  wf_heap h → (t < length h)%nat →
  spine (h ++ ext) t segs = spine h t segs.
Proof.
  intros Hwf. revert t. induction segs as [|k rest IH]; intros t Ht; [done|].
  destruct rest as [|k2 rest]; [done|].
  cbn [spine]. rewrite get_prop_app by done.
  pose proof (valid_get_prop h (VRef t) k Hwf Ht) as Hv.
  destruct (get_prop h (VRef t) k) as [| | | | |t1|]; try done.
  rewrite isObject_app by done.
  destruct (isObject h (VRef t1)); [|done]. f_equal. by apply IH.
Qed.

Lemma reads_app h ext item segs :
  wf_heap h → valid h item →
  reads (h ++ ext) item segs = reads h item segs.
Proof.
  intros Hwf. revert item. induction segs as [|k rest IH]; intros item Hv;
    [done|].
  cbn [reads]. rewrite get_prop_app by done.
  assert (valid h (if truthy item then get_prop h item k else VUndef)).
  { destruct (truthy item); [by apply valid_get_prop|done]. }
  destruct item; by rewrite IH.
Qed.

(** *** Two branches *)

Lemma descend_self h t segs rem :
  descend h t segs = (t, rem) → NoDup (spine h t segs) → rem = segs.
Proof.
  destruct segs as [|k [|k2 rest]]; try (by intros [= <-]).
  destruct (isObject h (get_prop h (VRef t) k)) eqn:Htk.
  - destruct (isObject_ref _ _ Htk) as (t1 & Ht1 & _). rewrite Ht1 in Htk.
    rewrite (descend_step _ _ _ _ _ _ Ht1 Htk),
      (spine_step _ _ _ _ _ _ Ht1 Htk).
    intros Hd [Hnin _]%list.NoDup_cons. destruct Hnin.
    pose proof (descend_in_spine h t1 (k2 :: rest)) as Hin.
    by rewrite Hd in Hin.
  - rewrite (descend_stop _ _ _ _ _ Htk). by intros [= <-].
Qed.

(** The slot that a write to one branch assigns is not read along another
    branch, when the two branches part at a plain object and share no object
    below that point. *)
Lemma diverge_not_read h common :
  ∀ t a b p' q' t' k rest,
    a ≠ b →
    (length common < length (spine h t (common ++ a :: p')))%nat →
    NoDup (spine h t (common ++ a :: p')) →
    (∀ l, l ∈ (reads h (resolve h (common ++ [b]) (VRef t)) q').*1 →
          l ∉ spine h t (common ++ a :: p')) →
    descend h t (common ++ a :: p') = (t', k :: rest) →
    (t', k) ∉ reads h (VRef t) (common ++ b :: q').
Proof.
  induction common as [|x cs IH];
    intros t a b p' q' t' k rest Hab Hlen Hnd Hshare Hdesc.
  - cbn [app reads truthy] in *. apply not_elem_of_cons. split.
    + intros [= -> ->].
      apply (descend_self _ _ _ _ Hdesc) in Hnd. by simplify_eq.
    + intros Hin. apply (Hshare t').
      * apply list_elem_of_fmap. by exists (t', k).
      * pose proof (descend_in_spine h t (a :: p')) as Hs.
        by rewrite Hdesc in Hs.
  - change ((x :: cs) ++ a :: p') with (x :: cs ++ a :: p') in *.
    change ((x :: cs) ++ b :: q') with (x :: cs ++ b :: q').
    destruct (cs ++ a :: p') as [|y ys] eqn:Hp; [by destruct cs|].
    destruct (isObject h (get_prop h (VRef t) x)) eqn:Htk.
    + destruct (isObject_ref _ _ Htk) as (t1 & Ht1 & _). rewrite Ht1 in Htk.
      rewrite (descend_step _ _ _ _ _ _ Ht1 Htk) in Hdesc.
      rewrite (spine_step _ _ _ _ _ _ Ht1 Htk) in Hlen, Hnd, Hshare.
      apply list.NoDup_cons in Hnd as [Hnin Hnd].
      cbn [reads truthy]. rewrite Ht1. apply not_elem_of_cons. split.
      * intros [= -> ->]. apply Hnin.
        pose proof (descend_in_spine h t1 (y :: ys)) as Hs.
        by rewrite Hdesc in Hs.
      * rewrite <-Hp in *. apply (IH t1 a b p' q' t' k rest); try done.
        -- simpl in Hlen. lia.
        -- intros l Hl Hin. apply (Hshare l).
           ++ change ((x :: cs) ++ [b]) with (x :: cs ++ [b]).
              rewrite resolve_cons. cbn [truthy]. by rewrite Ht1.
           ++ by right.
    + exfalso. cbn [spine] in Hlen.
      destruct (get_prop h (VRef t) x) as [| | | | |t1|];
        try (simpl in Hlen; lia).
      rewrite Htk in Hlen. simpl in Hlen. lia.
Qed.

(** ** Dispatch *)

Lemma append_assoc (a b c : string) : (a +:+ b) +:+ c = a +:+ b +:+ c.
Proof.
  induction a as [|x a IH]; [done|].
  change (String x ((a +:+ b) +:+ c) = String x (a +:+ b +:+ c)).
  by rewrite IH.
Qed.

Lemma join_split s : join_dot (split_dot s) = s.
Proof.
  induction s as [|c s IH]; [done|]. simpl.
  destruct (Ascii.eqb_spec c "."%char) as [->|Hc].
  - destruct (split_dot s) as [|y ys] eqn:Hs;
      [by destruct (split_dot_nonempty s)|].
    change (join_dot ("" :: y :: ys)) with ("" +:+ "." +:+ join_dot (y :: ys)).
    by rewrite IH.
  - destruct (split_dot s) as [|x xs] eqn:Hs;
      [by destruct (split_dot_nonempty s)|].
    destruct xs as [|y ys].
    + simpl in *. by rewrite IH.
    + change (join_dot (String c x :: y :: ys))
        with (String c (x +:+ "." +:+ join_dot (y :: ys))).
      by rewrite <-IH.
Qed.

Lemma own_entries_cell h c kd ps :
  h !! c = Some (Cell kd ps) → own_entries h (VRef c) = ps.
Proof. intros Hc. unfold own_entries. by rewrite Hc. Qed.

(** Flattening a patch gives one key: the dotted path it was built for. *)
Lemma flatten_chain h n w :
  isObject h w = false →
  ∀ segs c fuel prefix acc,
    is_chain h n c segs w → (length segs ≤ fuel)%nat →
    _objectToDotNotation fuel h (VRef c) prefix acc
    = Ok (assoc_set (prefix +:+ join_dot segs) w acc).
Proof.
  intros Hw. induction segs as [|k rest IH]; intros c fuel prefix acc Hch Hf;
    [done|].
  destruct fuel as [|fuel]; [simpl in Hf; lia|].
  cbn [_objectToDotNotation].
  destruct rest as [|k2 rest].
  - apply is_chain_last in Hch as [_ Hc].
    rewrite (own_entries_cell _ _ _ _ Hc), forEach_one.
    unfold flatten_entry, isPlainObject. by rewrite Hw.
  - apply is_chain_cons in Hch as [_ (c' & Hc & Hch')].
    rewrite (own_entries_cell _ _ _ _ Hc), forEach_one.
    unfold flatten_entry, isPlainObject.
    rewrite (is_chain_isObject _ _ _ _ _ Hch').
    rewrite (IH c' fuel) by (done || simpl in *; lia).
    do 2 f_equal.
    change (join_dot (k :: k2 :: rest))
      with (k +:+ "." +:+ join_dot (k2 :: rest)).
    by rewrite !append_assoc.
Qed.

Lemma modifiedKeys_chain h n c name w fuel :
  isObject h w = false →
  is_chain h n c (split_dot name) w →
  (length (split_dot name) ≤ fuel)%nat →
  modifiedKeys fuel h (VRef c) = Ok [name].
Proof.
  intros Hw Hch Hf. unfold modifiedKeys.
  rewrite (is_chain_isObject _ _ _ _ _ Hch).
  rewrite (flatten_chain h n w Hw _ c fuel "" [] Hch Hf).
  cbn. by rewrite join_split.
Qed.

(** A subscription is called exactly when its name is empty, or the written
    name is, or its segments are a subsequence of the written segments, or
    it is one of the flattened keys. *)
Lemma fires_spec name keys sub :
  fires name keys sub = true ↔
  name = "" ∨ sub_name sub = ""
  ∨ sublist (split_dot (sub_name sub)) (split_dot name)
  ∨ sub_name sub ∈ keys.
Proof.
  unfold fires, str_truthy.
  rewrite !orb_true_iff, !negb_true_iff, hasSubArray_sublist,
    bool_decide_eq_true.
  destruct (String.eqb_spec name ""), (String.eqb_spec (sub_name sub) "");
    naive_solver.
Qed.

Section Dispatch.
Context (E : Env).

(** The loop of the dispatch, when the callbacks return: who is called. *)
Lemma notify_called s name keys options subs :
  (∀ sub h args, Some sub ∈ subs →
     is_Some (call E (sub_callback sub) h args)) →
  ∀ h log, ∃ h' log',
    forEach (notify E s name keys options) subs (h, log)
    = Ok (h', log ++ log')
    ∧ called log' =
      subscribers (filter (λ sub, fires name keys sub = true)
                          (omap id subs)).
Proof.
  induction subs as [|entry subs IH]; intros Hret h log.
  { exists h, []. by rewrite app_nil_r. }
  assert (∀ sub h args, Some sub ∈ subs →
            is_Some (call E (sub_callback sub) h args)) as Hret'.
  { intros sub h0 args Hin. apply Hret. by right. }
  cbn [forEach]. destruct entry as [sub|]; cbn [notify].
  - cbn [omap list_omap]. change (list_omap _ _ id subs) with (omap id subs).
    cbn [id]. rewrite filter_cons.
    destruct (fires name keys sub) eqn:Hfire.
    + destruct (Hret sub h
                  [_get h (sub_name sub) (_data s); VStr (sub_name sub);
                   options]) as [[h1 r] Hcall]; [left|].
      cbn [fst snd]. rewrite Hcall. cbn [lift mbind res_bind].
      destruct (IH Hret' h1
                  (log ++ [Event (sub_callback sub)
                             (_get h (sub_name sub) (_data s))
                             (sub_name sub) options]))
        as (h' & log' & -> & Hlog).
      exists h', (Event (sub_callback sub)
                    (_get h (sub_name sub) (_data s))
                    (sub_name sub) options :: log').
      split; [by rewrite <-app_assoc|].
      rewrite decide_True by done. unfold called, subscribers in *.
      cbn [map ev_callback ev_name]. by rewrite Hlog.
    + cbn [mbind res_bind]. rewrite decide_False by done.
      apply IH, Hret'.
  - cbn [mbind res_bind omap list_omap]. apply IH, Hret'.
Qed.

(** The loop of the dispatch, when the callbacks are observers: the store
    stays, and every call gets the value now at the subscription's
    name. *)
Lemma notify_observers s name keys options subs :
  (∀ sub h args, Some sub ∈ subs →
     ∃ r, call E (sub_callback sub) h args = Some (h, r)) →
  ∀ h log,
    forEach (notify E s name keys options) subs (h, log)
    = Ok (h, log ++ map (notification h s options)
                      (filter (λ sub, fires name keys sub = true)
                              (omap id subs))).
Proof.
  induction subs as [|entry subs IH]; intros Hret h log.
  { cbn. by rewrite app_nil_r. }
  assert (∀ sub h args, Some sub ∈ subs →
            ∃ r, call E (sub_callback sub) h args = Some (h, r)) as Hret'.
  { intros sub h0 args Hin. apply Hret. by right. }
  cbn [forEach]. destruct entry as [sub|]; cbn [notify].
  - cbn [omap list_omap]. change (list_omap _ _ id subs) with (omap id subs).
    cbn [id]. rewrite filter_cons.
    destruct (fires name keys sub) eqn:Hfire.
    + destruct (Hret sub h
                  [_get h (sub_name sub) (_data s); VStr (sub_name sub);
                   options]) as [r Hcall]; [left|].
      cbn [fst snd]. rewrite Hcall. cbn [lift mbind res_bind].
      rewrite (IH Hret'). rewrite decide_True by done.
      by rewrite <-app_assoc.
    + cbn [mbind res_bind]. rewrite decide_False by done.
      apply IH, Hret'.
  - cbn [mbind res_bind omap list_omap]. apply IH, Hret'.
Qed.

Lemma live_elem s sub : Some sub ∈ _subscriptions s ↔ sub ∈ live s.
Proof.
  unfold live. rewrite list_elem_of_omap. split.
  - intros Hin. by exists (Some sub).
  - by intros ([sub'|] & Hin & [= ->]).
Qed.

Lemma trigger_observers fuel h s name modifiedData options keys :
  observers E s →
  modifiedKeys fuel h modifiedData = Ok keys →
  _triggerSubscriptionCallbacks E fuel h s name modifiedData options
  = Ok (h, map (notification h s options)
             (filter (λ sub, fires name keys sub = true) (live s))).
Proof.
  intros Hobs Hkeys. unfold _triggerSubscriptionCallbacks.
  rewrite Hkeys. cbn [mbind res_bind].
  rewrite notify_observers; [done|].
  intros sub h0 args Hin. apply Hobs. by apply live_elem.
Qed.

Lemma trigger_responsive fuel h s name modifiedData options keys :
  responsive E s →
  modifiedKeys fuel h modifiedData = Ok keys →
  ∃ h' log,
    _triggerSubscriptionCallbacks E fuel h s name modifiedData options
    = Ok (h', log)
    ∧ called log =
      subscribers (filter (λ sub, fires name keys sub = true) (live s)).
Proof.
  intros Hres Hkeys. unfold _triggerSubscriptionCallbacks.
  rewrite Hkeys. cbn [mbind res_bind].
  destruct (notify_called s name keys options (_subscriptions s)) with
    (h := h) (log := @nil event) as (h' & log' & Heq & Hlog).
  { intros sub h0 args Hin. apply Hres. by apply live_elem. }
  exists h', log'. by rewrite Heq.
Qed.
End Dispatch.

(** ** Writes *)

Lemma wf_heap_lookup h l c k v :
  wf_heap h → h !! l = Some c → (k, v) ∈ props c → valid h v.
Proof.
  intros Hwf Hl Hin.
  pose proof (proj1 (list.Forall_forall _ _) Hwf _
                (list_elem_of_lookup_2 _ _ _ Hl)) as Hc.
  by apply (proj1 (list.Forall_forall _ _) Hc (k, v)).
Qed.

Lemma valid_mono h h' v : (length h ≤ length h')%nat → valid h v → valid h' v.
Proof. destruct v; simpl; try done. lia. Qed.

Lemma wf_heap_intro h :
  (∀ l c k v, h !! l = Some c → (k, v) ∈ props c → valid h v) → wf_heap h.
Proof.
  intros H. apply list.Forall_forall. intros c Hc.
  apply list_elem_of_lookup in Hc as [l Hl].
  apply list.Forall_forall. intros [k v] Hin. by eapply H.
Qed.

Lemma wf_heap_alloc h k v :
  wf_heap h → valid h v → wf_heap (h ++ [Cell KObject [(k, v)]]).
Proof.
  intros Hwf Hv. apply wf_heap_intro. intros l c k' v' Hl Hin.
  apply lookup_app_Some in Hl as [Hl|[_ Hl]].
  - eapply valid_mono; [|by eapply wf_heap_lookup].
    rewrite length_app. lia.
  - apply list_lookup_singleton_Some in Hl as [_ <-].
    apply list_elem_of_singleton in Hin as [= -> ->].
    eapply valid_mono; [|done]. rewrite length_app. lia.
Qed.

Lemma wf_heap_encodePatch h segs w h' c :
  wf_heap h → valid h w → encodePatch h segs w = (h', c) →
  wf_heap h' ∧ valid h' c ∧ (length h ≤ length h')%nat.
Proof.
  revert h' c. induction segs as [|k rest IH]; intros h' c Hwf Hw Henc.
  - by simplify_eq/=.
  - cbn [encodePatch] in Henc.
    destruct (encodePatch h rest w) as [h1 inner] eqn:Hrec.
    destruct (IH h1 inner Hwf Hw eq_refl) as (Hwf1 & Hv1 & Hlen).
    unfold alloc_singleton in Henc. simplify_eq. split_and!.
    + by apply wf_heap_alloc.
    + simpl. rewrite length_app. simpl. lia.
    + rewrite length_app. lia.
Qed.

Lemma assoc_set_elem {A} k (v : A) ps k' v' :
  (k', v') ∈ assoc_set k v ps → (k', v') = (k, v) ∨ (k', v') ∈ ps.
Proof.
  induction ps as [|[k0 v0] ps IH]; simpl.
  - intros ?%list_elem_of_singleton. by left.
  - destruct (String.eqb k k0).
    + intros [?|?]%elem_of_cons; [by left|right; by right].
    + intros [->|?]%elem_of_cons; [right; left|].
      destruct IH as [?|?]; [done|by left|right; by right].
Qed.

Lemma wf_heap_set_prop h t k v :
  wf_heap h → valid h v → wf_heap (set_prop h t k v).
Proof.
  intros Hwf Hv. destruct t as [| | | | |l|]; try done. unfold set_prop.
  destruct (h !! l) as [c|] eqn:Hl; [|done].
  apply wf_heap_intro. intros l' c' k' v' Hl' Hin.
  apply (valid_mono h); [by rewrite length_insert|].
  destruct (decide (l' = l)) as [->|Hne].
  - rewrite list_lookup_insert_eq in Hl' by (by eapply lookup_lt_Some).
    injection Hl' as <-. cbn [props] in Hin.
    apply assoc_set_elem in Hin as [Heq|Hin].
    + by injection Heq as -> ->.
    + by eapply wf_heap_lookup.
  - rewrite list_lookup_insert_ne in Hl' by done.
    by eapply wf_heap_lookup.
Qed.

Section SetPath.
Context (E : Env).

(** The suppression test compares the value stored with the value to be
    written. *)
Lemma suppressed_spec h ext n c s name w t :
  wf_heap h → _data s = VRef t → (t < length h)%nat →
  str_truthy name = true →
  is_chain (h ++ ext) n c (split_dot name) w →
  suppressed (h ++ ext) s name (VRef c)
  = default false (sameReferenceCheck (_getOptions (_options s) name))
    && strict_eq (State_get h s name) w.
Proof.
  intros Hwf Hd Ht Hname Hch. unfold suppressed, State_get, _get.
  rewrite Hname, Hd. rewrite resolve_app by done.
  by rewrite (resolve_chain _ _ _ _ _ Hch).
Qed.

(** The second half of [set], for a value that is not a plain object: the
    write is skipped, or it is one assignment (at the place [descend]
    finds) followed by the dispatch. *)
Lemma commit_spec fuel h s name w options t :
  str_truthy name = true → wf_heap h → valid h w →
  isObject h w = false →
  _data s = VRef t → isObject h (VRef t) = true →
  observers E s → (length (split_dot name) ≤ fuel)%nat →
  ∃ ext c t' k rest c',
    is_chain (h ++ ext) (length h) c (split_dot name) w
    ∧ wf_heap (h ++ ext)
    ∧ descend h t (split_dot name) = (t', k :: rest)
    ∧ is_chain (h ++ ext) (length h) c' (k :: rest) w
    ∧ (t' < length h)%nat ∧ isObject h (VRef t') = true
    ∧ commit E fuel h s name w options =
      if default false (sameReferenceCheck (_getOptions (_options s) name))
         && strict_eq (State_get h s name) w
      then Ok (h ++ ext, s, [], (name, w))
      else
        let h2 := set_prop (h ++ ext) (VRef t') k
                           (get_prop (h ++ ext) (VRef c') k) in
        Ok (h2, s,
            if default true (opt_triggerSubscriptionCallback options)
            then map (notification h2 s (opt_self options))
                     (filter (λ sub, fires name [name] sub = true) (live s))
            else [],
            (name, w)).
Proof.
  intros Hname Hwf Hw Hnobj Hd Hobj Hobs Hf.
  destruct (isObject_ref _ _ Hobj) as (? & [= <-] & Ht).
  destruct (encodePatch_spec h (split_dot name) w (split_dot_nonempty name))
    as (ext & c & Henc & Hch).
  destruct (wf_heap_encodePatch _ _ _ _ _ Hwf Hw Henc) as (Hwf' & _ & _).
  assert (isObject (h ++ ext) w = false) as Hnobj'
    by (by rewrite isObject_app).
  assert (isObject (h ++ ext) (VRef t) = true) as Hobj'
    by (by rewrite isObject_app).
  destruct (merge_chain (h ++ ext) (length h) (split_dot name) w Hnobj'
              (closed_below_app h ext Hwf) t c fuel Hch Ht Hobj' Hf)
    as (t' & k & rest & c' & Hdesc & Hch' & Ht' & Hobj'' & Hmerge).
  rewrite descend_app in Hdesc by done.
  rewrite isObject_app in Hobj'' by done.
  exists ext, c, t', k, rest, c'. split_and!; try done.
  unfold commit. rewrite Henc.
  rewrite (suppressed_spec h ext (length h) c s name w t) by done.
  destruct (default false _ && strict_eq _ w); [done|].
  rewrite Hd, Hmerge. cbn [mbind res_bind].
  destruct (default true (opt_triggerSubscriptionCallback options)); [|done].
  rewrite (trigger_observers E fuel _ s name (VRef c) (opt_self options)
             [name]); [done|done|].
  apply (modifiedKeys_chain _ (length h) _ _ w).
  - by rewrite isObject_set_prop.
  - by apply is_chain_set_prop.
  - done.
Qed.
(** What [get] of the written path returns after the second half of
    [set]. *)
Lemma commit_get fuel h s name w options t :
  str_truthy name = true → wf_heap h → valid h w →
  isObject h w = false →
  _data s = VRef t → isObject h (VRef t) = true →
  NoDup (spine h t (split_dot name)) →
  observers E s → (length (split_dot name) ≤ fuel)%nat →
  ∃ h2 log,
    commit E fuel h s name w options = Ok (h2, s, log, (name, w))
    ∧ State_get h2 s name =
      if default false (sameReferenceCheck (_getOptions (_options s) name))
         && strict_eq (State_get h s name) w
      then State_get h s name
      else w.
Proof.
  intros Hname Hwf Hw Hnobj Hd Hobj Hnd Hobs Hf.
  destruct (commit_spec fuel h s name w options t)
    as (ext & c & t' & k & rest & c' & Hch & Hwf' & Hdesc & Hch' & Ht'
        & Hobj' & ->); try done.
  destruct (isObject_ref _ _ Hobj) as (? & [= <-] & Ht).
  destruct (default false _ && strict_eq _ w).
  - eexists _, _. split; [done|].
    unfold State_get, _get. rewrite Hname, Hd. by apply resolve_app.
  - eexists _, _. split; [done|].
    unfold State_get, _get. rewrite Hname, Hd.
    apply (resolve_written _ (length h) _ w t t' k rest c'); try done.
    + by rewrite isObject_app.
    + by rewrite spine_app.
    + by rewrite descend_app.
Qed.

(** The store after the second half of [set] is again one to which
    [commit_spec] applies. *)
Lemma commit_stable fuel h s name w options t h2 log r :
  str_truthy name = true → wf_heap h → valid h w →
  isObject h w = false →
  _data s = VRef t → isObject h (VRef t) = true →
  observers E s → (length (split_dot name) ≤ fuel)%nat →
  commit E fuel h s name w options = Ok (h2, s, log, r) →
  wf_heap h2 ∧ valid h2 w ∧ isObject h2 w = false
  ∧ isObject h2 (VRef t) = true.
Proof.
  intros Hname Hwf Hw Hnobj Hd Hobj Hobs Hf.
  destruct (commit_spec fuel h s name w options t)
    as (ext & c & t' & k & rest & c' & Hch & Hwf' & Hdesc & Hch' & Ht'
        & Hobj' & ->); try done.
  destruct (isObject_ref _ _ Hobj) as (? & [= <-] & Ht).
  assert (valid (h ++ ext) w) as Hw'.
  { eapply valid_mono; [|done]. rewrite length_app. lia. }
  destruct (default false _ && strict_eq _ w).
  - intros Heq. assert (h2 = h ++ ext) as -> by congruence.
    by rewrite !isObject_app by done.
  - lazy zeta. intros Heq.
    assert (h2 = set_prop (h ++ ext) (VRef t') k
                   (get_prop (h ++ ext) (VRef c') k)) as -> by congruence.
    clear Heq.
    rewrite !isObject_set_prop, !isObject_app by done. split_and!; try done.
    + apply wf_heap_set_prop; [done|].
      apply valid_get_prop; [done|]. simpl.
      apply is_chain_isObject, isObject_ref in Hch' as (? & [= <-] & ?).
      done.
    + eapply valid_mono; [|done]. by rewrite set_prop_length.
Qed.
End SetPath.

(** ** Reading back a write, and the frame of a write *)

Lemma observers_watching name h0 :
  observers sample_env (watching name 0) ∧ wf_heap empty_heap
  ∧ valid h0 (VInt 1).
Proof.
  split_and!; [|by repeat constructor|done].
  intros sub h args Hin. apply list_elem_of_singleton in Hin as ->.
  by eexists.
Qed.

Lemma observers_no_subscription E : observers E empty_state.
Proof. intros sub h args Hin. by apply elem_of_nil in Hin. Qed.







(** ** Which subscriptions a write calls *)

Lemma responsive_watching name : responsive sample_env (watching name 0).
Proof.
  intros sub h args Hin. apply list_elem_of_singleton in Hin as ->.
  by eexists.
Qed.




(** ** Writing the same value twice *)




(** ** Batch writes *)

Lemma bind_Ok {A B} (m : res A) (k : A → res B) b :
  (m ≫= k) = Ok b → ∃ a, m = Ok a ∧ k a = Ok b.
Proof. destruct m as [a| |]; try done. intros H. by exists a. Qed.

Lemma filter_all {A} (P : A → Prop) `{∀ x, Decision (P x)} (l : list A) :
  (∀ x, P x) → filter P l = l.
Proof.
  intros HP. induction l as [|x l IH]; [done|].
  by rewrite filter_cons_True, IH.
Qed.

Section Batch.
Context (E : Env).

Lemma setOptions_subscriptions fuel h s name r h' s' :
  State_setOptions fuel h s name r = Ok (h', s') →
  _subscriptions s' = _subscriptions s.
Proof.
  unfold State_setOptions.
  destruct (negb _ && strict_eq _ VUndef).
  - destruct (encodePatch h (split_dot name) (rule_default r)) as [h1 md].
    intros (h2 & _ & [= _ <-])%bind_Ok. done.
  - by intros [= _ <-].
Qed.

Lemma prepare_subscriptions fuel h s name v options h' s' w :
  prepare E fuel h s name v options = Ok (h', s', w) →
  _subscriptions s' = _subscriptions s.
Proof.
  unfold prepare. intros ([h0 s0] & Hopt & H)%bind_Ok.
  apply bind_Ok in H as ([h1 v1] & _ & H).
  apply bind_Ok in H as ([h2 v2] & _ & H). injection H as _ <- _.
  destruct (negb (strict_eq (opt_defaultValue options) VUndef)).
  - by eapply setOptions_subscriptions.
  - by injection Hopt as _ <-.
Qed.

(** An inner write keeps the subscriptions, answers with its own name, and
    calls nobody when [triggerSubscriptionCallback] is [false]. *)
Lemma set_path_inner fuel h s name v options h' s' log r :
  set_path E fuel h s name v options = Ok (h', s', log, r) →
  _subscriptions s' = _subscriptions s ∧ r.1 = name
  ∧ (opt_triggerSubscriptionCallback options = Some false → log = []).
Proof.
  unfold set_path. intros ([[h0 s0] w] & Hprep & Hc)%bind_Ok.
  apply prepare_subscriptions in Hprep. rewrite <-Hprep. clear Hprep.
  unfold commit in Hc.
  destruct (encodePatch h0 (split_dot name) w) as [h1 md].
  destruct (suppressed h1 s0 name md).
  { by injection Hc as _ <- <- <-. }
  apply bind_Ok in Hc as (h2 & _ & Hc).
  apply bind_Ok in Hc as ([h3 log3] & Htrig & Hc).
  injection Hc as _ <- <- <-. split_and!; [done..|].
  intros Hoff. rewrite Hoff in Htrig. by injection Htrig as _ <-.
Qed.

Lemma inner_writes_loop fuel lst options keys :
  ∀ h s acc h1 s1 result,
    forEach (write_entry E fuel lst options) keys (h, s, acc)
    = Ok (h1, s1, result) →
    _subscriptions s1 = _subscriptions s ∧ result.*1 = acc.*1 ++ keys.
Proof.
  induction keys as [|name keys IH]; intros h s acc h1 s1 result.
  - intros [= _ <- <-]. by rewrite app_nil_r.
  - cbn [forEach]. intros ([[h0 s0] acc0] & Hw & Hrest)%bind_Ok.
    unfold write_entry in Hw.
    apply bind_Ok in Hw as ([[[h' s'] log'] r] & Hset & Hw).
    injection Hw as <- <- <-.
    apply set_path_inner in Hset as (Hsubs & Hr & _).
    apply IH in Hrest as [-> ->]. split; [done|].
    rewrite fmap_app. cbn. rewrite Hr. by rewrite <-app_assoc.
Qed.

Lemma fires_no_name keys sub : fires "" keys sub = true.
Proof. done. Qed.
End Batch.

(** *** The inner writes return *)

Lemma avoids_step h l0 l k l' :
  avoids h l0 l → get_prop h (VRef l) k = VRef l' →
  isObject h (VRef l') = true → avoids h l0 l'.
Proof.
  intros Hav Hg Ho segs Hin.
  destruct segs as [|k2 rest].
  - apply (Hav [k; k]). rewrite (spine_step _ _ _ _ _ _ Hg Ho). by right.
  - apply (Hav (k :: k2 :: rest)).
    rewrite (spine_step _ _ _ _ _ _ Hg Ho). by right.
Qed.

Lemma avoids_self h l0 l : avoids h l0 l → l0 ≠ l.
Proof. intros Hav ->. apply (Hav []). left. Qed.

Lemma chain_get h n l k1 rest w k :
  is_chain h n l (k1 :: rest) w →
  get_prop h (VRef l) k =
  if String.eqb k k1 then get_prop h (VRef l) k1 else VUndef.
Proof.
  destruct (String.eqb_spec k k1) as [->|Hne]; [done|].
  destruct rest as [|k2 rest].
  - intros [_ Hc]%is_chain_last. rewrite (get_prop_cell _ _ _ _ Hc). cbn.
    by destruct (String.eqb_spec k k1).
  - intros [_ (c' & Hc & _)]%is_chain_cons.
    rewrite (get_prop_cell _ _ _ _ Hc). cbn.
    by destruct (String.eqb_spec k k1).
Qed.

(** After the assignment of a patch, descending from an object that avoided
    [l0] still avoids it: the new part of the tree is the patch. *)
Lemma spine_after_write hc n l0 t' kk rest c' w ps :
  hc !! t' = Some (Cell KObject ps) → (t' < n)%nat → (l0 < n)%nat →
  is_chain hc n c' (kk :: rest) w → (∀ l, w ≠ VRef l) →
  closed_below n hc →
  ∀ segs l,
    ((l < n)%nat ∧ isObject hc (VRef l) = true ∧ avoids hc l0 l)
    ∨ (∃ segs', is_chain hc n l segs' w) →
    l0 ∉ spine (set_prop hc (VRef t') kk (get_prop hc (VRef c') kk)) l segs.
Proof.
  intros Hc Ht' Hl0 Hch Hw Hcl.
  set (h2 := set_prop hc (VRef t') kk (get_prop hc (VRef c') kk)).
  assert (∀ l,
    ((l < n)%nat ∧ isObject hc (VRef l) = true ∧ avoids hc l0 l)
    ∨ (∃ segs', is_chain hc n l segs' w) → l0 ≠ l) as Hne.
  { intros l [(_ & _ & Hav)|[segs' Hl]]; [by apply (avoids_self hc)|].
    apply is_chain_ge in Hl. lia. }
  assert (∀ l segs' k,
    is_chain hc n l segs' w →
    match get_prop h2 (VRef l) k with
    | VRef l' => ∃ segs'', is_chain hc n l' segs'' w
    | _ => True
    end) as Hchain.
  { intros l segs' k Hl. unfold h2.
    rewrite (get_prop_set_prop_ne _ _ _ _ _ (VRef l) k Hc).
    2:{ left. intros [= ->]. apply is_chain_ge in Hl. lia. }
    destruct segs' as [|k1 r1]; [done|].
    rewrite (chain_get _ _ _ _ _ _ k Hl).
    destruct (String.eqb k k1); [|done].
    destruct (chain_head _ _ _ _ _ _ Hl) as [_ Hhead].
    destruct r1 as [|k2 r1].
    - rewrite Hhead. destruct w; try done. by destruct (Hw l1).
    - destruct Hhead as (c2 & -> & Hc2). by eexists. }
  induction segs as [|k segs IH]; intros l Hl.
  { apply not_elem_of_cons. split; [by apply Hne|apply not_elem_of_nil]. }
  destruct segs as [|k2 segs].
  { apply not_elem_of_cons. split; [by apply Hne|apply not_elem_of_nil]. }
  cbn [spine]. apply not_elem_of_cons. split; [by apply Hne|].
  destruct (get_prop h2 (VRef l) k) as [| | | | |l'|] eqn:Hg;
    try apply not_elem_of_nil.
  destruct (isObject h2 (VRef l')) eqn:Ho'; [|apply not_elem_of_nil].
  apply IH. unfold h2 in Ho'. rewrite isObject_set_prop in Ho'.
  destruct Hl as [(Hl & Hobj & Hav)|[segs' Hl]].
  - destruct (decide (l = t' ∧ k = kk)) as [[-> ->]|Hother].
    + unfold h2 in Hg. rewrite (get_prop_set_prop_eq _ _ _ _ _ Hc) in Hg.
      destruct (chain_head _ _ _ _ _ _ Hch) as [_ Hhead].
      destruct rest as [|k3 rest].
      * rewrite Hhead in Hg. by destruct (Hw l').
      * destruct Hhead as (c2 & Hc2 & Hch2). rewrite Hc2 in Hg.
        injection Hg as <-. right. by eexists.
    + unfold h2 in Hg.
      rewrite (get_prop_set_prop_ne _ _ _ _ _ (VRef l) k Hc) in Hg.
      2:{ destruct (decide (l = t')) as [->|?]; [right|left]; naive_solver. }
      left. split_and!; [by eapply closed_below_step|done|].
      by eapply avoids_step.
  - right. specialize (Hchain l segs' k Hl). by rewrite Hg in Hchain.
Qed.

Section InnerWrites.
Context (E : Env).

Lemma commit_batch_inv fuel h s name w options t l0 ps0 :
  opt_triggerSubscriptionCallback options = Some false →
  str_truthy name = true → (∀ l, w ≠ VRef l) →
  _data s = VRef t → observers E s →
  (length (split_dot name) ≤ fuel)%nat →
  batch_inv h t l0 ps0 →
  ∃ h2, commit E fuel h s name w options = Ok (h2, s, [], (name, w))
        ∧ batch_inv h2 t l0 ps0.
Proof.
  intros Hoff Hname Hw Hd Hobs Hf (Hwf & Hobj & Hav & Hl0).
  assert (valid h w) as Hvw by (destruct w; try done; by destruct (Hw l)).
  assert (isObject h w = false) as Hnobj
    by (destruct w; try done; by destruct (Hw l)).
  destruct (commit_spec E fuel h s name w options t)
    as (ext & c & t' & k & rest & c' & Hch & Hwf' & Hdesc & Hch' & Ht'
        & Hobj' & Hcommit); try done.
  destruct (isObject_ref _ _ Hobj) as (? & [= <-] & Ht).
  pose proof (lookup_lt_Some _ _ _ Hl0) as Hlt.
  assert (∃ h2, commit E fuel h s name w options = Ok (h2, s, [], (name, w))
                ∧ (h2 = h ++ ext
                   ∨ h2 = set_prop (h ++ ext) (VRef t') k
                            (get_prop (h ++ ext) (VRef c') k)))
    as (h2 & Hc & Hh2).
  { rewrite Hcommit, Hoff. cbn [default from_option id].
    destruct (_ && strict_eq _ w); eexists; (split; [done|]);
      [by left|by right]. }
  exists h2. split; [done|].
  destruct (commit_stable E fuel h s name w options t h2 [] (name, w))
    as (Hwf2 & _ & _ & Hobj2); try done.
  split_and!; try done.
  - destruct Hh2 as [-> | ->].
    + intros segs. by rewrite spine_app.
    + destruct (proj1 (isObject_cell _ _) Hobj') as [ps Hc'].
      intros segs.
      apply (spine_after_write (h ++ ext) (length h) l0 t' k rest c' w ps);
        try done.
      * by rewrite lookup_app_l.
      * by apply closed_below_app.
      * left. split_and!; [done|by rewrite isObject_app|].
        intros segs'. by rewrite spine_app.
  - destruct Hh2 as [-> | ->].
    + by rewrite lookup_app_l.
    + rewrite lookup_set_prop_ne, lookup_app_l; [done..|].
      intros [= ->]. apply (Hav (split_dot name)).
      pose proof (descend_in_spine h t (split_dot name)) as Hin.
      by rewrite Hdesc in Hin.
Qed.

Lemma write_entry_step fuel h s name w options t l0 ps0 acc :
  _data s = VRef t → observers E s →
  str_truthy name = true → (length (split_dot name) ≤ fuel)%nat →
  (∀ l, w ≠ VRef l) →
  (∀ h', prepare E fuel h' s name (default VUndef (assoc name ps0))
           (quiet options) = Ok (h', s, w)) →
  batch_inv h t l0 ps0 →
  ∃ h2, write_entry E fuel (VRef l0) options (h, s, acc) name
        = Ok (h2, s, acc ++ [(name, w)])
        ∧ batch_inv h2 t l0 ps0.
Proof.
  intros Hd Hobs Hname Hf Hout Hprep Hinv.
  unfold write_entry, set_path.
  pose proof Hinv as (_ & _ & _ & Hl0).
  rewrite (get_prop_cell _ _ _ _ Hl0), Hprep. cbn [mbind res_bind].
  destruct (commit_batch_inv fuel h s name w (quiet options) t l0 ps0)
    as (h2 & -> & Hinv2); try done.
  by exists h2.
Qed.

(** The inner writes of a batch return, when the map is a plain object that
    the tree does not contain and every entry is transformed, the same in
    every store and leaving it as it is, into a value that is not an
    object. *)
Lemma inner_writes_return fuel s options t l0 ps0 (out : string → value) :
  _data s = VRef t → observers E s →
  ∀ keys,
    (∀ name, name ∈ keys →
       str_truthy name = true
       ∧ (length (split_dot name) ≤ fuel)%nat
       ∧ (∀ l, out name ≠ VRef l)
       ∧ ∀ h', prepare E fuel h' s name (default VUndef (assoc name ps0))
                 (quiet options) = Ok (h', s, out name)) →
    ∀ h acc,
      batch_inv h t l0 ps0 →
      ∃ h1,
        forEach (write_entry E fuel (VRef l0) options) keys (h, s, acc)
        = Ok (h1, s, acc ++ map (λ name, (name, out name)) keys)
        ∧ batch_inv h1 t l0 ps0.
Proof.
  intros Hd Hobs.
  induction keys as [|name keys IH]; intros Hkeys h acc Hinv.
  { exists h. by rewrite app_nil_r. }
  destruct (Hkeys name) as (Hname & Hf & Hout & Hprep); [left|].
  destruct (write_entry_step fuel h s name (out name) options t l0 ps0 acc)
    as (h2 & Hstep & Hinv2); try done.
  cbn [forEach]. rewrite Hstep. cbn [mbind res_bind].
  destruct (IH (λ n Hn, Hkeys n (list_elem_of_further _ _ _ Hn)) h2
              (acc ++ [(name, out name)]) Hinv2) as (h1 & -> & Hinv1).
  exists h1. cbn [map]. by rewrite <-app_assoc.
Qed.
End InnerWrites.



(** ** Failures *)

Lemma resolve_undefined h segs : resolve h segs VUndef = VUndef.
Proof. induction segs as [|k rest IH]; [done|]. by rewrite resolve_cons. Qed.

Lemma resolve_snoc h pre k rest data :
  resolve h (pre ++ k :: rest) data =
  resolve h rest (if truthy (resolve h pre data)
                  then get_prop h (resolve h pre data) k else VUndef).
Proof. unfold resolve. by rewrite foldl_app. Qed.

Lemma longest_registered_prefix_None registry name :
  (∀ p, p ∈ dotted_prefixes name → assoc p registry = None) →
  longest_registered_prefix registry name = None.
Proof.
  intros Hnone. unfold longest_registered_prefix.
  assert (omap (λ p, assoc p registry) (dotted_prefixes name) = []) as ->;
    [|done].
  induction (dotted_prefixes name) as [|p ps IH]; [done|].
  cbn [omap list_omap]. rewrite Hnone by left.
  apply IH. intros q Hq. apply Hnone. by right.
Qed.

Section Failures.
Context (E : Env).

Lemma transform_json_failed h text oldValue r :
  type r = Some "json" → allowedValues r = None →
  JSON_parse E h text = None →
  camelcaseKeys E h (VStr text) = None
  ∨ camelcaseKeys E h (VStr text) = Some (h, VStr text) →
  _transformValue E h (VStr text) oldValue r = Ok (h, VStr text).
Proof.
  intros Ht Ha Hparse Hcamel. unfold _transformValue, coerce.
  rewrite Ht, Hparse. lazy beta iota zeta delta [default from_option].
  destruct Hcamel as [->| ->]; cbn [mbind res_bind];
    lazy beta iota zeta delta [default from_option id];
    by rewrite allow_filter_absent.
Qed.

Lemma prepare_plain fuel h s name v options :
  opt_defaultValue options = VUndef → opt_isFunction options = false →
  prepare E fuel h s name v options =
  '(h1, w) ← _transformValue E h v (_get h name (_data s))
               (_getOptions (_options s) name);
  Ok (h1, s, w).
Proof.
  intros Hd Hf. unfold prepare. rewrite Hd, Hf. cbn [strict_eq negb].
  rewrite bool_decide_eq_true_2 by done. cbn [negb mbind res_bind].
  assert (match v with
          | VFun _ => Ok (h, v)
          | _ => Ok (h, v)
          end = (Ok (h, v) : res (list cell * value))) as ->
    by (by destruct v).
  cbn [mbind res_bind].
  by destruct (_transformValue E h v _ _) as [[h1 w]| |].
Qed.
End Failures.




(** ** Further properties: the path codec *)

Lemma split_dot_app p q :
  split_dot (p +:+ "." +:+ q) = split_dot p ++ split_dot q.
Proof.
  induction p as [|c p IH]; [done|].
  change (split_dot (String c p +:+ "." +:+ q))
    with (split_dot (String c (p +:+ "." +:+ q))).
  cbn [split_dot]. rewrite IH.
  destruct (Ascii.eqb c "."%char); [done|].
  destruct (split_dot p) as [|x xs] eqn:Hp;
    [by destruct (split_dot_nonempty p)|done].
Qed.

Lemma str_truthy_app p q : str_truthy (p +:+ "." +:+ q) = true.
Proof. by destruct p. Qed.

Lemma resolve_app_segs h segs1 segs2 data :
  resolve h (segs1 ++ segs2) data = resolve h segs2 (resolve h segs1 data).
Proof. unfold resolve. by rewrite foldl_app. Qed.

(** X1: reading a patch along the path it was built for gives back the
    value, for every non-empty path and every value: [_get(name,
    modifiedData) === value].  For the empty path the patch is [{ '': value
    }], and [_get] returns that object itself. *)
Theorem patch_read_back h name v :
  (str_truthy name = true →
   _get (encodePatch h (split_dot name) v).1 name
        (encodePatch h (split_dot name) v).2 = v)
  ∧ (name = "" →
     ∃ c, (encodePatch h (split_dot name) v).2 = VRef c
          ∧ _get (encodePatch h (split_dot name) v).1 name (VRef c) = VRef c
          ∧ own_entries (encodePatch h (split_dot name) v).1 (VRef c)
            = [("", v)]).
Proof.
  destruct (encodePatch_spec h (split_dot name) v (split_dot_nonempty name))
    as (ext & c & Henc & Hch).
  rewrite Henc. cbn [fst snd]. split.
  - intros Hname. unfold _get. rewrite Hname. by eapply resolve_chain.
  - intros ->. exists c. split_and!; [done..|].
    apply is_chain_last in Hch as [_ Hc].
    by rewrite (own_entries_cell _ _ _ _ Hc).
Qed.

(** [set('a.b', 1)]'s patch read back, and the patch of the empty path. *)
Lemma patch_read_back_witness :
  _get (encodePatch empty_heap (split_dot "a.b") (VInt 1)).1 "a.b"
       (encodePatch empty_heap (split_dot "a.b") (VInt 1)).2 = VInt 1
  ∧ ∃ c, (encodePatch empty_heap (split_dot "") VNull).2 = VRef c
         ∧ _get (encodePatch empty_heap (split_dot "") VNull).1 "" (VRef c)
           = VRef c
         ∧ own_entries (encodePatch empty_heap (split_dot "") VNull).1 (VRef c)
           = [("", VNull)].
Proof.
  split.
  - exact (proj1 (patch_read_back empty_heap "a.b" (VInt 1)) eq_refl).
  - exact (proj2 (patch_read_back empty_heap "" VNull) eq_refl).
Defined.



(** X3: reading composes along the dots: for non-empty [p] and [q],
    [get(p + '.' + q)] is [_get(q, get(p))]. *)
Theorem get_composes h s p q :
  str_truthy p = true → str_truthy q = true →
  State_get h s (p +:+ "." +:+ q) = _get h q (State_get h s p).
Proof.
  intros Hp Hq. unfold State_get, _get.
  rewrite str_truthy_app, Hp, Hq, split_dot_app.
  apply resolve_app_segs.
Qed.

Lemma get_composes_witness :
  State_get merge_heap empty_state ("a" +:+ "." +:+ "b")
  = _get merge_heap "b" (State_get merge_heap empty_state "a").
Proof. apply get_composes; reflexivity. Defined.

(** X25: the test [_hasSubArray], by which options and subscriptions are
    matched to a path, is a partial order on segment lists: every list
    passes against itself, the empty list passes against every list, the
    test is transitive, two lists that pass against each other are equal,
    and a list that passes is not longer than the list it is tested
    against. *)
Theorem hasSubArray_partial_order a b c :
  _hasSubArray a a = true
  ∧ _hasSubArray a [] = true
  ∧ (_hasSubArray a b = true → _hasSubArray b c = true →
     _hasSubArray a c = true)
  ∧ (_hasSubArray a b = true → _hasSubArray b a = true → a = b)
  ∧ (_hasSubArray a b = true → (length b ≤ length a)%nat).
Proof.
  rewrite !hasSubArray_sublist. split_and!.
  - done.
  - apply sublist_nil_l.
  - intros H1 H2. by etrans.
  - intros H1 H2. by apply (anti_symm sublist).
  - apply sublist_length.
Qed.

(** ** Further properties: the subscription registry *)

Lemma live_delete_where p subs :
  omap id (delete_where p subs)
  = filter (λ sub, p sub = false) (omap id subs).
Proof.
  induction subs as [|[sub|] subs IH]; [done| |].
  - cbn [delete_where map omap list_omap id].
    change (list_omap _ _ id ?l) with (omap id l).
    rewrite filter_cons. destruct (p sub) eqn:Hp.
    + rewrite decide_False by done. exact IH.
    + rewrite decide_True by done. cbn [omap list_omap id].
      change (list_omap _ _ id ?l) with (omap id l). by rewrite <-IH.
  - cbn [delete_where map omap list_omap id]. exact IH.
Qed.

Lemma live_subscribe_list s names callback :
  live (State_subscribe_list s names callback).1
  = live s ++ map (λ name, Subscription (_nextId s) name callback) names.
Proof.
  unfold live, State_subscribe_list. cbn [fst _subscriptions].
  rewrite omap_app. f_equal.
  induction names as [|name names IH]; [done|].
  cbn [map omap list_omap id]. change (list_omap _ _ id ?l) with (omap id l).
  by rewrite IH.
Qed.

Lemma filter_ext_in {A} (P Q : A → Prop) `{∀ x, Decision (P x)}
    `{∀ x, Decision (Q x)} (l : list A) :
  (∀ x, x ∈ l → P x ↔ Q x) → filter P l = filter Q l.
Proof.
  induction l as [|x l IH]; intros Hext; [done|].
  rewrite !filter_cons. rewrite IH by (intros y Hy; apply Hext; by right).
  destruct (decide (P x)) as [HP|HP], (decide (Q x)) as [HQ|HQ]; try done.
  - destruct HQ. by apply (Hext x); [left|].
  - destruct HP. by apply (Hext x); [left|].
Qed.

Lemma filter_none {A} (P : A → Prop) `{∀ x, Decision (P x)} (l : list A) :
  (∀ x, x ∈ l → ¬ P x) → filter P l = [].
Proof.
  induction l as [|x l IH]; intros Hnone; [done|].
  rewrite filter_cons_False by (apply Hnone; left).
  apply IH. intros y Hy. apply Hnone. by right.
Qed.

Lemma filter_all_in {A} (P : A → Prop) `{∀ x, Decision (P x)} (l : list A) :
  (∀ x, x ∈ l → P x) → filter P l = l.
Proof.
  induction l as [|x l IH]; intros Hall; [done|].
  rewrite filter_cons_True by (apply Hall; left).
  f_equal. apply IH. intros y Hy. apply Hall. by right.
Qed.

(** X4: [subscribe] appends one subscription per name, all under one fresh
    id, and the handle it returns undoes exactly that: after
    [unsubscribe()] the live subscriptions are those from before the
    [subscribe], in their order.  Ids stay fresh. *)
Theorem subscribe_then_unsubscribe s names callback :
  ids_fresh s →
  (∀ name, State_subscribe s name callback
           = State_subscribe_list s [name] callback)
  ∧ live (State_subscribe_list s names callback).1
    = live s ++ map (λ name, Subscription (_nextId s) name callback) names
  ∧ live (_unsubscribe (State_subscribe_list s names callback).1
                       (State_subscribe_list s names callback).2)
    = live s
  ∧ ids_fresh (State_subscribe_list s names callback).1
  ∧ ids_fresh (_unsubscribe (State_subscribe_list s names callback).1
                            (State_subscribe_list s names callback).2).
Proof.
  intros Hfresh.
  assert (live (_unsubscribe (State_subscribe_list s names callback).1
                             (State_subscribe_list s names callback).2)
          = live s) as Hundo.
  { unfold live at 1, _unsubscribe. cbn [_subscriptions].
    rewrite live_delete_where.
    change (omap id (_subscriptions (State_subscribe_list s names callback).1))
      with (live (State_subscribe_list s names callback).1).
    rewrite live_subscribe_list, list.filter_app.
    cbn [snd State_subscribe_list].
    rewrite filter_all_in.
    2:{ intros sub Hin. apply bool_decide_eq_false.
        specialize (Hfresh sub Hin). lia. }
    rewrite filter_none; [by rewrite app_nil_r|].
    intros sub Hin. apply list_elem_of_fmap in Hin as (name & -> & _).
    cbn. by rewrite bool_decide_eq_true_2. }
  split_and!.
  - done.
  - apply live_subscribe_list.
  - exact Hundo.
  - intros sub. rewrite live_subscribe_list.
    cbn [State_subscribe_list fst _nextId].
    intros [Hin|Hin]%elem_of_app.
    + specialize (Hfresh sub Hin). lia.
    + apply list_elem_of_fmap in Hin as (name & -> & _). cbn. lia.
  - intros sub. rewrite Hundo.
    cbn [_unsubscribe State_subscribe_list fst _nextId].
    intros Hin. specialize (Hfresh sub Hin). lia.
Qed.

Lemma ids_fresh_watching name callback : ids_fresh (watching name callback).
Proof.
  intros sub Hin. apply list_elem_of_singleton in Hin as ->. cbn. lia.
Qed.

(** Subscribing to [["a"; "b"]] after a subscription to ["x"]. *)
Lemma subscribe_then_unsubscribe_witness :
  live (_unsubscribe
          (State_subscribe_list (watching "x" 0) ["a"; "b"] 1).1
          (State_subscribe_list (watching "x" 0) ["a"; "b"] 1).2)
  = live (watching "x" 0).
Proof.
  exact (proj1 (proj2 (proj2
           (subscribe_then_unsubscribe (watching "x" 0) ["a"; "b"] 1
              (ids_fresh_watching "x" 0))))).
Defined.

(** X5: [unsubscribeAll(name)] and [_unsubscribe(id)] remove exactly the
    subscriptions registered under that very name, or that id, and keep the
    others in their order; a subscription to a descendant or ancestor path
    of [name] stays.  A dispatch afterwards calls, of those it would have
    called, exactly the ones that stay. *)
Theorem unsubscribe_is_exact E fuel h s name id :
  live (State_unsubscribeAll s name)
  = filter (λ sub, sub_name sub ≠ name) (live s)
  ∧ live (_unsubscribe s id) = filter (λ sub, sub_id sub ≠ id) (live s)
  ∧ (∀ written modifiedData options keys,
       responsive E s →
       modifiedKeys fuel h modifiedData = Ok keys →
       ∃ h' log,
         _triggerSubscriptionCallbacks E fuel h (State_unsubscribeAll s name)
           written modifiedData options = Ok (h', log)
         ∧ called log =
           subscribers
             (filter (λ sub, sub_name sub ≠ name)
                     (filter (λ sub, fires written keys sub = true) (live s)))).
Proof.
  assert (live (State_unsubscribeAll s name)
          = filter (λ sub, sub_name sub ≠ name) (live s)) as Hall.
  { unfold live at 1, State_unsubscribeAll. cbn [_subscriptions].
    rewrite live_delete_where. apply filter_ext_in. intros sub _.
    destruct (String.eqb_spec (sub_name sub) name); naive_solver. }
  split_and!.
  - exact Hall.
  - unfold live at 1, _unsubscribe. cbn [_subscriptions].
    rewrite live_delete_where. apply filter_ext_in. intros sub _.
    rewrite bool_decide_eq_false. done.
  - intros written modifiedData options keys Hres Hkeys.
    destruct (trigger_responsive E fuel h (State_unsubscribeAll s name) written
                modifiedData options keys) as (h' & log & Htrig & Hlog);
      [|done|].
    { intros sub h0 args Hin. apply Hres. rewrite Hall in Hin.
      by apply list_elem_of_filter in Hin as [_ ?]. }
    exists h', log. split; [done|]. rewrite Hlog, Hall.
    f_equal. rewrite !list_filter_filter. apply filter_ext_in.
    intros sub _. naive_solver.
Qed.

(** After [unsubscribeAll('a')], a write under ["a.b"] still calls the
    subscriber of ["a.b"]. *)
Lemma unsubscribe_is_exact_witness :
  ∃ h' log,
    _triggerSubscriptionCallbacks sample_env 0 empty_heap
      (State_unsubscribeAll (watching "a.b" 0) "a") "a.b" (VBool false) VUndef
    = Ok (h', log)
    ∧ called log =
      subscribers
        (filter (λ sub, sub_name sub ≠ "a")
                (filter (λ sub, fires "a.b" [] sub = true)
                        (live (watching "a.b" 0)))).
Proof.
  apply (proj2 (proj2 (unsubscribe_is_exact sample_env 0 empty_heap
                         (watching "a.b" 0) "a" 0))
           "a.b" (VBool false) VUndef []).
  - apply responsive_watching.
  - reflexivity.
Defined.

(** X6: callbacks run in registration order: a dispatch on an instance to
    which a subscription was just added calls whom it called before, and
    then, if the new subscription is concerned, its callback. *)
Theorem dispatch_in_registration_order E fuel h s name callback written
    modifiedData options keys :
  responsive E (State_subscribe s name callback).1 →
  modifiedKeys fuel h modifiedData = Ok keys →
  ∃ h' log,
    _triggerSubscriptionCallbacks E fuel h (State_subscribe s name callback).1
      written modifiedData options = Ok (h', log)
    ∧ called log =
      subscribers (filter (λ sub, fires written keys sub = true) (live s))
      ++ (if fires written keys (Subscription (_nextId s) name callback)
          then [(callback, name)] else []).
Proof.
  intros Hres Hkeys.
  destruct (trigger_responsive E fuel h (State_subscribe s name callback).1
              written modifiedData options keys Hres Hkeys)
    as (h' & log & Htrig & Hlog).
  exists h', log. split; [done|]. rewrite Hlog.
  change (State_subscribe s name callback)
    with (State_subscribe_list s [name] callback).
  rewrite live_subscribe_list, list.filter_app. unfold subscribers.
  rewrite map_app. f_equal. cbn [map]. rewrite filter_cons, filter_nil.
  by destruct (fires written keys _).
Qed.

Lemma dispatch_in_registration_order_witness :
  ∃ h' log,
    _triggerSubscriptionCallbacks sample_env 0 empty_heap
      (State_subscribe (watching "a" 0) "" 0).1 "a" (VBool false) VUndef
    = Ok (h', log)
    ∧ called log =
      subscribers (filter (λ sub, fires "a" [] sub = true)
                          (live (watching "a" 0)))
      ++ (if fires "a" [] (Subscription (_nextId (watching "a" 0)) "" 0)
          then [(0%nat, "")] else []).
Proof.
  apply (dispatch_in_registration_order sample_env 0 empty_heap
           (watching "a" 0) "" 0 "a" (VBool false) VUndef []).
  - intros sub h args Hin. vm_compute in Hin.
    apply elem_of_cons in Hin as [->|Hin];
      [|apply list_elem_of_singleton in Hin as ->]; by eexists.
  - reflexivity.
Defined.

(** X28: the manual trigger.  [triggerSubscriptionCallbacks(name, options)]
    needs no recursion, so it returns whatever depth is allowed.  With
    callbacks that return and leave the store alone, it calls, in
    registration order, exactly the live subscriptions whose path is empty
    or whose segments are an ordered subsequence of those of [name] (all of
    them when [name] is empty), each with the value stored at its own path,
    and it leaves the store as it is. *)
Theorem manual_trigger E fuel h s name options :
  observers E s →
  State_triggerSubscriptionCallbacks E fuel h s name options
  = Ok (h, map (notification h s options)
             (filter (λ sub, fires name [] sub = true) (live s)))
  ∧ ∀ sub, fires name [] sub = true ↔
           name = "" ∨ sub_name sub = ""
           ∨ sublist (split_dot (sub_name sub)) (split_dot name).
Proof.
  intros Hobs. split.
  - unfold State_triggerSubscriptionCallbacks.
    by rewrite (trigger_observers E fuel h s name (VBool false) options []).
  - intros sub. rewrite fires_spec. split.
    + intros [?|[?|[?|Hin]]]; [by left|by right; left|by right; right|].
      by apply elem_of_nil in Hin.
    + intros [?|[?|?]]; [by left|by right; left|by right; right; left].
Qed.

(** [triggerSubscriptionCallbacks('a.b')] with a subscriber to ["a"]. *)
Lemma manual_trigger_witness :
  State_triggerSubscriptionCallbacks sample_env 0 empty_heap
    (watching "a" 0) "a.b" VUndef
  = Ok (empty_heap,
        map (notification empty_heap (watching "a" 0) VUndef)
            (filter (λ sub, fires "a.b" [] sub = true)
                    (live (watching "a" 0))))
  ∧ ∀ sub, fires "a.b" [] sub = true ↔
           "a.b" = "" ∨ sub_name sub = ""
           ∨ sublist (split_dot (sub_name sub)) (split_dot "a.b").
Proof.
  apply (manual_trigger sample_env 0 empty_heap (watching "a" 0) "a.b"
           VUndef).
  apply (observers_watching "a" empty_heap).
Defined.

(** ** Further properties: [deepMerge] *)

Lemma same_shape_refl h : same_shape h h.
Proof. done. Qed.

Lemma same_shape_trans h1 h2 h3 :
  same_shape h1 h2 → same_shape h2 h3 → same_shape h1 h3.
Proof.
  intros [Hl1 Hk1] [Hl2 Hk2]. split; [congruence|].
  intros l. by rewrite Hk2, Hk1.
Qed.

Lemma same_shape_set_prop h t k v : same_shape h (set_prop h t k v).
Proof.
  split; [apply set_prop_length|]. intros l.
  destruct t as [| | | | |l'|]; try done. unfold set_prop.
  destruct (h !! l') as [c|] eqn:Hl'; [|done].
  destruct (decide (l = l')) as [->|Hne].
  - rewrite list_lookup_insert_eq by (by eapply lookup_lt_Some).
    by rewrite Hl'.
  - by rewrite list_lookup_insert_ne.
Qed.

Lemma same_shape_isObject h h' x :
  same_shape h h' → isObject h' x = isObject h x.
Proof.
  intros [_ Hk]. destruct x as [| | | | |l|]; try done. simpl.
  specialize (Hk l).
  destruct (h' !! l) as [c'|], (h !! l) as [c|]; cbn in Hk; try done.
  injection Hk as Hk. by rewrite Hk.
Qed.

Lemma same_shape_valid h h' x : same_shape h h' → valid h x → valid h' x.
Proof. intros [Hl _]. destruct x; simpl; try done. lia. Qed.

Lemma isObject_valid h x : isObject h x = true → valid h x.
Proof. intros (l & -> & Hl)%isObject_ref. done. Qed.


Lemma get_prop_same_cell h h' l k :
  h' !! l = h !! l → get_prop h' (VRef l) k = get_prop h (VRef l) k.
Proof. intros Hl. unfold get_prop. by rewrite Hl. Qed.

Lemma assign_keys_get h0 t s keys :
  ∀ h k,
    isObject h (VRef t) = true →
    get_prop (assign_keys h0 t s keys h) (VRef t) k
    = if bool_decide (k ∈ keys) then get_prop h0 (VRef s) k
      else get_prop h (VRef t) k.
Proof.
  induction keys as [|k0 keys IH]; intros h k Hobj.
  - by rewrite bool_decide_eq_false_2 by apply not_elem_of_nil.
  - unfold assign_keys in *. cbn [foldl].
    rewrite IH by (by rewrite isObject_set_prop).
    destruct (proj1 (isObject_cell _ _) Hobj) as [ps Hc].
    destruct (decide (k = k0)) as [->|Hne].
    + rewrite (bool_decide_eq_true_2 (k0 ∈ k0 :: keys)) by left.
      rewrite (get_prop_set_prop_eq _ _ _ _ _ Hc). by case_bool_decide.
    + rewrite (get_prop_set_prop_ne _ _ _ _ _ _ _ Hc) by (by right).
      assert (bool_decide (k ∈ k0 :: keys) = bool_decide (k ∈ keys)) as ->;
        [|done].
      apply bool_decide_ext. rewrite elem_of_cons. naive_solver.
Qed.

Lemma assign_keys_other h0 t s keys :
  ∀ h l, l ≠ t → assign_keys h0 t s keys h !! l = h !! l.
Proof.
  induction keys as [|k0 keys IH]; intros h l Hne; [done|].
  unfold assign_keys in *. cbn [foldl]. rewrite IH by done.
  apply lookup_set_prop_ne. congruence.
Qed.

(** On a source none of whose properties is a plain object, [deepMerge]
    assigns the properties one by one. *)
Lemma deepMerge_assign fuel h t s :
  isObject h (VRef t) = true → isObject h (VRef s) = true → t ≠ s →
  (∀ k, k ∈ own_keys h (VRef s) →
        isObject h (get_prop h (VRef s) k) = false) →
  deepMerge (S fuel) h (VRef t) (VRef s)
  = Ok (assign_keys h t s (own_keys h (VRef s)) h).
Proof.
  intros Ht Hs Hts Hflat.
  cbn [deepMerge]. rewrite Ht, Hs. cbn [andb].
  assert (∀ keys hc,
    (∀ k, k ∈ keys → k ∈ own_keys h (VRef s)) →
    hc !! s = h !! s → (∀ x, isObject hc x = isObject h x) →
    forEach (merge_key (deepMerge fuel) (VRef t) (VRef s)) keys hc
    = Ok (assign_keys h t s keys hc)) as Hloop.
  { induction keys as [|key keys IHk]; intros hc Hsub Hsame Hkinds;
      [done|].
    assert (merge_key (deepMerge fuel) (VRef t) (VRef s) hc key
            = Ok (set_prop hc (VRef t) key (get_prop h (VRef s) key)))
      as Hstep.
    { unfold merge_key.
      rewrite (get_prop_same_cell h hc s key Hsame), Hkinds.
      by rewrite Hflat by (apply Hsub; left). }
    cbn [forEach]. rewrite Hstep. cbn [mbind res_bind].
    rewrite IHk; [done| | |].
    - intros k Hk. apply Hsub. by right.
    - rewrite lookup_set_prop_ne; [done|congruence].
    - intros x. by rewrite isObject_set_prop. }
  by apply Hloop.
Qed.



Lemma assoc_set_same {A} k (v : A) ps :
  assoc k ps = Some v → assoc_set k v ps = ps.
Proof.
  induction ps as [|[k0 v0] ps IH]; simpl; [done|].
  destruct (String.eqb_spec k k0) as [->|?].
  - by intros [= ->].
  - intros H. by rewrite IH.
Qed.

Lemma assoc_Some_keys {A} k (ps : list (string * A)) :
  k ∈ ps.*1 → is_Some (assoc k ps).
Proof.
  intros Hin. destruct (assoc k ps) eqn:Ha; [by eexists|].
  by apply assoc_None_keys in Ha.
Qed.

Lemma set_prop_get_same h l k :
  isObject h (VRef l) = true → k ∈ own_keys h (VRef l) →
  set_prop h (VRef l) k (get_prop h (VRef l) k) = h.
Proof.
  intros [ps Hc]%isObject_cell Hk.
  rewrite (own_keys_cell _ _ _ _ Hc) in Hk.
  apply assoc_Some_keys in Hk as [v Hv].
  rewrite (get_prop_cell _ _ _ _ Hc), Hv. unfold set_prop. rewrite Hc.
  cbn [kind props default from_option id]. rewrite (assoc_set_same _ _ _ Hv).
  by apply list_insert_id.
Qed.

(** X9: merging an object into itself changes nothing, and returns as soon
    as the recursion budget exceeds the depth of the object: on an acyclic
    object [deepMerge(o, o)] is a no-op. *)
Theorem deepMerge_self n :
  ∀ h v fuel,
    depth_le n h v → (n < fuel)%nat → deepMerge fuel h v v = Ok h.
Proof.
  induction n as [|n IH]; intros h v fuel Hd Hf;
    (destruct fuel as [|fuel]; [lia|]); cbn [deepMerge].
  - cbn [depth_le] in Hd. by rewrite Hd.
  - destruct (isObject h v) eqn:Hobj; [|done]. cbn [andb].
    cbn [depth_le] in Hd. specialize (Hd Hobj).
    destruct (isObject_ref _ _ Hobj) as (l & -> & _).
    assert (∀ keys,
      (∀ k, k ∈ keys → k ∈ own_keys h (VRef l)) →
      forEach (merge_key (deepMerge fuel) (VRef l) (VRef l)) keys h = Ok h)
      as Hloop; [|by apply Hloop].
    induction keys as [|key keys IHk]; intros Hsub; [done|].
    assert (merge_key (deepMerge fuel) (VRef l) (VRef l) h key = Ok h)
      as Hstep.
    { unfold merge_key. lazy zeta.
      destruct (isObject h (get_prop h (VRef l) key)) eqn:Hsv.
      - destruct (isObject_ref _ _ Hsv) as (l' & Hl' & _).
        rewrite Hl'. cbn [truthy negb orb].
        apply IH; [|lia].
        rewrite <-?Hl'. apply Hd, Hsub. left.
      - by rewrite set_prop_get_same by (done || apply Hsub; left). }
    cbn [forEach]. rewrite Hstep. cbn [mbind res_bind].
    apply IHk. intros k Hk. apply Hsub. by right.
Qed.

(** [{ a: { b: 1 } }] merged into itself. *)
Lemma deepMerge_self_witness :
  deepMerge 3 merge_heap (VRef 0%nat) (VRef 0%nat) = Ok merge_heap.
Proof.
  apply (deepMerge_self 2 merge_heap (VRef 0%nat) 3); [|lia].
  intros _ k Hk. apply list_elem_of_singleton in Hk as ->.
  intros _ k Hk. apply list_elem_of_singleton in Hk as ->. reflexivity.
Defined.

(** ** More on options: the two variants, and [setOptions] *)

Lemma getOptions2_longest registry name :
  _getOptions2 registry name = longest_registered_prefix registry name.
Proof.
  unfold _getOptions2, _findOptionsByName2, longest_registered_prefix,
    dotted_prefixes.
  set (tbl := foldl _ [] (candidate_names registry name)).
  rewrite (foldl_last_omap
             (λ index, assoc (join_dot (take index (split_dot name))) tbl)).
  assert (omap (λ index, assoc (join_dot (take index (split_dot name))) tbl)
               (seq 1 (length (split_dot name)))
          = omap (λ p, assoc p registry)
              (map (λ index, join_dot (take index (split_dot name)))
                   (seq 1 (length (split_dot name))))) as ->.
  { apply omap_map_ext, list.Forall_forall. intros i Hi%elem_of_seq.
    unfold tbl. by rewrite (assoc_candidates registry name i) by lia. }
  by destruct (list.last _).
Qed.

Lemma rule_default_spread r :
  rule_default (spread _defaultOptions r) = rule_default r.
Proof. unfold rule_default, spread. simpl. by destruct (defaultValue r). Qed.

(** A record registered under the very name asked for is the one found. *)
Lemma longest_registered_prefix_self registry name r :
  assoc name registry = Some r →
  longest_registered_prefix registry name = Some r.
Proof.
  intros Ha. apply longest_registered_prefix_spec.
  exists (length (split_dot name)).
  pose proof (split_dot_nonempty name) as Hne.
  split_and!.
  - destruct (split_dot name); [done|]. simpl. lia.
  - done.
  - by rewrite firstn_all, join_split.
  - intros longer Hl. lia.
Qed.

Lemma omap_ext_in {A B} (f g : A → option B) (l : list A) :
  (∀ x, x ∈ l → f x = g x) → omap f l = omap g l.
Proof.
  induction l as [|x l IH]; intros Hfg; [done|].
  cbn [omap list_omap]. rewrite (Hfg x) by left.
  change (list_omap A B f l) with (omap f l).
  change (list_omap A B g l) with (omap g l).
  rewrite IH; [done|]. intros y Hy. apply Hfg. by right.
Qed.

(** Registering under [name] is not seen from a path of which [name] is not
    a dotted prefix. *)
Lemma longest_registered_prefix_frame registry name r q :
  name ∉ dotted_prefixes q →
  longest_registered_prefix (assoc_set name r registry) q
  = longest_registered_prefix registry q.
Proof.
  intros Hq. unfold longest_registered_prefix. f_equal.
  apply omap_ext_in. intros p Hp. rewrite assoc_assoc_set.
  destruct (String.eqb_spec p name) as [->|]; [done|done].
Qed.

Lemma deepMerge_not_Throw fuel :
  ∀ h target source e, deepMerge fuel h target source ≠ Throw e.
Proof.
  induction fuel as [|fuel IH]; intros h target source e; [done|].
  cbn [deepMerge]. destruct (isObject h target && isObject h source); [|done].
  generalize (own_keys h source). intros keys. revert h.
  induction keys as [|key keys IHk]; intros h; [done|].
  cbn [forEach].
  assert (∀ e', merge_key (deepMerge fuel) target source h key ≠ Throw e')
    as Hstep.
  { intros e'. unfold merge_key. lazy zeta.
    destruct (isObject h (get_prop h source key)); [apply IH|done]. }
  destruct (merge_key (deepMerge fuel) target source h key) as [h1|e1|] eqn:Hm;
    cbn [mbind res_bind]; [apply IHk| |done].
  by destruct (Hstep e1).
Qed.

(** X10: the two variants of the class look up the same record, the one
    registered at the longest registered dotted prefix of the path.  The
    second returns it as it is, or [null]; the first lays it over the
    built-in defaults.  Both report the same default value for every
    registry and every path. *)
Theorem variants_same_default registry name :
  _getOptions2 registry name = longest_registered_prefix registry name
  ∧ _getOptions registry name
    = from_option (spread _defaultOptions) _defaultOptions
        (_getOptions2 registry name)
  ∧ _getDefaultValue2 registry name = _getDefaultValue registry name.
Proof.
  split_and!.
  - apply getOptions2_longest.
  - rewrite getOptions_longest, getOptions2_longest.
    by destruct (longest_registered_prefix registry name).
  - unfold _getDefaultValue2, _getDefaultValue.
    rewrite getOptions_longest, getOptions2_longest.
    destruct (longest_registered_prefix registry name) as [r|]; [|done].
    by rewrite rule_default_spread.
Qed.




(** ** More on [set]: who hears of a write, the empty path, what stays *)

Lemma dotted_prefix_sublist name p :
  p ∈ dotted_prefixes name → sublist (split_dot p) (split_dot name).
Proof.
  unfold dotted_prefixes.
  intros (i & -> & Hi%elem_of_seq)%list_elem_of_fmap.
  rewrite split_join.
  - apply sublist_take.
  - pose proof (split_dot_nonempty name).
    destruct (split_dot name); [done|]. by destruct i; [lia|].
  - apply Forall_take, split_dot_no_dot.
Qed.

Lemma descendant_not_sublist name x :
  ¬ sublist (split_dot (name +:+ "." +:+ x)) (split_dot name).
Proof.
  rewrite split_dot_app. intros Hs%sublist_length.
  rewrite length_app in Hs. pose proof (split_dot_nonempty x).
  destruct (split_dot x); [done|]. simpl in Hs. lia.
Qed.

Lemma descendant_ne name x : name +:+ "." +:+ x ≠ name.
Proof.
  intros Heq. apply (descendant_not_sublist name x). by rewrite Heq.
Qed.

Section Writes.
Context (E : Env).



(** X14: the empty path.  [set('', v)] is never suppressed, whatever
    [sameReferenceCheck] says: it compares the root object with the fresh
    patch.  It stores [v] under the key [''] of the root object, calls every
    live subscription, and afterwards [get('')] is still the root object,
    not [v]. *)
Theorem set_empty_path fuel h s v options h1 s1 w t :
  prepare E fuel h s "" v options = Ok (h1, s1, w) →
  isObject h1 w = false → valid h1 w →
  _data s1 = VRef t → isObject h1 (VRef t) = true →
  observers E s1 →
  (1 ≤ fuel)%nat →
  ∃ h2,
    set_path E fuel h s "" v options
    = Ok (h2, s1,
          if default true (opt_triggerSubscriptionCallback options)
          then map (notification h2 s1 (opt_self options)) (live s1)
          else [],
          ("", w))
    ∧ State_get h2 s1 "" = VRef t
    ∧ get_prop h2 (VRef t) "" = w.
Proof.
  intros Hprep Hnobj Hw Hd Hobj Hobs Hf.
  destruct (isObject_ref _ _ Hobj) as (? & [= <-] & Ht).
  apply isObject_cell in Hobj as [ps Hps].
  set (h' := h1 ++ [Cell KObject [("", w)]]).
  set (h2 := set_prop h' (VRef t) "" w).
  assert (h' !! t = Some (Cell KObject ps)) as Hps'
    by (unfold h'; by rewrite lookup_app_l).
  assert (h' !! length h1 = Some (Cell KObject [("", w)])) as Hc
    by (unfold h'; by rewrite list_lookup_middle).
  assert (h2 !! length h1 = Some (Cell KObject [("", w)])) as Hc2.
  { unfold h2. rewrite lookup_set_prop_ne; [done|]. intros [= ->]. lia. }
  assert (isObject h' w = false) as Hnobj'
    by (unfold h'; by rewrite isObject_app).
  exists h2. split_and!.
  - unfold set_path. rewrite Hprep. cbn [mbind res_bind].
    unfold commit.
    change (encodePatch h1 (split_dot "") w) with (h', VRef (length h1)).
    cbv beta iota.
    assert (suppressed h' s1 "" (VRef (length h1)) = false) as ->.
    { unfold suppressed, _get. cbn [str_truthy String.eqb negb]. rewrite Hd.
      apply andb_false_iff. right. apply strict_eq_false. left.
      intros [= ->]. lia. }
    assert (deepMerge fuel h' (_data s1) (VRef (length h1)) = Ok h2) as ->.
    { destruct fuel as [|fuel]; [lia|]. rewrite Hd. cbn [deepMerge].
      assert (isObject h' (VRef t) = true) as ->
        by (apply isObject_cell; by eexists).
      assert (isObject h' (VRef (length h1)) = true) as ->
        by (apply isObject_cell; by eexists).
      cbn [andb]. rewrite (own_keys_cell _ _ _ _ Hc). cbn [fmap list_fmap fst].
      rewrite forEach_one. unfold merge_key.
      rewrite (get_prop_cell _ _ _ _ Hc). cbn [assoc String.eqb default].
      change (id w) with w. by rewrite Hnobj'. }
    cbn [mbind res_bind].
    destruct (default true (opt_triggerSubscriptionCallback options)); [|done].
    rewrite (trigger_observers E fuel h2 s1 "" (VRef (length h1))
               (opt_self options) [""]); [|done|].
    + cbn [mbind res_bind]. by rewrite filter_all.
    + apply (modifiedKeys_chain h2 (length h1) (length h1) "" w).
      * unfold h2. by rewrite isObject_set_prop.
      * by apply is_chain_last.
      * done.
  - unfold State_get, _get. by cbn [str_truthy String.eqb negb].
  - unfold h2. by eapply get_prop_set_prop_eq.
Qed.

End Writes.


(** [set('', 7)] on an empty tree with a subscriber to ["a"]. *)
Lemma set_empty_path_witness :
  ∃ h2,
    set_path sample_env 1 empty_heap (watching "a" 0) "" (VInt 7) no_options
    = Ok (h2, watching "a" 0,
          if default true (opt_triggerSubscriptionCallback no_options)
          then map (notification h2 (watching "a" 0) (opt_self no_options))
                   (live (watching "a" 0))
          else [],
          ("", VInt 7))
    ∧ State_get h2 (watching "a" 0) "" = VRef 0%nat
    ∧ get_prop h2 (VRef 0%nat) "" = VInt 7.
Proof.
  apply (set_empty_path sample_env 1 empty_heap (watching "a" 0) (VInt 7)
           no_options empty_heap (watching "a" 0) (VInt 7) 0).
  - reflexivity.
  - reflexivity.
  - exact I.
  - reflexivity.
  - reflexivity.
  - apply (observers_watching "a" empty_heap).
  - lia.
Defined.


(** ** More on the value transformer: the numeric types *)

Lemma parseInt_string_integer s :
  parseInt_string s = NaN ∨ ∃ z, parseInt_string s = num_of_Z z.
Proof.
  unfold parseInt_string.
  match goal with
  | |- context [let '(neg, s2) := ?e in _] => destruct e as [neg s2]
  end.
  match goal with
  | |- context [let '(radix, s3) := ?e in _] => destruct e as [radix s3]
  end.
  destruct (digits_prefix radix s3 None); eauto.
Qed.

Lemma nan_to_zero_number n : ∃ m, nan_to_zero n = VNum m ∧ isNaN m = false.
Proof. destruct n; by eexists. Qed.

Lemma nan_to_zero_fixed n : isNaN n = false → nan_to_zero n = VNum n.
Proof. by destruct n. Qed.

Section Numeric.
Context (E : Env).


(** X17: under type ['number'] or ['boolean'] without an allow-list, what
    the transformer gives is a fixed point of it: writing back the value
    that was stored stores the same value, whatever the value stored
    before. *)
Theorem number_and_boolean_coercion_idempotent
    h v oldValue oldValue' r h1 v1 :
  allowedValues r = None →
  type r = Some "number" ∨ type r = Some "boolean" →
  _transformValue E h v oldValue r = Ok (h1, v1) →
  _transformValue E h1 v1 oldValue' r = Ok (h1, v1).
Proof.
  intros Ha Ht. unfold _transformValue, coerce.
  destruct Ht as [Ht|Ht]; rewrite Ht.
  - intros Hrun. apply bind_Ok in Hrun as ([h2 v2] & Hco & Hrun).
    apply bind_Ok in Hco as (n & _ & Hco).
    rewrite allow_filter_absent in Hrun by done.
    destruct (nan_to_zero_number n) as (m & Hm & Hnan).
    assert (h1 = h ∧ v1 = VNum m) as [-> ->] by (split; congruence).
    cbn [Number mbind res_bind]. rewrite allow_filter_absent by done.
    by rewrite nan_to_zero_fixed.
  - cbn [mbind res_bind]. rewrite !allow_filter_absent by done.
    intros Hrun.
    assert (h1 = h ∧ v1 = VBool (_toBoolean v)) as [-> ->]
      by (split; congruence).
    by destruct (_toBoolean v).
Qed.
End Numeric.


(** [undefined] under type ['number'] is stored as [0], and [0] stays
    [0]. *)
Lemma number_and_boolean_coercion_idempotent_witness :
  _transformValue sample_env [] (VInt 0) VNull
    (Rule None (Some "number") None None None) = Ok ([], VInt 0).
Proof.
  apply (number_and_boolean_coercion_idempotent sample_env [] VUndef VUndef
           VNull (Rule None (Some "number") None None None) [] (VInt 0)).
  - reflexivity.
  - left. reflexivity.
  - reflexivity.
Defined.

(** ** Flattening, and the constructor *)

Lemma assoc_NoDup_elem {A} k (v : A) ps :
  NoDup ps.*1 → (k, v) ∈ ps → assoc k ps = Some v.
Proof.
  induction ps as [|[k' v'] ps IH]; intros Hnd Hin.
  - by apply elem_of_nil in Hin.
  - cbn [fmap list_fmap fst] in Hnd. apply list.NoDup_cons in Hnd as [Hk Hnd].
    cbn [assoc]. apply elem_of_cons in Hin as [[= -> ->]|Hin].
    + by rewrite String.eqb_refl.
    + destruct (String.eqb_spec k k') as [->|Hne]; [|by apply IH].
      destruct Hk. apply list_elem_of_fmap. by exists (k', v).
Qed.

Lemma assoc_set_keys {A} k (v : A) ps :
  (assoc_set k v ps).*1 = if decide (k ∈ ps.*1) then ps.*1 else ps.*1 ++ [k].
Proof.
  induction ps as [|[k' v'] ps IH].
  - cbn. case_decide as Hin; [by apply elem_of_nil in Hin|done].
  - cbn [assoc_set]. destruct (String.eqb_spec k k') as [->|Hne].
    + clear IH. rewrite !fmap_cons. cbn [fst].
      destruct (decide (k' ∈ k' :: ps.*1)) as [|Hn]; [done|].
      destruct Hn. left.
    + rewrite !fmap_cons. cbn [fst].
      rewrite IH. destruct (decide (k ∈ ps.*1)) as [Hin|Hn].
      * destruct (decide (k ∈ k' :: ps.*1)) as [|Hn']; [done|].
        destruct Hn'. by right.
      * destruct (decide (k ∈ k' :: ps.*1)) as [Hin'|]; [|done].
        apply elem_of_cons in Hin' as [->|Hin']; done.
Qed.

Lemma NoDup_assoc_set {A} k (v : A) ps :
  NoDup ps.*1 → NoDup (assoc_set k v ps).*1.
Proof.
  intros Hnd. rewrite assoc_set_keys. case_decide as Hn; [done|].
  apply list.NoDup_app. split_and!; [done| |apply NoDup_singleton].
  intros x Hx Hx'. apply list_elem_of_singleton in Hx' as ->. done.
Qed.

Lemma valid_resolve h segs data :
  wf_heap h → valid h data → valid h (resolve h segs data).
Proof.
  intros Hwf. revert data. induction segs as [|k rest IH]; intros data Hv;
    [done|].
  rewrite resolve_cons. apply IH.
  destruct (truthy data); [by apply valid_get_prop|done].
Qed.

Lemma own_entries_app h ext v :
  valid h v → own_entries (h ++ ext) v = own_entries h v.
Proof.
  destruct v as [| | | | |l|]; try done. simpl. intros Hl.
  by rewrite lookup_app_l.
Qed.

Lemma own_entries_valid h v k x :
  wf_heap h → (k, x) ∈ own_entries h v → valid h x.
Proof.
  intros Hwf. destruct v as [| | | |s|l|]; simpl;
    try (by intros Hin%elem_of_nil).
  - generalize 0%nat. induction s as [|a s IH]; intros i Hin; simpl in Hin.
    + by apply elem_of_nil in Hin.
    + apply elem_of_cons in Hin as [[= _ ->]|Hin]; [done|]. by eapply IH.
  - destruct (h !! l) as [c|] eqn:Hl; [|by intros Hin%elem_of_nil].
    intros Hin.
    pose proof (proj1 (list.Forall_forall _ _) Hwf _
                  (list_elem_of_lookup_2 _ _ _ Hl)) as Hcell.
    by apply (proj1 (list.Forall_forall _ _) Hcell (k, x)).
Qed.

(** Flattening does not look at objects allocated later. *)
Lemma flatten_app h ext fuel :
  wf_heap h →
  ∀ data prefix acc, valid h data →
    _objectToDotNotation fuel (h ++ ext) data prefix acc
    = _objectToDotNotation fuel h data prefix acc.
Proof.
  intros Hwf. induction fuel as [|fuel IH]; intros data prefix acc Hv; [done|].
  cbn [_objectToDotNotation]. rewrite own_entries_app by done.
  assert (∀ entries acc0,
    (∀ k x, (k, x) ∈ entries → valid h x) →
    forEach (flatten_entry (_objectToDotNotation fuel (h ++ ext)) (h ++ ext)
               prefix) entries acc0
    = forEach (flatten_entry (_objectToDotNotation fuel h) h prefix)
        entries acc0) as Hloop.
  { induction entries as [|[k x] entries IHe]; intros acc0 Hval; [done|].
    cbn [forEach].
    assert (flatten_entry (_objectToDotNotation fuel (h ++ ext)) (h ++ ext)
              prefix acc0 (k, x)
            = flatten_entry (_objectToDotNotation fuel h) h prefix acc0 (k, x))
      as ->.
    { unfold flatten_entry, isPlainObject.
      rewrite isObject_app by (apply (Hval k); left).
      destruct (isObject h x); [|done]. apply IH, (Hval k). left. }
    destruct (flatten_entry _ h prefix acc0 (k, x)); cbn [mbind res_bind];
      [|done..].
    apply IHe. intros k' x' Hin. apply (Hval k'). by right. }
  apply Hloop. intros k x. by apply own_entries_valid.
Qed.

(** What flattening an acyclic object with segment keys gives: it returns,
    with one entry per key, and every entry that was not there before is a
    path from the object, through plain objects, to a value that is not a
    plain object. *)
Lemma flatten_sound n :
  ∀ h data fuel prefix acc,
    isObject h data = true → depth_le n h data → segment_keys n h data →
    (n ≤ fuel)%nat →
    ∃ r, _objectToDotNotation fuel h data prefix acc = Ok r
      ∧ (NoDup acc.*1 → NoDup r.*1)
      ∧ ∀ k v, assoc k r = Some v →
          assoc k acc = Some v
          ∨ ∃ segs, segs ≠ [] ∧ Forall no_dot segs ∧ (length segs ≤ n)%nat
                    ∧ k = prefix +:+ join_dot segs
                    ∧ resolve h segs data = v ∧ isObject h v = false
                    ∧ leaf_at h data segs v.
Proof.
  induction n as [|n IH]; intros h data fuel prefix acc Hobj Hd Hk Hf.
  { cbn [depth_le] in Hd. congruence. }
  destruct fuel as [|fuel]; [lia|]. cbn [_objectToDotNotation].
  cbn [depth_le] in Hd. specialize (Hd Hobj).
  cbn [segment_keys] in Hk. destruct (Hk Hobj) as [Hnd Hkeys]. clear Hk.
  destruct (isObject_ref _ _ Hobj) as (l & -> & Hl).
  pose proof Hobj as Hroot.
  apply isObject_cell in Hobj as [ps Hps].
  rewrite (own_keys_cell _ _ _ _ Hps) in Hd, Hnd, Hkeys.
  rewrite (own_entries_cell _ _ _ _ Hps).
  assert (∀ entries acc0,
    (∀ e, e ∈ entries → e ∈ ps) →
    ∃ r, forEach (flatten_entry (_objectToDotNotation fuel h) h prefix)
           entries acc0 = Ok r
      ∧ (NoDup acc0.*1 → NoDup r.*1)
      ∧ ∀ k v, assoc k r = Some v →
          assoc k acc0 = Some v
          ∨ ∃ segs, segs ≠ [] ∧ Forall no_dot segs
                    ∧ (length segs ≤ S n)%nat
                    ∧ k = prefix +:+ join_dot segs
                    ∧ resolve h segs (VRef l) = v ∧ isObject h v = false
                    ∧ leaf_at h (VRef l) segs v)
    as Hloop; [|by apply Hloop].
  induction entries as [|[key val] entries IHe]; intros acc0 Hsub.
  { exists acc0. split_and!; [done|done|]. intros k v Ha. by left. }
  assert ((key, val) ∈ ps) as Hin by (apply Hsub; left).
  assert (key ∈ ps.*1) as Hkey
    by (apply list_elem_of_fmap; by exists (key, val)).
  assert (get_prop h (VRef l) key = val) as Hget.
  { rewrite (get_prop_cell _ _ _ _ Hps).
    by rewrite (assoc_NoDup_elem key val ps). }
  destruct (Hkeys key Hkey) as [Hnodot Hkval]. rewrite Hget in Hkval.
  pose proof (Hd key Hkey) as Hdval. rewrite Hget in Hdval.
  assert (∃ r1,
    flatten_entry (_objectToDotNotation fuel h) h prefix acc0 (key, val)
    = Ok r1
    ∧ (NoDup acc0.*1 → NoDup r1.*1)
    ∧ ∀ k v, assoc k r1 = Some v →
        assoc k acc0 = Some v
        ∨ ∃ segs, segs ≠ [] ∧ Forall no_dot segs
                  ∧ (length segs ≤ S n)%nat
                  ∧ k = prefix +:+ join_dot segs
                  ∧ resolve h segs (VRef l) = v ∧ isObject h v = false
                  ∧ leaf_at h (VRef l) segs v)
    as (r1 & Hstep & Hnd1 & Hr1).
  { unfold flatten_entry, isPlainObject.
    destruct (isObject h val) eqn:Hval.
    - destruct (IH h val fuel ((prefix +:+ key) +:+ ".") acc0)
        as (r1 & Hrun & Hnd1 & Hr1); [done|done|done|lia|].
      exists r1. split_and!; [done|done|].
      intros k v Ha. destruct (Hr1 k v Ha) as [?|(segs & Hne & Hno & Hlen
        & -> & Hres & Hleaf & Hpath)]; [by left|]. right.
      exists (key :: segs). split_and!; [done|by constructor|simpl; lia| |
        |done|].
      + destruct segs as [|x xs]; [done|].
        change (join_dot (key :: x :: xs))
          with (key +:+ "." +:+ join_dot (x :: xs)).
        by rewrite !append_assoc.
      + rewrite resolve_cons. cbn [truthy]. by rewrite Hget.
      + cbn [leaf_at]. rewrite (own_keys_cell _ _ _ _ Hps), Hget.
        split_and!; [done|done|]. by destruct segs.
    - exists (assoc_set (prefix +:+ key) val acc0).
      split_and!; [done|apply NoDup_assoc_set|].
      intros k v. rewrite assoc_assoc_set.
      destruct (String.eqb_spec k (prefix +:+ key)) as [->|Hne];
        [|by left].
      intros [= <-]. right. exists [key].
      split_and!; [done|by repeat constructor|simpl; lia|done| |done|].
      + rewrite resolve_cons. cbn [truthy]. by rewrite Hget.
      + cbn [leaf_at]. by rewrite (own_keys_cell _ _ _ _ Hps). }
  destruct (IHe r1) as (r & Hrun & Hnd2 & Hr).
  { intros e He. apply Hsub. by right. }
  exists r. split_and!.
  - cbn [forEach]. rewrite Hstep. by cbn [mbind res_bind].
  - intros Hnd0. by apply Hnd2, Hnd1.
  - intros k v Ha. destruct (Hr k v Ha) as [Ha1|?]; [|by right].
    by apply Hr1.
Qed.

(** X18: flattening then reading back.  [_objectToDotNotation] returns on
    every acyclic plain object whose keys have no dot; each key of the
    result occurs once, its value is not a plain object, and [_get] of that
    key in the object flattened is that value. *)
Theorem flatten_read_back n h data fuel :
  isObject h data = true → depth_le n h data → segment_keys n h data →
  (n ≤ fuel)%nat →
  ∃ r, _objectToDotNotation fuel h data "" [] = Ok r
    ∧ NoDup r.*1
    ∧ ∀ k v, (k, v) ∈ r →
        isPlainObject h v = false
        ∧ (length (split_dot k) ≤ n)%nat
        ∧ (k ≠ "" → _get h k data = v).
Proof.
  intros Hobj Hd Hk Hf.
  destruct (flatten_sound n h data fuel "" [] Hobj Hd Hk Hf)
    as (r & Hrun & Hnd & Hr).
  exists r. split_and!; [done|apply Hnd, NoDup_nil_2|].
  intros k v Hin.
  destruct (Hr k v)
    as [?|(segs & Hne & Hno & Hlen & -> & Hres & Hleaf & _)];
    [apply assoc_NoDup_elem; [apply Hnd, NoDup_nil_2|done]|done|].
  change ("" +:+ join_dot segs) with (join_dot segs).
  rewrite split_join by done. split_and!; [done|done|].
  intros Hk0. unfold _get.
  assert (str_truthy (join_dot segs) = true) as ->.
  { unfold str_truthy. by destruct (String.eqb_spec (join_dot segs) ""). }
  by rewrite split_join.
Qed.

Lemma two_branch_depth : depth_le 2 two_branch_heap (VRef 0%nat).
Proof.
  intros _ k Hk. vm_compute in Hk.
  apply elem_of_cons in Hk as [->|Hk].
  - intros _ k' Hk'. vm_compute in Hk'.
    apply list_elem_of_singleton in Hk' as ->. reflexivity.
  - apply list_elem_of_singleton in Hk as ->. intros Hc. discriminate Hc.
Qed.

Lemma two_branch_segment_keys : segment_keys 2 two_branch_heap (VRef 0%nat).
Proof.
  intros _. split.
  - vm_compute. apply list.NoDup_cons. split.
    + intros Hin. apply list_elem_of_singleton in Hin. discriminate.
    + apply NoDup_singleton.
  - intros k Hk. vm_compute in Hk.
    apply elem_of_cons in Hk as [->|Hk].
    + split; [reflexivity|]. intros _. split.
      * vm_compute. apply NoDup_singleton.
      * intros k' Hk'. vm_compute in Hk'.
        apply list_elem_of_singleton in Hk' as ->.
        split; [reflexivity|exact I].
    + apply list_elem_of_singleton in Hk as ->.
      split; [reflexivity|]. intros Hc. discriminate Hc.
Qed.

(** [{ a: { b: 0 }, c: 5 }] flattened. *)
Lemma flatten_read_back_witness :
  ∃ r, _objectToDotNotation 2 two_branch_heap (VRef 0%nat) "" [] = Ok r
    ∧ NoDup r.*1
    ∧ ∀ k v, (k, v) ∈ r →
        isPlainObject two_branch_heap v = false
        ∧ (length (split_dot k) ≤ 2)%nat
        ∧ (k ≠ "" → _get two_branch_heap k (VRef 0%nat) = v).
Proof.
  apply (flatten_read_back 2 two_branch_heap (VRef 0%nat) 2).
  - reflexivity.
  - apply two_branch_depth.
  - apply two_branch_segment_keys.
  - lia.
Defined.

(** *** The constructor *)

Lemma wf_heap_alloc_empty h : wf_heap h → wf_heap (h ++ [Cell KObject []]).
Proof.
  intros Hwf. apply wf_heap_intro. intros l c k v Hl Hin.
  apply lookup_app_Some in Hl as [Hl|[_ Hl]].
  - apply (valid_mono h); [rewrite length_app; lia|].
    pose proof (proj1 (list.Forall_forall _ _) Hwf _
                  (list_elem_of_lookup_2 _ _ _ Hl)) as Hcell.
    by apply (proj1 (list.Forall_forall _ _) Hcell (k, v)).
  - apply list_lookup_singleton_Some in Hl as [_ <-].
    by apply elem_of_nil in Hin.
Qed.

(** [setOptions] with a default that is not a plain object returns. *)
Lemma setOptions_returns fuel h s name r t :
  wf_heap h → _data s = VRef t → isObject h (VRef t) = true →
  valid h (rule_default r) → isObject h (rule_default r) = false →
  (length (split_dot name) ≤ fuel)%nat →
  ∃ h',
    State_setOptions fuel h s name r
    = Ok (h', MkState (_data s) (assoc_set name r (_options s))
                      (_subscriptions s) (_nextId s))
    ∧ wf_heap h' ∧ (length h ≤ length h')%nat
    ∧ ∀ x, valid h x → isObject h' x = isObject h x.
Proof.
  intros Hwf Hd Hobj Hw Hnobj Hf.
  destruct (isObject_ref _ _ Hobj) as (? & [= <-] & Ht).
  unfold State_setOptions.
  destruct (negb (strict_eq (rule_default r) VUndef) && _).
  2: { exists h. split_and!; done. }
  destruct (encodePatch_spec h (split_dot name) (rule_default r)
              (split_dot_nonempty name)) as (ext & c & Henc & Hch).
  destruct (wf_heap_encodePatch _ _ _ _ _ Hwf Hw Henc) as (Hwf' & _ & _).
  assert (isObject (h ++ ext) (rule_default r) = false) as Hnobj'
    by (by rewrite isObject_app).
  assert (isObject (h ++ ext) (VRef t) = true) as Hobj'
    by (by rewrite isObject_app).
  destruct (merge_chain (h ++ ext) (length h) (split_dot name)
              (rule_default r) Hnobj'
              (closed_below_app h ext Hwf) t c fuel Hch Ht Hobj' Hf)
    as (t' & k & rest & c' & Hdesc & Hch' & Ht' & Hobj'' & Hmerge).
  rewrite Henc. cbn [_data]. rewrite Hd, Hmerge. cbn [mbind res_bind].
  eexists. split; [done|]. split_and!.
  - apply wf_heap_set_prop; [done|].
    apply valid_get_prop; [done|]. simpl.
    apply is_chain_isObject, isObject_ref in Hch' as (? & [= <-] & ?).
    done.
  - rewrite set_prop_length, length_app. lia.
  - intros x Hx. by rewrite isObject_set_prop, isObject_app.
Qed.

(** The loop of [_setDefaults]. *)
Lemma setDefaults_loop fuel t :
  ∀ entries h s,
    wf_heap h → _data s = VRef t → isObject h (VRef t) = true →
    (∀ k v, (k, v) ∈ entries →
       valid h v ∧ isObject h v = false
       ∧ (length (split_dot k) ≤ fuel)%nat) →
    ∃ h' s',
      forEach (λ '(h, s) '(key, v),
                 State_setOptions fuel h s key
                   (Rule (Some v) None None None None))
              entries (h, s) = Ok (h', s')
      ∧ wf_heap h' ∧ isObject h' (VRef t) = true
      ∧ _data s' = VRef t ∧ _subscriptions s' = _subscriptions s
      ∧ _options s' =
        foldl (λ reg '(k, v), assoc_set k (default_rule v) reg)
              (_options s) entries.
Proof.
  induction entries as [|[key v] entries IH]; intros h s Hwf Hd Hobj Hent.
  { exists h, s. split_and!; done. }
  destruct (Hent key v) as (Hv & Hnobj & Hlen); [left|].
  destruct (isObject_ref _ _ Hobj) as (? & [= <-] & Ht).
  destruct (setOptions_returns fuel h s key (default_rule v) t)
    as (h1 & Hrun & Hwf1 & Hlen1 & Hobj1); try done.
  set (s1 := MkState (_data s) (assoc_set key (default_rule v) (_options s))
                     (_subscriptions s) (_nextId s)) in Hrun.
  destruct (IH h1 s1) as (h' & s' & Hloop & Hwf' & Hobj' & Hd' & Hsubs & Hopts);
    try done.
  - by rewrite Hobj1.
  - intros k x Hin. destruct (Hent k x) as (Hx & Hnx & Hlx); [by right|].
    split_and!; [by eapply valid_mono|by rewrite Hobj1|done].
  - exists h', s'. split_and!; try done.
    cbn [forEach]. unfold default_rule in Hrun. rewrite Hrun.
    by cbn [mbind res_bind].
Qed.

Lemma assoc_register_defaults entries :
  ∀ (reg : list (string * rule)) k,
    NoDup entries.*1 →
    assoc k (foldl (λ reg '(k, v), assoc_set k (default_rule v) reg)
                   reg entries)
    = match assoc k entries with
      | Some v => Some (default_rule v)
      | None => assoc k reg
      end.
Proof.
  induction entries as [|[k1 v1] entries IH]; intros reg k Hnd; [done|].
  rewrite fmap_cons in Hnd. cbn [fst] in Hnd.
  apply list.NoDup_cons in Hnd as [Hk1 Hnd].
  cbn [foldl assoc]. rewrite IH by done. rewrite assoc_assoc_set.
  destruct (String.eqb_spec k k1) as [->|Hne]; [|done].
  apply assoc_None_keys in Hk1. by rewrite Hk1.
Qed.



(** ** Function-valued writes *)

Section FunctionWrite.
Context (E : Env).

Lemma transform_none h v oldValue r :
  type r = None → allowedValues r = None →
  _transformValue E h v oldValue r = Ok (h, v).
Proof.
  intros Ht Ha. unfold _transformValue, coerce. rewrite Ht.
  cbn [mbind res_bind]. by rewrite allow_filter_absent.
Qed.

End FunctionWrite.


(** ** The tree that the constructor builds *)

Lemma below_valid n h v : (n ≤ length h)%nat → below n v → valid h v.
Proof. destruct v; simpl; try done. lia. Qed.

Lemma get_prop_below n h x k :
  closed_below n h → below n x → below n (get_prop h x k).
Proof.
  intros Hcl Hx. destruct x as [| | | | s |l|]; try done.
  - simpl. destruct (String.eqb k "length"); [done|].
    destruct (assoc k (str_chars s 0)) as [v|] eqn:Ha; [|done]. simpl.
    apply assoc_Some_elem in Ha. revert Ha. generalize 0%nat.
    induction s as [|a s IH]; intros i Hin; simpl in Hin.
    + by apply elem_of_nil in Hin.
    + apply elem_of_cons in Hin as [[= _ ->]|Hin]; [done|]. by eapply IH.
  - simpl in Hx. unfold get_prop.
    destruct (h !! l) as [[kd ps]|] eqn:Hl; [|done].
    assert (∀ v, assoc k ps = Some v → below n v) as Hps.
    { intros v Ha. destruct v; try done. simpl. by eapply (Hcl l _ k). }
    destruct kd; cbn [props]; try (destruct (String.eqb k "length"); [done|]);
      (destruct (assoc k ps) as [v|] eqn:Ha; [by apply Hps|done]).
Qed.

Lemma get_prop_agree h h' x k :
  (∀ l, x = VRef l → h' !! l = h !! l) →
  get_prop h' x k = get_prop h x k.
Proof.
  intros Hag. destruct x as [| | | | |l|]; try done.
  unfold get_prop. by rewrite (Hag l).
Qed.

(** Reading from a value below [n] only reads below [n]. *)
Lemma resolve_below n h h' segs :
  closed_below n h → (∀ l, (l < n)%nat → h' !! l = h !! l) →
  ∀ x, below n x → resolve h' segs x = resolve h segs x.
Proof.
  intros Hcl Hag. induction segs as [|k rest IH]; intros x Hx; [done|].
  rewrite !resolve_cons.
  rewrite (get_prop_agree h h') by (intros l ->; by apply Hag).
  apply IH. destruct (truthy x); [by apply get_prop_below|done].
Qed.

Lemma NoDup_fst_eq {A B} (l : list (A * B)) x y1 y2 :
  NoDup l.*1 → (x, y1) ∈ l → (x, y2) ∈ l → y1 = y2.
Proof.
  induction l as [|[a b] l IH]; intros Hnd H1 H2.
  - by apply elem_of_nil in H1.
  - rewrite fmap_cons in Hnd. cbn [fst] in Hnd.
    apply list.NoDup_cons in Hnd as [Ha Hnd].
    apply elem_of_cons in H1 as [H1|H1];
      apply elem_of_cons in H2 as [H2|H2]; simplify_eq.
    + done.
    + destruct Ha. apply list_elem_of_fmap. by exists (a, y2).
    + destruct Ha. apply list_elem_of_fmap. by exists (a, y1).
    + by apply IH.
Qed.

(** *** Leaves *)

Lemma leaf_at_nonempty h data segs v : leaf_at h data segs v → segs ≠ [].
Proof. by destruct segs. Qed.

(** No leaf lies below another. *)
Lemma leaf_at_prefix h segs :
  ∀ data post v1 v2,
    leaf_at h data segs v1 → leaf_at h data (segs ++ post) v2 → post = [].
Proof.
  induction segs as [|k rest IH]; intros data post v1 v2 H1 H2; [done|].
  cbn [app leaf_at] in H1, H2.
  destruct H1 as (_ & _ & H1), H2 as (_ & _ & H2).
  destruct rest as [|k2 rest].
  - destruct H1 as [<- Hleaf]. destruct post as [|k2 post]; [done|].
    cbn [app] in H2. destruct H2 as [Hobj _]. congruence.
  - by apply (IH (get_prop h data k) post v1 v2).
Qed.

(** *** Chains *)

(** The chain that starts at an object is determined by the object. *)
Lemma is_chain_functional h n segs1 :
  ∀ c segs2 w1 w2,
    is_chain h n c segs1 w1 → is_chain h n c segs2 w2 →
    isObject h w1 = false → isObject h w2 = false →
    segs1 = segs2.
Proof.
  induction segs1 as [|k1 rest1 IH]; intros c segs2 w1 w2 H1 H2 Hw1 Hw2;
    [done|].
  destruct segs2 as [|k2 rest2]; [done|].
  destruct rest1 as [|k1' rest1], rest2 as [|k2' rest2].
  - apply is_chain_last in H1 as [_ H1]. apply is_chain_last in H2 as [_ H2].
    congruence.
  - apply is_chain_last in H1 as [_ H1].
    apply is_chain_cons in H2 as (_ & c' & H2 & Hc').
    assert (w1 = VRef c') as -> by congruence.
    apply is_chain_isObject in Hc'. congruence.
  - apply is_chain_last in H2 as [_ H2].
    apply is_chain_cons in H1 as (_ & c' & H1 & Hc').
    assert (w2 = VRef c') as -> by congruence.
    apply is_chain_isObject in Hc'. congruence.
  - apply is_chain_cons in H1 as (_ & c1 & H1 & Hc1).
    apply is_chain_cons in H2 as (_ & c2 & H2 & Hc2).
    assert (k1 = k2 ∧ c1 = c2) as [-> ->] by (split; congruence).
    f_equal. by apply (IH c2 (k2' :: rest2) w1 w2).
Qed.

Lemma chain_nodes_head h c p k rest : (c, p) ∈ chain_nodes h c p (k :: rest).
Proof. cbn [chain_nodes]. left. Qed.

(** What [chain_nodes] lists: the objects of the chain, each with the part
    of the chain that starts there, and with each object but the last the
    next one. *)
Lemma chain_nodes_spec h n w segs :
  ∀ c p l q,
    is_chain h n c segs w →
    (l, q) ∈ chain_nodes h c p segs →
    ∃ pre post, segs = pre ++ post ∧ post ≠ [] ∧ q = p ++ pre
                ∧ is_chain h n l post w
                ∧ resolve h pre (VRef c) = VRef l
                ∧ ∀ kk kk2 post2 l2,
                    post = kk :: kk2 :: post2 →
                    get_prop h (VRef l) kk = VRef l2 →
                    (l2, q ++ [kk]) ∈ chain_nodes h c p segs.
Proof.
  induction segs as [|k rest IH]; intros c p l q Hch Hin.
  { by apply elem_of_nil in Hin. }
  cbn [chain_nodes] in Hin. apply elem_of_cons in Hin as [[= -> ->]|Hin].
  { exists [], (k :: rest). split_and!; try done; [by rewrite app_nil_r|].
    intros kk kk2 post2 l2 [= <- ->] Hl2. cbn [chain_nodes]. right.
    rewrite Hl2. apply chain_nodes_head. }
  destruct rest as [|k2 rest]; [by apply elem_of_nil in Hin|].
  apply is_chain_cons in Hch as (Hn & c' & Hc & Hch').
  assert (get_prop h (VRef c) k = VRef c') as Hget.
  { rewrite (get_prop_cell _ _ _ _ Hc). cbn [assoc].
    by rewrite String.eqb_refl. }
  rewrite Hget in Hin.
  destruct (IH c' (p ++ [k]) l q Hch' Hin)
    as (pre & post & Hsegs & Hpost & -> & Hl & Hres & Hnext).
  exists (k :: pre), post. split_and!; try done.
  - cbn [app]. by rewrite Hsegs.
  - by rewrite <-app_assoc.
  - rewrite resolve_cons. cbn [truthy]. by rewrite Hget.
  - intros kk kk2 post2 l2 Hp Hl2.
    change (chain_nodes h c p (k :: k2 :: rest))
      with ((c, p) :: match get_prop h (VRef c) k with
                      | VRef c' => chain_nodes h c' (p ++ [k]) (k2 :: rest)
                      | _ => []
                      end).
    right. rewrite Hget. by eapply Hnext.
Qed.

Lemma chain_nodes_NoDup h n w segs :
  ∀ c p, is_chain h n c segs w → isObject h w = false →
         NoDup (chain_nodes h c p segs).*1.
Proof.
  induction segs as [|k rest IH]; intros c p Hch Hw; [apply NoDup_nil_2|].
  cbn [chain_nodes]. rewrite fmap_cons. cbn [fst].
  apply list.NoDup_cons. destruct rest as [|k2 rest].
  { split; [by intros Hin%elem_of_nil|apply NoDup_nil_2]. }
  pose proof Hch as Hch0.
  apply is_chain_cons in Hch as (Hn & c' & Hc & Hch').
  rewrite (get_prop_cell _ _ _ _ Hc).
  cbn [assoc]. rewrite String.eqb_refl. cbn [default from_option id].
  split; [|by apply IH].
  intros ([l q] & Hl & Hin)%list_elem_of_fmap. cbn [fst] in Hl. subst l.
  destruct (chain_nodes_spec h n w (k2 :: rest) c' (p ++ [k]) c q Hch' Hin)
    as (pre & post & Hsegs & Hpost & _ & Hchc & _ & _).
  pose proof (is_chain_functional h n _ c _ w w Hch0 Hchc Hw Hw) as Heq.
  apply (f_equal length) in Heq, Hsegs.
  rewrite length_app in Hsegs. simpl in Heq, Hsegs. lia.
Qed.

(** *** Reading in the tree *)

Section Tree.
Context (n : nat) (h : heap) (t : loc) (nodes : list (loc * list string))
        (leaves : list (list string * value)).
Hypothesis Hinv : tree_inv n h t nodes leaves.

Lemma tree_node_object l p :
  (l, p) ∈ nodes →
  (n ≤ l)%nat ∧ (l < length h)%nat ∧ isObject h (VRef l) = true.
Proof.
  intros Hin. destruct (ti_node _ _ _ _ _ Hinv l p Hin)
    as (Hn & _ & ps & Hps & _).
  split_and!; [done|by eapply lookup_lt_Some|].
  apply isObject_cell. by eexists.
Qed.

Lemma tree_size : (n ≤ length h)%nat.
Proof.
  destruct (tree_node_object t [] (ti_root _ _ _ _ _ Hinv)) as (? & ? & _).
  lia.
Qed.

(** What a key of an object of the tree holds: nothing, an object of the
    tree, or a leaf. *)
Lemma tree_child l p k :
  (l, p) ∈ nodes →
  (∃ ps, h !! l = Some (Cell KObject ps) ∧ assoc k ps = None
         ∧ get_prop h (VRef l) k = VUndef)
  ∨ (∃ l', get_prop h (VRef l) k = VRef l' ∧ isObject h (VRef l') = true
           ∧ (l', p ++ [k]) ∈ nodes)
  ∨ (isObject h (get_prop h (VRef l) k) = false
     ∧ below n (get_prop h (VRef l) k)
     ∧ (p ++ [k], get_prop h (VRef l) k) ∈ leaves).
Proof.
  intros Hin. destruct (ti_node _ _ _ _ _ Hinv l p Hin)
    as (_ & _ & ps & Hps & Hcls).
  rewrite (get_prop_cell _ _ _ _ Hps).
  destruct (assoc k ps) as [x|] eqn:Ha; cbn [default from_option id].
  - specialize (Hcls k x Ha). destruct (isObject h x) eqn:Hx.
    + destruct Hcls as (l' & -> & Hl'). right. left. by exists l'.
    + right. right. by destruct Hcls.
  - left. by exists ps.
Qed.

Lemma tree_resolve_absent t' p' k q :
  (t', p') ∈ nodes → get_prop h (VRef t') k = VUndef →
  resolve h (p' ++ k :: q) (VRef t) = VUndef.
Proof.
  intros Hin Hk. destruct (ti_node _ _ _ _ _ Hinv t' p' Hin) as (_ & Hres & _).
  rewrite resolve_app_segs, Hres, resolve_cons. cbn [truthy].
  by rewrite Hk, resolve_undefined.
Qed.

(** A path that reads something in the tree runs along a leaf path, or a
    leaf path runs along it. *)
Lemma tree_resolve_defined segs :
  ∀ l p, (l, p) ∈ nodes → segs ≠ [] →
    resolve h segs (VRef l) ≠ VUndef →
    ∃ q v, (q, v) ∈ leaves
           ∧ (q `prefix_of` p ++ segs ∨ p ++ segs `prefix_of` q).
Proof.
  induction segs as [|k rest IH]; intros l p Hin Hne Hres; [done|].
  rewrite resolve_cons in Hres. cbn [truthy] in Hres.
  destruct (tree_child l p k Hin)
    as [(ps & _ & _ & Hk)|[(l' & Hk & Hobj & Hl')|(Hobj & Hb & Hleaf)]].
  - rewrite Hk, resolve_undefined in Hres. done.
  - rewrite Hk in Hres. destruct rest as [|k2 rest].
    + destruct (ti_inner _ _ _ _ _ Hinv l' (p ++ [k]) Hl')
        as (q & v & Hq & Hpre & _); [by destruct p|].
      exists q, v. split; [done|]. by right.
    + destruct (IH l' (p ++ [k]) Hl') as (q & v & Hq & Hcmp); [done|done|].
      exists q, v. split; [done|]. by rewrite <-app_assoc in Hcmp.
  - exists (p ++ [k]), (get_prop h (VRef l) k). split; [done|]. left.
    exists rest. by rewrite <-app_assoc.
Qed.

(** Where [descend] stops in the tree. *)
Lemma tree_descend segs :
  ∀ l p, (l, p) ∈ nodes →
    ∃ pre t' rest',
      descend h l segs = (t', rest') ∧ segs = pre ++ rest'
      ∧ (t', p ++ pre) ∈ nodes
      ∧ ∀ k k2 rest2, rest' = k :: k2 :: rest2 →
          isObject h (get_prop h (VRef t') k) = false.
Proof.
  induction segs as [|k rest IH]; intros l p Hin.
  { exists [], l, []. split_and!; try done. by rewrite app_nil_r. }
  destruct rest as [|k2 rest].
  { exists [], l, [k]. split_and!; try done. by rewrite app_nil_r. }
  destruct (tree_child l p k Hin)
    as [(ps & _ & _ & Hk)|[(l' & Hk & Hobj & Hl')|(Hobj & Hb & Hleaf)]].
  - exists [], l, (k :: k2 :: rest). split_and!.
    + apply descend_stop. by rewrite Hk.
    + done.
    + by rewrite app_nil_r.
    + intros ? ? ? [= <- <- <-]. by rewrite Hk.
  - destruct (IH l' (p ++ [k]) Hl') as (pre & t' & rest' & Hd & Hsegs & Ht' & Hstop).
    exists (k :: pre), t', rest'. split_and!.
    + by rewrite (descend_step _ _ _ _ _ _ Hk Hobj).
    + cbn [app]. by rewrite <-Hsegs.
    + by rewrite <-app_assoc in Ht'.
    + done.
  - exists [], l, (k :: k2 :: rest). split_and!.
    + by apply descend_stop.
    + done.
    + by rewrite app_nil_r.
    + by intros ? ? ? [= <- <- <-].
Qed.

(** A write to one key of one object of the tree does not show on a path
    that does not go through that key. *)
Lemma tree_frame ext t' p' k val q :
  (t', p') ∈ nodes →
  ∀ l p, (l, p) ∈ nodes → ¬ (p' ++ [k] `prefix_of` p ++ q) →
    resolve (set_prop (h ++ ext) (VRef t') k val) q (VRef l)
    = resolve h q (VRef l).
Proof.
  intros Ht'. pose proof tree_size as Hsize.
  destruct (tree_node_object t' p' Ht') as (Hnt' & Hlt' & Hobjt').
  apply isObject_cell in Hobjt' as [ps' Hps'].
  assert ((h ++ ext) !! t' = Some (Cell KObject ps')) as Hps''
    by (by rewrite lookup_app_l).
  induction q as [|k1 q IH]; intros l p Hin Hpre; [done|].
  rewrite !resolve_cons. cbn [truthy].
  destruct (tree_node_object l p Hin) as (Hnl & Hll & Hobjl).
  assert (get_prop (set_prop (h ++ ext) (VRef t') k val) (VRef l) k1
          = get_prop h (VRef l) k1) as ->.
  { rewrite (get_prop_set_prop_ne _ _ _ _ _ _ _ Hps'').
    - by rewrite get_prop_app.
    - destruct (decide (l = t')) as [->|Hne]; [|left; congruence].
      right. intros ->. apply Hpre.
      rewrite (NoDup_fst_eq nodes t' p p' (ti_nodup _ _ _ _ _ Hinv) Hin Ht').
      exists q. by rewrite <-app_assoc. }
  destruct (tree_child l p k1 Hin)
    as [(ps & _ & _ & Hk)|[(l' & Hk & Hobj & Hl')|(Hobj & Hb & Hleaf)]].
  - by rewrite Hk, !resolve_undefined.
  - rewrite Hk. apply (IH l' (p ++ [k1]) Hl'). by rewrite <-app_assoc.
  - apply (resolve_below n); [apply (ti_closed _ _ _ _ _ Hinv)| |done].
    intros l0 Hl0. rewrite lookup_set_prop_ne by (intros [= ->]; lia).
    rewrite lookup_app_l; [done|lia].
Qed.
(** The objects met when descending in the tree are objects of the tree,
    each at the path descended so far; none is met twice. *)
Lemma tree_spine segs :
  ∀ l p i l', (l, p) ∈ nodes → spine h l segs !! i = Some l' →
    (l', p ++ take i segs) ∈ nodes ∧ (i = 0 ∨ i < length segs)%nat.
Proof.
  induction segs as [|k rest IH]; intros l p i l' Hin Hi.
  { destruct i as [|i]; [|done]. cbn in Hi. simplify_eq.
    rewrite app_nil_r. split; [done|by left]. }
  destruct rest as [|k2 rest].
  { destruct i as [|i]; [|done]. cbn in Hi. simplify_eq.
    rewrite app_nil_r. split; [done|by left]. }
  destruct i as [|i].
  { cbn in Hi. simplify_eq. rewrite app_nil_r. split; [done|by left]. }
  cbn [spine lookup list_lookup] in Hi.
  destruct (tree_child l p k Hin)
    as [(ps & _ & _ & Hk)|[(l1 & Hk & Hobj & Hl1)|(Hobj & Hb & Hleaf)]].
  - by rewrite Hk in Hi.
  - rewrite Hk, Hobj in Hi.
    destruct (IH l1 (p ++ [k]) i l' Hl1 Hi) as [Hnode Hlen].
    split; [|simpl in *; lia].
    by rewrite <-app_assoc in Hnode.
  - destruct (get_prop h (VRef l) k) as [| | | | |t1|]; try done.
    by rewrite Hobj in Hi.
Qed.

Lemma tree_spine_NoDup segs : NoDup (spine h t segs).
Proof.
  apply NoDup_alt. intros i j x Hi Hj.
  destruct (tree_spine segs t [] i x (ti_root _ _ _ _ _ Hinv) Hi)
    as [Hni Hli].
  destruct (tree_spine segs t [] j x (ti_root _ _ _ _ _ Hinv) Hj)
    as [Hnj Hlj].
  cbn [app] in Hni, Hnj.
  pose proof (NoDup_fst_eq nodes x _ _ (ti_nodup _ _ _ _ _ Hinv) Hni Hnj)
    as Heq.
  apply (f_equal length) in Heq. rewrite !length_take in Heq. lia.
Qed.
End Tree.

(** One step of [_setDefaults] on the tree: a default that is not
    [undefined], at a path that lies along no leaf path and along which no
    leaf path lies, is merged in as a new leaf. *)
Lemma tree_step n h t nodes leaves fuel s name w :
  tree_inv n h t nodes leaves → _data s = VRef t →
  str_truthy name = true →
  w ≠ VUndef → isObject h w = false → below n w →
  (∀ q v, (q, v) ∈ leaves →
          ¬ q `prefix_of` split_dot name ∧ ¬ split_dot name `prefix_of` q) →
  (length (split_dot name) ≤ fuel)%nat →
  ∃ h' nodes',
    State_setOptions fuel h s name (default_rule w)
    = Ok (h', MkState (_data s)
                      (assoc_set name (default_rule w) (_options s))
                      (_subscriptions s) (_nextId s))
    ∧ tree_inv n h' t nodes' (leaves ++ [(split_dot name, w)])
    ∧ (length h ≤ length h')%nat
    ∧ ∀ x, valid h x → isObject h' x = isObject h x.
Proof.
  intros Hinv Hd Hname Hw Hnobj Hb Hapart Hf.
  pose proof (tree_size _ _ _ _ _ Hinv) as Hsize.
  pose proof (ti_wf _ _ _ _ _ Hinv) as Hwf.
  pose proof (ti_root _ _ _ _ _ Hinv) as Hroot.
  destruct (tree_node_object _ _ _ _ _ Hinv t [] Hroot)
    as (Hnt & Hlt & Hobjt).
  assert (valid h w) as Hvw by (by apply (below_valid n)).
  assert (resolve h (split_dot name) (VRef t) = VUndef) as Hundef.
  { destruct (decide (resolve h (split_dot name) (VRef t) = VUndef))
      as [|Hne]; [done|].
    destruct (tree_resolve_defined _ _ _ _ _ Hinv (split_dot name) t []
                Hroot (split_dot_nonempty name) Hne) as (q & v & Hq & Hcmp).
    destruct (Hapart q v Hq) as [H1 H2]. by destruct Hcmp. }
  destruct (tree_descend _ _ _ _ _ Hinv (split_dot name) t [] Hroot)
    as (p' & t' & rest' & Hdesc & Hsegs & Ht' & Hstop).
  cbn [app] in Ht'.
  destruct (encodePatch_spec h (split_dot name) w (split_dot_nonempty name))
    as (ext & c & Henc & Hch).
  destruct (wf_heap_encodePatch _ _ _ _ _ Hwf Hvw Henc) as (Hwf' & _ & _).
  assert (isObject (h ++ ext) w = false) as Hnobj'
    by (by rewrite isObject_app).
  assert (isObject (h ++ ext) (VRef t) = true) as Hobj'
    by (by rewrite isObject_app).
  destruct (merge_chain (h ++ ext) (length h) (split_dot name) w Hnobj'
              (closed_below_app h ext Hwf) t c fuel Hch Hlt Hobj' Hf)
    as (t'' & k & rest & c' & Hdesc' & Hch' & Ht'' & Hobj'' & Hmerge).
  rewrite descend_app in Hdesc' by done.
  assert (t'' = t' ∧ rest' = k :: rest) as [-> ->] by (split; congruence).
  clear Hdesc' Hobj'' Ht''.
  destruct (tree_node_object _ _ _ _ _ Hinv t' p' Ht')
    as (Hnt' & Hlt' & Hobjt').
  (* the key written is a new key *)
  assert (get_prop h (VRef t') k = VUndef) as Hk.
  { destruct (tree_child _ _ _ _ _ Hinv t' p' k Ht')
      as [(ps & _ & _ & Hk)|[(l' & Hk & Hobj & Hl')|(Hobj & Hbx & Hleaf)]].
    - done.
    - exfalso. destruct rest as [|k2 rest].
      + destruct (ti_inner _ _ _ _ _ Hinv l' (p' ++ [k]) Hl')
          as (q & v & Hq & Hpre & _); [by destruct p'|].
        destruct (Hapart q v Hq) as [_ H2]. apply H2. by rewrite Hsegs.
      + specialize (Hstop k k2 rest eq_refl). rewrite Hk in Hstop.
        congruence.
    - exfalso. destruct (Hapart _ _ Hleaf) as [H1 _]. apply H1.
      rewrite Hsegs. exists rest. by rewrite <-app_assoc. }
  apply isObject_cell in Hobjt' as [ps' Hps'].
  assert ((h ++ ext) !! t' = Some (Cell KObject ps')) as Hps''
    by (by rewrite lookup_app_l).
  set (val := get_prop (h ++ ext) (VRef c') k) in *.
  set (h' := set_prop (h ++ ext) (VRef t') k val) in *.
  assert (∀ x, valid h x → isObject h' x = isObject h x) as Hobjs.
  { intros x Hx. unfold h'. by rewrite isObject_set_prop, isObject_app. }
  assert (is_chain h' (length h) c' (k :: rest) w) as Hch2
    by (by apply is_chain_set_prop).
  assert (valid (h ++ ext) val) as Hval.
  { apply valid_get_prop; [done|]. simpl.
    apply is_chain_isObject, isObject_ref in Hch' as (? & [= <-] & ?).
    done. }
  assert (wf_heap h') as Hwf2 by (by apply wf_heap_set_prop).
  assert (length h ≤ length h')%nat as Hlen.
  { unfold h'. rewrite set_prop_length, length_app. lia. }
  assert (get_prop h' (VRef t') k = val) as Hgetk
    by (by apply (get_prop_set_prop_eq _ _ ps')).
  assert (∀ l, (l < length h)%nat → l ≠ t' → h' !! l = h !! l) as Hsame.
  { intros l Hl Hne. unfold h'.
    rewrite lookup_set_prop_ne by congruence. by rewrite lookup_app_l. }
  assert (h' !! t' = Some (Cell KObject (assoc_set k val ps'))) as Hcell'.
  { unfold h', set_prop. rewrite Hps''. cbn [kind props].
    apply list_lookup_insert_eq. by eapply lookup_lt_Some. }
  (* what is read along old paths *)
  assert (∀ q l p, (l, p) ∈ nodes → ¬ (p' ++ [k] `prefix_of` p ++ q) →
            resolve h' q (VRef l) = resolve h q (VRef l)) as Hframe.
  { intros q l p Hin Hpre.
    by apply (tree_frame _ _ _ _ _ Hinv ext t' p' k val q Ht' l p). }
  assert (∀ q, resolve h q (VRef t) ≠ VUndef →
            resolve h' q (VRef t) = resolve h q (VRef t)) as Hkeep.
  { intros q Hq. apply (Hframe q t [] Hroot). intros [q2 Hpre].
    cbn [app] in Hpre. apply Hq. rewrite Hpre, <-app_assoc.
    by apply (tree_resolve_absent _ _ _ _ _ Hinv t' p' k q2). }
  assert (resolve h' p' (VRef t) = VRef t') as Hrest'.
  { destruct (ti_node _ _ _ _ _ Hinv t' p' Ht') as (_ & Hres & _).
    rewrite Hkeep; [done|]. by rewrite Hres. }
  (* the new objects *)
  destruct (chain_head _ _ _ _ _ _ Hch2) as [_ Hhead].
  assert (get_prop h' (VRef c') k = val) as Hval'.
  { unfold val. apply is_chain_ge in Hch'.
    rewrite (get_prop_agree (h ++ ext) h'); [done|].
    intros l [= <-]. unfold h'. apply lookup_set_prop_ne.
    intros [= ->]. lia. }
  rewrite Hval' in Hhead.
  set (ns := match rest with
             | [] => []
             | _ => match val with
                    | VRef c'' => chain_nodes h' c'' (p' ++ [k]) rest
                    | _ => []
                    end
             end).
  assert (resolve h' rest val = w) as Hresw.
  { destruct rest as [|k2 rest]; [done|].
    destruct Hhead as (c'' & -> & Hc''). by eapply resolve_chain. }
  assert (isObject h' w = false) as Hnobj2 by (by rewrite Hobjs).
  assert (∀ l q, (l, q) ∈ ns →
            (length h ≤ l)%nat
            ∧ ∃ pre post, rest = pre ++ post ∧ post ≠ []
                ∧ q = (p' ++ [k]) ++ pre
                ∧ is_chain h' (length h) l post w
                ∧ resolve h' pre val = VRef l
                ∧ ∀ kk kk2 post2 l2,
                    post = kk :: kk2 :: post2 →
                    get_prop h' (VRef l) kk = VRef l2 →
                    (l2, q ++ [kk]) ∈ ns) as Hns.
  { intros l q Hin. unfold ns in *.
    destruct rest as [|k2 rest]; [by apply elem_of_nil in Hin|].
    destruct Hhead as (c'' & Hvc & Hc''). rewrite Hvc in Hin |- *.
    destruct (chain_nodes_spec _ _ _ _ _ _ _ _ Hc'' Hin)
      as (pre & post & Hr & Hpost & Hq & Hl & Hres & Hnext).
    split; [by eapply is_chain_ge|]. by exists pre, post. }
  assert (NoDup ns.*1) as Hnsnd.
  { unfold ns. destruct rest as [|k2 rest]; [apply NoDup_nil_2|].
    destruct Hhead as (c'' & -> & Hc'').
    by eapply chain_nodes_NoDup. }
  assert (isObject h' val = true →
          ∃ c'', val = VRef c'' ∧ (c'', p' ++ [k]) ∈ ns) as Hvalobj.
  { intros Hvo. unfold ns. destruct rest as [|k2 rest].
    - rewrite Hhead in Hvo. congruence.
    - destruct Hhead as (c'' & -> & Hc''). exists c''. split; [done|].
      apply chain_nodes_head. }
  assert (isObject h' val = false → rest = [] ∧ val = w) as Hvalleaf.
  { intros Hvo. destruct rest as [|k2 rest]; [done|].
    destruct Hhead as (c'' & Hvc & Hc''). rewrite Hvc in Hvo.
    apply is_chain_isObject in Hc''. congruence. }
  exists h', (nodes ++ ns). split_and!; [| |done|done].
  { unfold State_setOptions. unfold State_get, _get. cbn [_data].
    rewrite Hname, Hd, Hundef.
    change (rule_default (default_rule w)) with w.
    assert (strict_eq w VUndef = false) as ->
      by (apply strict_eq_false; by left).
    cbn [negb andb strict_eq]. rewrite bool_decide_eq_true_2 by done.
    rewrite Henc, Hmerge. by cbn [mbind res_bind]. }
  pose proof (ti_closed _ _ _ _ _ Hinv) as Hcl.
  constructor.
  - done.
  - intros l cc kk l' Hl Hcc Ha.
    rewrite Hsame in Hcc by lia. by eapply (Hcl l cc kk).
  - apply elem_of_app. by left.
  - rewrite fmap_app. apply list.NoDup_app. split_and!.
    + apply (ti_nodup _ _ _ _ _ Hinv).
    + intros l ([l0 p0] & -> & Hin0)%list_elem_of_fmap
        ([l1 p1] & Heq & Hin1)%list_elem_of_fmap.
      cbn [fst] in Heq. subst l1.
      destruct (tree_node_object _ _ _ _ _ Hinv l0 p0 Hin0) as (_ & ? & _).
      destruct (Hns l0 p1 Hin1) as [? _]. lia.
    + done.
  - intros l p [Hin|Hin]%elem_of_app.
    + destruct (ti_node _ _ _ _ _ Hinv l p Hin) as (Hnl & Hres & ps & Hps & Hcls).
      split; [done|]. split.
      { rewrite Hkeep; [done|]. by rewrite Hres. }
      assert (∀ k0 x, assoc k0 ps = Some x →
                if isObject h' x
                then ∃ l', x = VRef l' ∧ (l', p ++ [k0]) ∈ nodes ++ ns
                else below n x
                     ∧ (p ++ [k0], x) ∈ leaves ++ [(split_dot name, w)])
        as Hcls'.
      { intros k0 x Ha. specialize (Hcls k0 x Ha).
        rewrite Hobjs
          by (eapply wf_heap_lookup; [done..|by apply assoc_Some_elem]).
        destruct (isObject h x).
        - destruct Hcls as (l' & -> & Hl'). exists l'. split; [done|].
          apply elem_of_app. by left.
        - destruct Hcls as [? ?]. split; [done|]. apply elem_of_app.
          by left. }
      destruct (decide (l = t')) as [->|Hne].
      * assert (p = p') as ->
          by (by apply (NoDup_fst_eq nodes t' p p'
                          (ti_nodup _ _ _ _ _ Hinv))).
        assert (ps = ps') as -> by congruence.
        exists (assoc_set k val ps'). split; [done|].
        intros k0 x. rewrite assoc_assoc_set.
        destruct (String.eqb_spec k0 k) as [->|Hk0]; [|apply Hcls'].
        intros [= <-]. destruct (isObject h' val) eqn:Hvo.
        -- destruct (Hvalobj eq_refl) as (c'' & -> & Hc''). exists c''.
           split; [done|]. apply elem_of_app. by right.
        -- destruct (Hvalleaf eq_refl) as [Hr ->]. split; [done|].
           apply elem_of_app. right. apply list_elem_of_singleton.
           by rewrite Hsegs, Hr.
      * exists ps. split; [|done]. rewrite Hsame; [done| |done].
        by eapply lookup_lt_Some.
    + destruct (Hns l p Hin)
        as (Hl & pre & post & Hr & Hpost & -> & Hchl & Hres & Hnext).
      split; [lia|]. split.
      { rewrite !resolve_app_segs, Hrest'. rewrite resolve_cons.
        cbn [truthy resolve foldl]. by rewrite Hgetk. }
      destruct post as [|kk post]; [done|]. destruct post as [|kk2 post].
      * apply is_chain_last in Hchl as [_ Hcl0].
        exists [(kk, w)]. split; [done|]. intros k0 x. cbn [assoc].
        destruct (String.eqb k0 kk) eqn:Hk0; [|done].
        apply String.eqb_eq in Hk0 as ->. intros [= <-].
        rewrite Hnobj2. split; [done|]. apply elem_of_app. right.
        apply list_elem_of_singleton. rewrite Hsegs, Hr.
        by rewrite <-!app_assoc.
      * pose proof Hchl as Hchl0.
        apply is_chain_cons in Hchl as (_ & l2 & Hcl0 & Hl2).
        exists [(kk, VRef l2)]. split; [done|]. intros k0 x. cbn [assoc].
        destruct (String.eqb k0 kk) eqn:Hk0; [|done].
        apply String.eqb_eq in Hk0 as ->. intros [= <-].
        rewrite (is_chain_isObject _ _ _ _ _ Hl2). exists l2.
        split; [done|]. apply elem_of_app. right.
        apply (Hnext kk kk2 post l2 eq_refl).
        rewrite (get_prop_cell _ _ _ _ Hcl0). cbn [assoc].
        by rewrite String.eqb_refl.
  - intros l p [Hin|Hin]%elem_of_app Hp.
    + destruct (ti_inner _ _ _ _ _ Hinv l p Hin Hp) as (q & v & Hq & Hpre).
      exists q, v. split; [|done]. apply elem_of_app. by left.
    + destruct (Hns l p Hin)
        as (Hl & pre & post & Hr & Hpost & -> & Hchl & Hres & Hnext).
      exists (split_dot name), w. split_and!.
      * apply elem_of_app. right. by apply list_elem_of_singleton.
      * exists post. rewrite Hsegs, Hr. by rewrite <-!app_assoc.
      * intros Heq. rewrite Hsegs, Hr in Heq.
        apply (f_equal length) in Heq. rewrite !length_app in Heq.
        simpl in Heq. rewrite length_app in Heq.
        destruct post; [done|]. simpl in Heq. lia.
  - intros q v [Hin|Hin]%elem_of_app.
    + destruct (ti_leaf _ _ _ _ _ Hinv q v Hin) as (Hres & Hv & Hvo & Hvb).
      split_and!; [|done| |done].
      * rewrite Hkeep; [done|]. by rewrite Hres.
      * rewrite Hobjs; [done|]. by apply (below_valid n).
    + apply list_elem_of_singleton in Hin as [= -> ->].
      split_and!; [|done|done|done].
      rewrite Hsegs, resolve_app_segs, Hrest', resolve_cons.
      cbn [truthy]. by rewrite Hgetk.
Qed.

(** [setOptions] has nothing to merge for the empty name and for the
    default [undefined]. *)
Lemma setOptions_no_merge fuel h s name w t :
  _data s = VRef t → name = "" ∨ w = VUndef →
  State_setOptions fuel h s name (default_rule w)
  = Ok (h, MkState (_data s)
                   (assoc_set name (default_rule w) (_options s))
                   (_subscriptions s) (_nextId s)).
Proof.
  intros Hd Hor. unfold State_setOptions.
  change (rule_default (default_rule w)) with w.
  destruct Hor as [-> | ->].
  - unfold State_get, _get. cbn [_data str_truthy String.eqb negb].
    rewrite Hd. cbn [strict_eq]. rewrite bool_decide_eq_false_2 by done.
    by rewrite andb_false_r.
  - cbn [strict_eq]. by rewrite bool_decide_eq_true_2 by done.
Qed.

(** The loop of [_setDefaults] on the tree, for entries none of whose paths
    lies along another. *)
Lemma tree_loop n t fuel :
  ∀ entries h s nodes leaves,
    tree_inv n h t nodes leaves → _data s = VRef t →
    NoDup entries.*1 →
    (∀ k v, (k, v) ∈ entries →
       isObject h v = false ∧ below n v
       ∧ (length (split_dot k) ≤ fuel)%nat) →
    (∀ k1 v1 k2 v2, (k1, v1) ∈ entries → (k2, v2) ∈ entries →
       split_dot k1 `prefix_of` split_dot k2 → k1 = k2) →
    (∀ k v q x, (k, v) ∈ entries → (q, x) ∈ leaves →
       ¬ q `prefix_of` split_dot k ∧ ¬ split_dot k `prefix_of` q) →
    ∃ h' s' nodes' leaves',
      forEach (λ '(h, s) '(key, v),
                 State_setOptions fuel h s key
                   (Rule (Some v) None None None None))
              entries (h, s) = Ok (h', s')
      ∧ tree_inv n h' t nodes' leaves'
      ∧ _data s' = VRef t
      ∧ (∀ q x, (q, x) ∈ leaves' →
           (q, x) ∈ leaves ∨ ∃ k, (k, x) ∈ entries ∧ q = split_dot k)
      ∧ (∀ k v, (k, v) ∈ entries → k ≠ "" → v ≠ VUndef →
           (split_dot k, v) ∈ leaves')
      ∧ (∀ q x, (q, x) ∈ leaves → (q, x) ∈ leaves').
Proof.
  induction entries as [|[key v] entries IH];
    intros h s nodes leaves Hinv Hd Hnd Hval Hpair Hapart.
  { exists h, s, nodes, leaves. split_and!; try done.
    - intros q x Hin. by left.
    - intros k v Hin. by apply elem_of_nil in Hin. }
  rewrite fmap_cons in Hnd. cbn [fst] in Hnd.
  apply list.NoDup_cons in Hnd as [Hkey Hnd].
  destruct (Hval key v) as (Hnobj & Hb & Hlen); [left|].
  set (s1 := MkState (_data s) (assoc_set key (default_rule v) (_options s))
                     (_subscriptions s) (_nextId s)).
  assert (∀ k2 v2, (k2, v2) ∈ entries → k2 ≠ key) as Hother.
  { intros k2 v2 Hin ->. apply Hkey. apply list_elem_of_fmap.
    by exists (key, v2). }
  destruct (decide (key = "" ∨ v = VUndef)) as [Hskip|Hdo].
  - pose proof (setOptions_no_merge fuel h s key v t Hd Hskip) as Hrun.
    destruct (IH h s1 nodes leaves)
      as (h' & s' & nodes' & leaves' & Hloop & Hinv' & Hd' & Hfrom & Hall
          & Hkeep); try done.
    + intros k2 v2 Hin. apply Hval. by right.
    + intros k1 v1 k2 v2 H1 H2. apply (Hpair k1 v1 k2 v2); by right.
    + intros k2 v2 q x Hin. apply (Hapart k2 v2 q x). by right.
    + exists h', s', nodes', leaves'. split_and!; try done.
      * cbn [forEach]. unfold default_rule in Hrun. rewrite Hrun.
        by cbn [mbind res_bind].
      * intros q x Hin. destruct (Hfrom q x Hin) as [?|(k2 & Hk2 & ->)];
          [by left|]. right. exists k2. split; [by right|done].
      * intros k2 v2 [[= -> ->]|Hin]%elem_of_cons Hk2 Hv2.
        -- destruct Hskip; done.
        -- by apply Hall.
  - assert (key ≠ "" ∧ v ≠ VUndef) as [Hkne Hvne].
    { split; intros ->; apply Hdo; [by left|by right]. }
    destruct (tree_step n h t nodes leaves fuel s key v)
      as (h1 & nodes1 & Hrun & Hinv1 & Hlen1 & Hobj1); try done.
    { unfold str_truthy. by destruct (String.eqb_spec key ""). }
    { intros q x Hin. apply (Hapart key v q x); [left|done]. }
    pose proof (tree_size _ _ _ _ _ Hinv) as Hsize.
    destruct (IH h1 s1 nodes1 (leaves ++ [(split_dot key, v)]))
      as (h' & s' & nodes' & leaves' & Hloop & Hinv' & Hd' & Hfrom & Hall
          & Hkeep); try done.
    + intros k2 v2 Hin. destruct (Hval k2 v2) as (Hn2 & Hb2 & Hl2);
        [by right|].
      split_and!; [|done|done]. rewrite Hobj1; [done|].
      by apply (below_valid n).
    + intros k1 v1 k2 v2 H1 H2. apply (Hpair k1 v1 k2 v2); by right.
    + intros k2 v2 q x Hin [Hq|Hq]%elem_of_app.
      * apply (Hapart k2 v2 q x); [by right|done].
      * apply list_elem_of_singleton in Hq as [= -> ->].
        split; intros Hpre.
        -- apply (Hother k2 v2 Hin). symmetry.
           apply (Hpair key v k2 v2); [left|by right|done].
        -- apply (Hother k2 v2 Hin).
           apply (Hpair k2 v2 key v); [by right|left|done].
    + exists h', s', nodes', leaves'. split_and!; try done.
      * cbn [forEach]. unfold default_rule in Hrun. rewrite Hrun.
        by cbn [mbind res_bind].
      * intros q x Hin. destruct (Hfrom q x Hin) as [Hq|(k2 & Hk2 & ->)].
        -- apply elem_of_app in Hq as [Hq|Hq]; [by left|].
           apply list_elem_of_singleton in Hq as [= -> ->]. right.
           exists key. split; [left|done].
        -- right. exists k2. split; [by right|done].
      * intros k2 v2 [[= -> ->]|Hin]%elem_of_cons Hk2 Hv2.
        -- apply Hkeep, elem_of_app. right. by apply list_elem_of_singleton.
        -- by apply Hall.
      * intros q x Hin. apply Hkeep, elem_of_app. by left.
Qed.

(** The instance that the constructor returns, with its tree. *)
Lemma new_State_tree n h defaults fuel :
  wf_heap h → isObject h defaults = true →
  depth_le n h defaults → segment_keys n h defaults → (n ≤ fuel)%nat →
  ∃ r h' s' nodes leaves,
    _objectToDotNotation fuel h defaults "" [] = Ok r
    ∧ NoDup r.*1
    ∧ (∀ k v, (k, v) ∈ r →
         ∃ segs, split_dot k = segs ∧ k = join_dot segs
                 ∧ leaf_at h defaults segs v)
    ∧ State_new fuel h defaults = Ok (h', s')
    ∧ tree_inv (length h) h' (length h) nodes leaves
    ∧ _data s' = VRef (length h) ∧ _subscriptions s' = []
    ∧ (∀ k, assoc k (_options s')
            = match assoc k r with
              | Some v => Some (default_rule v)
              | None => None
              end)
    ∧ (∀ q x, (q, x) ∈ leaves →
         ∃ k, (k, x) ∈ r ∧ q = split_dot k ∧ x ≠ VUndef)
    ∧ (∀ k v, (k, v) ∈ r → k ≠ "" → v ≠ VUndef →
         (split_dot k, v) ∈ leaves).
Proof.
  intros Hwf Hobj Hd Hk Hf.
  pose proof (isObject_valid _ _ Hobj) as Hvalid.
  destruct (flatten_sound n h defaults fuel "" [] Hobj Hd Hk Hf)
    as (r & Hrun & Hnd & Hr).
  specialize (Hnd (NoDup_nil_2)).
  assert (∀ k v, (k, v) ∈ r →
            ∃ segs, split_dot k = segs ∧ (length segs ≤ n)%nat
                    ∧ k = join_dot segs ∧ valid h v
                    ∧ isObject h v = false ∧ leaf_at h defaults segs v)
    as Hleaf.
  { intros k v Hin.
    destruct (Hr k v)
      as [?|(segs & Hne & Hno & Hlen & -> & Hres & Hleaf & Hpath)];
      [by apply assoc_NoDup_elem|done|].
    change ("" +:+ join_dot segs) with (join_dot segs).
    exists segs. split_and!; try done.
    - by apply split_join.
    - rewrite <-Hres. by apply valid_resolve. }
  set (h1 := h ++ [Cell KObject []]).
  set (t := length h).
  assert (tree_inv (length h) h1 t [(t, [])] []) as Hinv.
  { constructor.
    - by apply wf_heap_alloc_empty.
    - by apply closed_below_app.
    - left.
    - apply NoDup_singleton.
    - intros l p [= -> ->]%list_elem_of_singleton.
      split_and!; [done|done|]. exists []. split; [|done].
      unfold h1, t. by rewrite list_lookup_middle.
    - by intros l p [= -> ->]%list_elem_of_singleton.
    - intros q v Hin. by apply elem_of_nil in Hin. }
  assert (∀ k v, (k, v) ∈ r →
            isObject h1 v = false ∧ below (length h) v
            ∧ (length (split_dot k) ≤ fuel)%nat) as Hvals.
  { intros k v Hin. destruct (Hleaf k v Hin)
      as (segs & Hs & Hlen & _ & Hv & Hnobj & _).
    split_and!; [unfold h1; by rewrite isObject_app|done|rewrite Hs; lia]. }
  destruct (tree_loop (length h) t fuel r h1 (MkState (VRef t) [] [] 0)
              [(t, [])] [])
    as (h' & s' & nodes' & leaves' & Hloop & Hinv' & Hd' & Hfrom & Hall & _);
    try done.
  { intros k1 v1 k2 v2 H1 H2 [post Hpre].
    destruct (Hleaf k1 v1 H1) as (segs1 & Hs1 & _ & Hk1 & _ & _ & Hl1).
    destruct (Hleaf k2 v2 H2) as (segs2 & Hs2 & _ & Hk2 & _ & _ & Hl2).
    rewrite Hs1, Hs2 in Hpre. subst segs2.
    rewrite (leaf_at_prefix _ _ _ _ _ _ Hl1 Hl2), app_nil_r in Hk2.
    congruence. }
  { intros k v q x _ Hin. by apply elem_of_nil in Hin. }
  destruct (setDefaults_loop fuel t r h1 (MkState (VRef t) [] [] 0))
    as (h'' & s'' & Hloop2 & _ & _ & _ & Hsubs & Hopts); try done.
  { by apply wf_heap_alloc_empty. }
  { apply isObject_cell. exists []. unfold h1, t.
    by rewrite list_lookup_middle. }
  { intros k v Hin. destruct (Hvals k v Hin) as (? & Hb & ?).
    split_and!; [|done|done]. apply (below_valid (length h)); [|done].
    unfold h1. rewrite length_app. lia. }
  assert (h'' = h' ∧ s'' = s') as [-> ->] by (split; congruence).
  exists r, h', s', nodes', leaves'. split_and!; try done.
  - intros k v Hin. destruct (Hleaf k v Hin)
      as (segs & Hs & _ & Hj & _ & _ & Hl). by exists segs.
  - unfold State_new.
    destruct (isObject_ref _ _ Hobj) as (l & -> & _).
    rewrite flatten_app by done. rewrite Hrun.
    cbn [mbind res_bind]. exact Hloop.
  - intros k. rewrite Hopts. by rewrite assoc_register_defaults.
  - intros q x Hin. destruct (Hfrom q x Hin) as [Hnil|(k & Hk0 & ->)];
      [by apply elem_of_nil in Hnil|].
    exists k. split_and!; [done|done|].
    by destruct (ti_leaf _ _ _ _ _ Hinv' _ _ Hin) as (_ & ? & _).
Qed.





(** ** The flattened keys are the leaf paths *)

Lemma append_inj_l (p a b : string) : p +:+ a = p +:+ b → a = b.
Proof. induction p as [|c p IH]; simpl; [done|]. intros [= ?]. by apply IH. Qed.

Lemma join_dot_inj s1 s2 :
  s1 ≠ [] → s2 ≠ [] → Forall no_dot s1 → Forall no_dot s2 →
  join_dot s1 = join_dot s2 → s1 = s2.
Proof.
  intros H1 H2 Hn1 Hn2 Heq.
  by rewrite <-(split_join s1), <-(split_join s2), Heq.
Qed.

Lemma leaf_at_segments n :
  ∀ h data segs v,
    depth_le n h data → segment_keys n h data → leaf_at h data segs v →
    Forall no_dot segs ∧ (length segs ≤ n)%nat.
Proof.
  induction n as [|n IH]; intros h data segs v Hd Hk Hleaf.
  { destruct segs as [|k rest]; [done|]. cbn [depth_le leaf_at] in Hd, Hleaf.
    destruct Hleaf as [Hobj _]. congruence. }
  destruct segs as [|k rest]; [done|].
  cbn [leaf_at] in Hleaf. destruct Hleaf as (Hobj & Hin & Hleaf).
  cbn [depth_le segment_keys] in Hd, Hk.
  specialize (Hd Hobj k Hin). destruct (Hk Hobj) as [_ Hkeys].
  destruct (Hkeys k Hin) as [Hno Hk'].
  destruct rest as [|k2 rest].
  - split; [by repeat constructor|simpl; lia].
  - destruct (IH h (get_prop h data k) (k2 :: rest) v Hd Hk' Hleaf)
      as [Hnos Hlen].
    split; [by constructor|simpl in *; lia].
Qed.

(** What a run of [_objectToDotNotation] that returns has written: the
    leaf paths, each with its value, and nothing else. *)
Lemma flatten_exact n :
  ∀ h data fuel prefix acc r,
    isObject h data = true → depth_le n h data → segment_keys n h data →
    _objectToDotNotation fuel h data prefix acc = Ok r →
    (∀ k, (∀ segs v, leaf_at h data segs v → k ≠ prefix +:+ join_dot segs) →
          assoc k r = assoc k acc)
    ∧ (∀ segs v, leaf_at h data segs v →
                 assoc (prefix +:+ join_dot segs) r = Some v).
Proof.
  induction n as [|n IH]; intros h data fuel prefix acc r Hobj Hd Hk Hrun.
  { cbn [depth_le] in Hd. congruence. }
  destruct fuel as [|fuel]; [done|]. cbn [_objectToDotNotation] in Hrun.
  pose proof Hd as Hd0. pose proof Hk as Hk0.
  cbn [depth_le] in Hd. specialize (Hd Hobj).
  cbn [segment_keys] in Hk. destruct (Hk Hobj) as [Hnd Hkeys]. clear Hk.
  destruct (isObject_ref _ _ Hobj) as (l & -> & Hl).
  pose proof Hobj as Hroot.
  apply isObject_cell in Hobj as [ps Hps].
  rewrite (own_keys_cell _ _ _ _ Hps) in Hd, Hnd, Hkeys.
  rewrite (own_entries_cell _ _ _ _ Hps) in Hrun.
  assert (∀ entries acc0 r0,
    (∀ e, e ∈ entries → e ∈ ps) → NoDup entries.*1 →
    forEach (flatten_entry (_objectToDotNotation fuel h) h prefix)
      entries acc0 = Ok r0 →
    (∀ k, (∀ key rest v, key ∈ entries.*1 →
             leaf_at h (VRef l) (key :: rest) v →
             k ≠ prefix +:+ join_dot (key :: rest)) →
          assoc k r0 = assoc k acc0)
    ∧ (∀ key rest v, key ∈ entries.*1 →
         leaf_at h (VRef l) (key :: rest) v →
         assoc (prefix +:+ join_dot (key :: rest)) r0 = Some v)) as Hloop.
  { induction entries as [|[key0 val0] entries IHe];
      intros acc0 r0 Hsub Hnde Hloop.
    { cbn [forEach] in Hloop. assert (r0 = acc0) as -> by congruence.
      split; [done|]. intros key rest v Hin. by apply elem_of_nil in Hin. }
    cbn [forEach] in Hloop.
    apply bind_Ok in Hloop as (r1 & Hstep & Hrest).
    rewrite fmap_cons in Hnde. cbn [fst] in Hnde.
    apply list.NoDup_cons in Hnde as [Hkey0 Hnde].
    destruct (IHe r1 r0) as [Hframe Hcompl]; [|done|done|].
    { intros e He. apply Hsub. by right. }
    assert ((key0, val0) ∈ ps) as Hin0 by (apply Hsub; left).
    assert (key0 ∈ ps.*1) as Hkin
      by (apply list_elem_of_fmap; by exists (key0, val0)).
    assert (get_prop h (VRef l) key0 = val0) as Hget.
    { rewrite (get_prop_cell _ _ _ _ Hps).
      by rewrite (assoc_NoDup_elem key0 val0 ps). }
    destruct (Hkeys key0 Hkin) as [Hnodot Hkval]. rewrite Hget in Hkval.
    pose proof (Hd key0 Hkin) as Hdval. rewrite Hget in Hdval.
    assert ((∀ k, (∀ rest v, leaf_at h (VRef l) (key0 :: rest) v →
                     k ≠ prefix +:+ join_dot (key0 :: rest)) →
                  assoc k r1 = assoc k acc0)
            ∧ (∀ rest v, leaf_at h (VRef l) (key0 :: rest) v →
                 assoc (prefix +:+ join_dot (key0 :: rest)) r1 = Some v))
      as [HframeS HcomplS].
    { unfold flatten_entry, isPlainObject in Hstep.
      destruct (isObject h val0) eqn:Hval.
      - destruct (IH h val0 fuel ((prefix +:+ key0) +:+ ".") acc0 r1)
          as [Hf1 Hc1]; [done..|].
        assert (∀ segs, segs ≠ [] →
                  ((prefix +:+ key0) +:+ ".") +:+ join_dot segs
                  = prefix +:+ join_dot (key0 :: segs)) as Hjoin.
        { intros [|x xs] Hne; [done|].
          change (join_dot (key0 :: x :: xs))
            with (key0 +:+ "." +:+ join_dot (x :: xs)).
          by rewrite !append_assoc. }
        split.
        + intros k Hk. apply Hf1. intros segs v Hleaf.
          rewrite Hjoin by (by eapply leaf_at_nonempty).
          apply (Hk segs v). cbn [leaf_at].
          rewrite (own_keys_cell _ _ _ _ Hps), Hget.
          split_and!; [done|done|]. by destruct segs.
        + intros rest v Hleaf. cbn [leaf_at] in Hleaf.
          destruct Hleaf as (_ & _ & Hleaf). rewrite Hget in Hleaf.
          destruct rest as [|k2 rest].
          { destruct Hleaf as [<- Hleaf]. congruence. }
          rewrite <-Hjoin by done. by apply Hc1.
      - assert (r1 = assoc_set (prefix +:+ key0) val0 acc0) as ->
          by congruence.
        assert (leaf_at h (VRef l) [key0] val0) as Hleaf0.
        { cbn [leaf_at]. by rewrite (own_keys_cell _ _ _ _ Hps). }
        split.
        + intros k Hk. rewrite assoc_assoc_set.
          destruct (String.eqb_spec k (prefix +:+ key0)) as [->|]; [|done].
          by destruct (Hk [] val0 Hleaf0).
        + intros rest v Hleaf. cbn [leaf_at] in Hleaf.
          destruct Hleaf as (_ & _ & Hleaf). rewrite Hget in Hleaf.
          destruct rest as [|k2 rest].
          * destruct Hleaf as [<- _]. cbn [join_dot].
            by rewrite assoc_assoc_set, String.eqb_refl.
          * cbn [leaf_at] in Hleaf. destruct Hleaf as [Hobj0 _].
            congruence. }
    split.
    - intros k Hk. rewrite Hframe.
      + apply HframeS. intros rest v. apply (Hk key0 rest v). left.
      + intros key rest v Hin. apply (Hk key rest v). by right.
    - intros key rest v [->|Hin]%elem_of_cons Hleaf.
      + rewrite Hframe; [by apply HcomplS|].
        intros key2 rest2 v2 Hin2 Hleaf2 Heq%append_inj_l.
        destruct (leaf_at_segments _ _ _ _ _ Hd0 Hk0 Hleaf) as [Hno1 _].
        destruct (leaf_at_segments _ _ _ _ _ Hd0 Hk0 Hleaf2) as [Hno2 _].
        apply join_dot_inj in Heq; [|done..].
        cbn [fst] in Heq. assert (key0 = key2) as -> by congruence. done.
      + by apply Hcompl. }
  destruct (Hloop ps acc r) as [Hframe Hcompl]; [done|done|done|].
  split.
  - intros k Hk. apply Hframe. intros key rest v _. apply (Hk _ v).
  - intros [|key rest] v Hleaf; [done|]. apply Hcompl; [|done].
    cbn [leaf_at] in Hleaf. destruct Hleaf as (_ & Hin & _).
    by rewrite (own_keys_cell _ _ _ _ Hps) in Hin.
Qed.



(** ** Storing the tree in itself *)

(** A merge of an object into itself leaves the store as it is, if it
    returns. *)
Lemma self_merge_unchanged fuel :
  ∀ h v h', deepMerge fuel h v v = Ok h' → h' = h.
Proof.
  induction fuel as [|fuel IH]; intros h v h' Hrun; [done|].
  cbn [deepMerge] in Hrun.
  destruct (isObject h v) eqn:Hobj; cbn [andb] in Hrun; [|congruence].
  destruct (isObject_ref _ _ Hobj) as (l & -> & _).
  assert (∀ keys, (∀ k, k ∈ keys → k ∈ own_keys h (VRef l)) →
            forEach (merge_key (deepMerge fuel) (VRef l) (VRef l)) keys h
            = Ok h' → h' = h) as Hloop; [|by apply (Hloop _ (λ k H, H))].
  induction keys as [|key keys IHk]; intros Hsub Hloop.
  { cbn [forEach] in Hloop. congruence. }
  cbn [forEach] in Hloop. apply bind_Ok in Hloop as (h1 & Hstep & Hrest).
  assert (h1 = h) as ->.
  { unfold merge_key in Hstep. lazy zeta in Hstep.
    destruct (isObject h (get_prop h (VRef l) key)) eqn:Hsv.
    - destruct (isObject_ref _ _ Hsv) as (l' & Hl' & _).
      rewrite Hl' in Hstep. cbn [truthy negb orb] in Hstep.
      rewrite ?Hl' in Hstep. by apply IH in Hstep.
    - rewrite set_prop_get_same in Hstep by (done || apply Hsub; left).
      congruence. }
  apply IHk; [|done]. intros k Hk. apply Hsub. by right.
Qed.

(** An object that holds itself under one of its keys: merging it into
    itself recurses without end. *)
Lemma self_reference_diverges fuel :
  ∀ h t k,
    isObject h (VRef t) = true → get_prop h (VRef t) k = VRef t →
    deepMerge fuel h (VRef t) (VRef t) = Diverge.
Proof.
  induction fuel as [|fuel IH]; intros h t k Hobj Hk; [done|].
  cbn [deepMerge]. rewrite Hobj. cbn [andb].
  assert (k ∈ own_keys h (VRef t)) as Hin.
  { pose proof Hobj as Hobj0. apply isObject_cell in Hobj0 as [ps Hps].
    rewrite (own_keys_cell _ _ _ _ Hps).
    rewrite (get_prop_cell _ _ _ _ Hps) in Hk.
    destruct (assoc k ps) as [x|] eqn:Ha; [|done].
    apply assoc_Some_elem in Ha. apply list_elem_of_fmap.
    by exists (k, x). }
  assert (∀ keys, k ∈ keys → (∀ k', k' ∈ keys → k' ∈ own_keys h (VRef t)) →
            forEach (merge_key (deepMerge fuel) (VRef t) (VRef t)) keys h
            = Diverge) as Hloop; [|by apply Hloop].
  induction keys as [|key keys IHk]; intros Hkin Hsub.
  { by apply elem_of_nil in Hkin. }
  cbn [forEach].
  assert (merge_key (deepMerge fuel) (VRef t) (VRef t) h key = Diverge
          ∨ (merge_key (deepMerge fuel) (VRef t) (VRef t) h key = Ok h
             ∧ key ≠ k)) as [-> | [-> Hne]]; [|done|].
  { unfold merge_key. lazy zeta.
    destruct (decide (key = k)) as [->|Hne].
    - left. rewrite Hk, Hobj. cbn [truthy negb orb]. rewrite Hk.
      by apply (IH h t k).
    - destruct (isObject h (get_prop h (VRef t) key)) eqn:Hsv.
      + destruct (isObject_ref _ _ Hsv) as (l' & Hl' & _).
        rewrite Hl'. cbn [truthy negb orb]. rewrite ?Hl'.
        destruct (deepMerge fuel h (VRef l') (VRef l')) as [h1|e|] eqn:Hm.
        * right. apply self_merge_unchanged in Hm as ->. done.
        * by apply deepMerge_not_Throw in Hm.
        * by left.
      + right. by rewrite set_prop_get_same by (done || apply Hsub; left). }
  cbn [mbind res_bind]. apply IHk.
  - by apply elem_of_cons in Hkin as [->|Hkin].
  - intros k' Hk'. apply Hsub. by right.
Qed.

Section Cycle.
Context (E : Env).

End Cycle.


(** ** Writing a mapping over a mapping *)

Lemma assign_keys_isObject h0 t s keys :
  ∀ h x, isObject (assign_keys h0 t s keys h) x = isObject h x.
Proof.
  induction keys as [|k0 keys IH]; intros h x; [done|].
  unfold assign_keys in *. cbn [foldl]. by rewrite IH, isObject_set_prop.
Qed.

Lemma object_at_isObject h segs :
  ∀ t o, isObject h (VRef t) = true → object_at h t segs = Some o →
         isObject h (VRef o) = true.
Proof.
  induction segs as [|k rest IH]; intros t o Hobj Hat.
  { cbn in Hat. congruence. }
  cbn [object_at] in Hat.
  destruct (get_prop h (VRef t) k) as [| | | | |t'|]; try done.
  destruct (isObject h (VRef t')) eqn:Ht'; [|done]. by apply (IH t').
Qed.

Lemma object_at_resolve h segs :
  ∀ t o, object_at h t segs = Some o → resolve h segs (VRef t) = VRef o.
Proof.
  induction segs as [|k rest IH]; intros t o Hat.
  { cbn in Hat. by simplify_eq. }
  cbn [object_at] in Hat. rewrite resolve_cons. cbn [truthy].
  destruct (get_prop h (VRef t) k) as [| | | | |t'|]; try done.
  destruct (isObject h (VRef t')); [|done]. by apply IH.
Qed.

Lemma object_at_app h ext segs :
  wf_heap h → ∀ t, (t < length h)%nat →
    object_at (h ++ ext) t segs = object_at h t segs.
Proof.
  intros Hwf. induction segs as [|k rest IH]; intros t Ht; [done|].
  cbn [object_at]. rewrite get_prop_app by done.
  pose proof (valid_get_prop h (VRef t) k Hwf Ht) as Hv.
  destruct (get_prop h (VRef t) k) as [| | | | |t'|]; try done.
  rewrite isObject_app by done.
  destruct (isObject h (VRef t')); [|done]. by apply IH.
Qed.

(** A store that differs only at [o] reads the same along a path that
    does not meet [o]. *)
Lemma object_at_frame h h' o segs :
  (∀ l, l ≠ o → h' !! l = h !! l) →
  ∀ t o', o ∉ spine h t segs → object_at h t segs = Some o' →
          resolve h' segs (VRef t) = VRef o'.
Proof.
  intros Hsame. induction segs as [|k rest IH]; intros t o' Hsp Hat.
  { cbn in Hat. by simplify_eq. }
  cbn [object_at] in Hat. rewrite resolve_cons. cbn [truthy].
  assert (t ≠ o) as Hne.
  { intros ->. apply Hsp. destruct rest; cbn [spine]; left. }
  rewrite (get_prop_same_cell h h' t k) by (by apply Hsame).
  destruct (get_prop h (VRef t) k) as [| | | | |t'|] eqn:Hk; try done.
  destruct (isObject h (VRef t')) eqn:Ht'; [|done].
  destruct rest as [|k2 rest].
  { cbn in Hat. by simplify_eq. }
  apply IH; [|done]. intros Hin. apply Hsp.
  rewrite (spine_step _ _ _ _ _ _ Hk Ht'). by right.
Qed.

(** Merging a patch whose value is a plain object, along a path that leads
    through plain objects to a plain object, comes to merging the value
    into that object. *)
Lemma merge_into_object hh n m f segs :
  ∀ c t o,
    is_chain hh n c segs (VRef m) → isObject hh (VRef m) = true →
    isObject hh (VRef t) = true → object_at hh t segs = Some o →
    deepMerge (length segs + f) hh (VRef t) (VRef c)
    = deepMerge f hh (VRef o) (VRef m).
Proof.
  induction segs as [|k rest IH]; intros c t o Hch Hm Ht Hat; [done|].
  cbn [object_at] in Hat.
  destruct (get_prop hh (VRef t) k) as [| | | | |t'|] eqn:Hk; try done.
  destruct (isObject hh (VRef t')) eqn:Ht'; [|done].
  cbn [length plus deepMerge]. rewrite Ht.
  rewrite (is_chain_isObject _ _ _ _ _ Hch). cbn [andb].
  destruct (chain_head _ _ _ _ _ _ Hch) as [-> Hhead].
  rewrite forEach_one. unfold merge_key. lazy zeta.
  destruct rest as [|k2 rest].
  - rewrite Hhead, Hm, Hk, Ht'. cbn [truthy negb orb].
    rewrite Hk, Hhead. cbn in Hat. by simplify_eq.
  - destruct Hhead as (c' & Hc' & Hch').
    rewrite Hc', (is_chain_isObject _ _ _ _ _ Hch'), Hk, Ht'.
    cbn [truthy negb orb]. rewrite Hk, Hc'. by apply IH.
Qed.

(** Flattening such a patch lists the properties of the value under the
    path. *)
Lemma flatten_flat_object fuel h m prefix :
  (∀ k, k ∈ own_keys h (VRef m) →
        isObject h (get_prop h (VRef m) k) = false) →
  NoDup (own_keys h (VRef m)) → isObject h (VRef m) = true →
  ∀ acc,
    _objectToDotNotation (S fuel) h (VRef m) prefix acc
    = Ok (foldl (λ a e, assoc_set (prefix +:+ e.1) e.2 a) acc
                (own_entries h (VRef m))).
Proof.
  intros Hflat Hnd Hobj acc. cbn [_objectToDotNotation].
  apply isObject_cell in Hobj as [ps Hps].
  rewrite (own_keys_cell _ _ _ _ Hps) in Hflat, Hnd.
  rewrite (own_entries_cell _ _ _ _ Hps).
  assert (∀ entries acc0, (∀ e, e ∈ entries → e ∈ ps) →
    forEach (flatten_entry (_objectToDotNotation fuel h) h prefix)
      entries acc0
    = Ok (foldl (λ a e, assoc_set (prefix +:+ e.1) e.2 a) acc0 entries))
    as Hloop; [|by apply Hloop].
  induction entries as [|[key val] entries IH]; intros acc0 Hsub; [done|].
  cbn [forEach foldl fst snd].
  assert ((key, val) ∈ ps) as Hin by (apply Hsub; left).
  assert (isObject h val = false) as Hval.
  { rewrite <-(Hflat key).
    - rewrite (get_prop_cell _ _ _ _ Hps).
      by rewrite (assoc_NoDup_elem key val ps).
    - apply list_elem_of_fmap. by exists (key, val). }
  assert (flatten_entry (_objectToDotNotation fuel h) h prefix acc0
            (key, val) = Ok (assoc_set (prefix +:+ key) val acc0)) as ->.
  { unfold flatten_entry, isPlainObject. by rewrite Hval. }
  cbn [mbind res_bind]. apply IH. intros e He. apply Hsub. by right.
Qed.

Lemma flatten_chain_object h n m f segs :
  (∀ k, k ∈ own_keys h (VRef m) →
        isObject h (get_prop h (VRef m) k) = false) →
  NoDup (own_keys h (VRef m)) → isObject h (VRef m) = true →
  ∀ c prefix acc,
    is_chain h n c segs (VRef m) →
    _objectToDotNotation (length segs + S f) h (VRef c) prefix acc
    = Ok (foldl (λ a e,
                   assoc_set (((prefix +:+ join_dot segs) +:+ ".") +:+ e.1)
                             e.2 a)
                acc (own_entries h (VRef m))).
Proof.
  intros Hflat Hnd Hm.
  induction segs as [|k rest IH]; intros c prefix acc Hch; [done|].
  cbn [length plus _objectToDotNotation].
  destruct rest as [|k2 rest].
  - apply is_chain_last in Hch as [_ Hc].
    rewrite (own_entries_cell _ _ _ _ Hc), forEach_one.
    unfold flatten_entry, isPlainObject. rewrite Hm.
    cbn [join_dot length plus]. by apply flatten_flat_object.
  - apply is_chain_cons in Hch as (_ & c' & Hc & Hch').
    rewrite (own_entries_cell _ _ _ _ Hc), forEach_one.
    unfold flatten_entry, isPlainObject.
    rewrite (is_chain_isObject _ _ _ _ _ Hch').
    rewrite (IH c' ((prefix +:+ k) +:+ ".") acc Hch').
    change (join_dot (k :: k2 :: rest))
      with (k +:+ "." +:+ join_dot (k2 :: rest)).
    by rewrite !append_assoc.
Qed.

Lemma foldl_assoc_set_keys {A} (P : string) (entries : list (string * A)) :
  ∀ acc,
    (∀ k, k ∈ acc.*1 →
          k ∈ (foldl (λ a e, assoc_set (P +:+ e.1) e.2 a) acc entries).*1)
    ∧ (∀ e, e ∈ entries →
            P +:+ e.1
            ∈ (foldl (λ a e, assoc_set (P +:+ e.1) e.2 a) acc entries).*1).
Proof.
  induction entries as [|e0 entries IH]; intros acc.
  { split; [done|]. intros e He. by apply elem_of_nil in He. }
  cbn [foldl]. destruct (IH (assoc_set (P +:+ e0.1) e0.2 acc)) as [Hmono Hnew].
  assert (∀ k, k ∈ acc.*1 ∨ k = P +:+ e0.1 →
               k ∈ (assoc_set (P +:+ e0.1) e0.2 acc).*1) as Hstep.
  { intros k Hk. rewrite assoc_set_keys.
    destruct (decide (P +:+ e0.1 ∈ acc.*1)) as [Hin|Hin].
    - destruct Hk as [? | ->]; done.
    - apply elem_of_app. destruct Hk as [? | ->]; [by left|right; left]. }
  split.
  - intros k Hk. apply Hmono, Hstep. by left.
  - intros e [->|He]%elem_of_cons; [|by apply Hnew].
    apply Hmono, Hstep. by right.
Qed.

Section MappingWrite.
Context (E : Env).

End MappingWrite.


(** ** Writing a mapping where none is stored *)

Lemma self_merge_flat h m f :
  isObject h (VRef m) = true →
  (∀ k, k ∈ own_keys h (VRef m) →
        isObject h (get_prop h (VRef m) k) = false) →
  deepMerge (S f) h (VRef m) (VRef m) = Ok h.
Proof.
  intros Hm Hflat. cbn [deepMerge]. rewrite Hm. cbn [andb].
  assert (∀ keys, (∀ k, k ∈ keys → k ∈ own_keys h (VRef m)) →
            forEach (merge_key (deepMerge f) (VRef m) (VRef m)) keys h
            = Ok h) as Hloop; [|by apply Hloop].
  induction keys as [|key keys IH]; intros Hsub; [done|].
  assert (merge_key (deepMerge f) (VRef m) (VRef m) h key = Ok h) as Hstep.
  { unfold merge_key. rewrite Hflat by (apply Hsub; left).
    by rewrite set_prop_get_same by (done || apply Hsub; left). }
  cbn [forEach]. rewrite Hstep. cbn [mbind res_bind].
  apply IH. intros k Hk. apply Hsub. by right.
Qed.

Lemma self_merge_chain_object h n m f segs :
  isObject h (VRef m) = true →
  (∀ k, k ∈ own_keys h (VRef m) →
        isObject h (get_prop h (VRef m) k) = false) →
  ∀ c, is_chain h n c segs (VRef m) →
       deepMerge (length segs + S f) h (VRef c) (VRef c) = Ok h.
Proof.
  intros Hm Hflat. induction segs as [|k rest IH]; intros c Hch; [done|].
  cbn [length plus deepMerge].
  rewrite (is_chain_isObject _ _ _ _ _ Hch). cbn [andb].
  destruct (chain_head _ _ _ _ _ _ Hch) as [-> Hhead].
  rewrite forEach_one. unfold merge_key. lazy zeta.
  destruct rest as [|k2 rest].
  - rewrite Hhead, Hm. cbn [truthy negb orb]. rewrite Hhead.
    by apply self_merge_flat.
  - destruct Hhead as (c' & Hg & Hch'). rewrite Hg.
    rewrite (is_chain_isObject _ _ _ _ _ Hch'). cbn [truthy negb orb].
    rewrite Hg. by apply IH.
Qed.

(** The merge of a patch whose value is a plain object [m], none of whose
    properties is a plain object, where the path ends or breaks off at a
    key that holds no plain object: one assignment, as for a value that is
    not a plain object. *)
Lemma merge_chain_object h n m segs :
  isObject h (VRef m) = true →
  (∀ k, k ∈ own_keys h (VRef m) →
        isObject h (get_prop h (VRef m) k) = false) →
  closed_below n h →
  ∀ t c fuel t' k rest,
    is_chain h n c segs (VRef m) → (t < n)%nat →
    isObject h (VRef t) = true →
    (length segs + 1 ≤ fuel)%nat →
    descend h t segs = (t', k :: rest) →
    isObject h (get_prop h (VRef t') k) = false → t' ≠ m →
    ∃ c',
      is_chain h n c' (k :: rest) (VRef m)
      ∧ (t' < n)%nat ∧ isObject h (VRef t') = true
      ∧ deepMerge fuel h (VRef t) (VRef c)
        = Ok (set_prop h (VRef t') k (get_prop h (VRef c') k)).
Proof.
  intros Hm Hflat Hcl. induction segs as [|k0 rest0 IH];
    intros t c fuel t' k rest Hch Ht Hobj Hf Hdesc Hstop Htm; [done|].
  destruct fuel as [|fuel]; [lia|].
  cbn [deepMerge]. rewrite Hobj, (is_chain_isObject _ _ _ _ _ Hch).
  cbn [andb].
  destruct (chain_head _ _ _ _ _ _ Hch) as [-> Hhead].
  rewrite forEach_one. unfold merge_key. lazy zeta.
  destruct (proj1 (isObject_cell _ _) Hobj) as [ps Hc].
  assert (∀ x, t ≠ m →
    (∀ k1, k1 ∈ own_keys (set_prop h (VRef t) k0 x) (VRef m) →
           isObject (set_prop h (VRef t) k0 x)
             (get_prop (set_prop h (VRef t) k0 x) (VRef m) k1) = false))
    as Hflat'.
  { intros x Hne k1 Hk1. rewrite isObject_set_prop.
    rewrite (get_prop_set_prop_ne _ _ _ _ _ _ _ Hc) by (left; congruence).
    apply Hflat. unfold own_keys, own_entries in *.
    by rewrite lookup_set_prop_ne in Hk1 by congruence. }
  destruct rest0 as [|k2 rest0].
  - cbn in Hdesc. assert (t' = t ∧ k = k0 ∧ rest = []) as (-> & -> & ->)
      by (split_and!; congruence).
    rewrite Hhead, Hm, Hstop, orb_true_r.
    rewrite (get_prop_set_prop_eq _ _ _ _ _ Hc).
    rewrite (get_prop_set_prop_ne _ _ _ _ _ (VRef c) k0 Hc), Hhead.
    2:{ left. intros [= ->]. apply is_chain_ge in Hch. lia. }
    destruct fuel as [|fuel]; [simpl in Hf; lia|].
    rewrite self_merge_flat.
    + exists c. by rewrite Hhead.
    + by rewrite isObject_set_prop.
    + by apply Hflat'.
  - destruct Hhead as (c' & Hg & Hch'). rewrite Hg.
    rewrite (is_chain_isObject _ _ _ _ _ Hch').
    destruct (isObject h (get_prop h (VRef t) k0)) eqn:Htk.
    + destruct (isObject_ref _ _ Htk) as (t1 & Ht1 & _).
      rewrite Ht1 in *. cbn [truthy negb orb]. rewrite Hg, Ht1.
      rewrite (descend_step _ _ _ _ _ _ Ht1 Htk) in Hdesc.
      apply (IH t1 c' fuel t' k rest); try done.
      * by eapply closed_below_step.
      * simpl in *. lia.
    + rewrite (descend_stop _ _ _ _ _ Htk) in Hdesc.
      assert (t' = t ∧ k = k0 ∧ rest = k2 :: rest0) as (-> & -> & ->)
        by (split_and!; congruence).
      rewrite orb_true_r.
      rewrite (get_prop_set_prop_eq _ _ _ _ _ Hc).
      rewrite (get_prop_set_prop_ne _ _ _ _ _ (VRef c) k0 Hc), Hg.
      2:{ left. intros [= ->]. apply is_chain_ge in Hch. lia. }
      replace fuel
        with (length (k2 :: rest0) + S (fuel - length (k2 :: rest0) - 1))%nat
        by (simpl in *; lia).
      rewrite (self_merge_chain_object _ n m _ (k2 :: rest0)).
      * exists c. by rewrite Hg.
      * by rewrite isObject_set_prop.
      * by apply Hflat'.
      * by apply is_chain_set_prop.
Qed.

Section NewMapping.
Context (E : Env).

End NewMapping.

